(** * The cattle-tree component: an embedding of [cattle-tree.ts]

    The component draws a hard-coded family tree of cows with d3: it
    builds a [d3.hierarchy], lays it out with [d3.tree], renders one
    [line.link] per parent-child link and one [g.node] per node, and binds
    a [d3.drag] behaviour whose [start]/[drag]/[end] handlers move the node
    and open a Material dialog when the press was shorter than 200 ms.

    JavaScript numbers are IEEE-754 doubles and are modelled by Rocq's
    primitive floats; [Date.now()] yields integral milliseconds and is
    modelled in [Z].  Objects live in arenas (lists indexed by reference),
    so sharing, cycles and in-place mutation are what they are in the
    source.  Loops run on fuel. *)

From Stdlib Require Import ZArith String Ascii List Floats Uint63 Lia.
From stdpp Require Import base option list relations gmap strings pretty.

(* Decimal literals denote the nearest double, as they do in JavaScript. *)
Set Warnings "-register-all,-inexact-float".

Local Open Scope string_scope.
Local Open Scope list_scope.

(** ** Outcomes of JavaScript computations *)

Record JSError := mkError { err_name : string }.

Definition TypeError : JSError := mkError "TypeError".

Inductive outcome (A : Type) : Type :=
| Ok (a : A)
| Throw (e : JSError)
| OutOfFuel.

Arguments Ok {A} a.
Arguments Throw {A} e.
Arguments OutOfFuel {A}.

Definition obind {A B} (o : outcome A) (k : A -> outcome B) : outcome B :=
  match o with
  | Ok a => k a
  | Throw e => Throw e
  | OutOfFuel => OutOfFuel
  end.

Notation "x <-! e ;; k" := (obind e (fun x => k))
  (at level 100, e at next level, right associativity).

(** Reading a slot of an arena.  A reference that names no object stands
    for [undefined], and reading a property of [undefined] throws. *)
Definition deref {A} (arena : list A) (r : nat) : outcome A :=
  match arena !! r with
  | Some a => Ok a
  | None => Throw TypeError
  end.

Fixpoint omap {A B} (f : A -> outcome B) (l : list A) : outcome (list B) :=
  match l with
  | [] => Ok []
  | a :: l' => b <-! f a ;; bs <-! omap f l' ;; Ok (b :: bs)
  end.

(** ** The data model: [interface Cow] *)

Inductive Gender := male | female.

Abbreviation ref := nat (only parsing).

(** A [Cow] object on the heap; [age] is a number, a double; [children]
    holds references, so that an object may be shared or reach itself. *)
Record Cow := mkCow {
  name : string;
  age : option float;
  gender : option Gender;
  notes : option string;
  children : option (list ref)
}.

Abbreviation heap := (list Cow) (only parsing).

(** Object literals, as written in the source text. *)
Inductive CowLit :=
| lit (l_name : string) (l_age : option float) (l_gender : option Gender)
      (l_notes : option string) (l_children : option (list CowLit)).

(** Evaluating a literal allocates its children, left to right, and then
    the object itself; the result is the new heap and the reference of the
    object. *)
Fixpoint alloc (t : CowLit) (h : heap) : heap * ref :=
  match t with
  | lit n a g s cs =>
      let fix alloc_list (ts : list CowLit) (h : heap) : heap * list ref :=
        match ts with
        | [] => (h, [])
        | t' :: ts' =>
            let '(h1, r) := alloc t' h in
            let '(h2, rs) := alloc_list ts' h1 in
            (h2, r :: rs)
        end in
      match cs with
      | None => (h ++ [mkCow n a g s None], length h)
      | Some ts =>
          let '(h1, rs) := alloc_list ts h in
          (h1 ++ [mkCow n a g s (Some rs)], length h1)
      end
  end.

Fixpoint alloc_list (ts : list CowLit) (h : heap) : heap * list ref :=
  match ts with
  | [] => (h, [])
  | t' :: ts' =>
      let '(h1, r) := alloc t' h in
      let '(h2, rs) := alloc_list ts' h1 in
      (h2, r :: rs)
  end.

(** Number of objects a literal denotes. *)
Fixpoint lit_size (t : CowLit) : nat :=
  match t with
  | lit _ _ _ _ cs =>
      match cs with
      | None => 1
      | Some ts => S (list_sum (map lit_size ts))
      end
  end.

Definition leaf (n : string) : CowLit := lit n None None None None.
Definition parent_of (n : string) (cs : list CowLit) : CowLit :=
  lit n None None None (Some cs).

(** [let cows: Cow[] = [{ name: 'Lilly', age: 11, gender: 'female' }]] *)
Definition cows : list CowLit :=
  [lit "Lilly" (Some 11%float) (Some female) None None].

(** [private data: Cow = { name: 'Lilly', children: [...] }] *)
Definition data : CowLit :=
  parent_of "Lilly"
    [leaf "Bella";
     parent_of "Daisy" [leaf "MooMoo"; leaf "Bessie"];
     leaf "Buttercup"].

(** ** d3.hierarchy *)

Abbreviation nid := nat (only parsing).

(** A [Node] of d3-hierarchy.  [n_x] and [n_y] are the properties that
    [d3.tree] assigns; until then they are [undefined], which reads as NaN
    in arithmetic.  [n_dragging] and [n_dragStart] are the properties the
    drag handlers add ([d['dragging']], [d['dragStart']]); [None] is
    [undefined].  The [height] property, which nothing in the component
    or in the tidy layout reads, is left out. *)
Record HNode := mkHNode {
  n_data : ref;
  n_depth : nat;
  n_parent : option nid;
  n_children : option (list nid);
  n_x : float;
  n_y : float;
  n_dragging : option bool;
  n_dragStart : option Z
}.

Definition newNode (d : ref) : HNode :=
  mkHNode d 0 None None nan nan None None.

Definition set_n_children (cs : list nid) (n : HNode) : HNode :=
  mkHNode (n_data n) (n_depth n) (n_parent n) (Some cs) (n_x n) (n_y n)
          (n_dragging n) (n_dragStart n).

Definition set_n_x (v : float) (n : HNode) : HNode :=
  mkHNode (n_data n) (n_depth n) (n_parent n) (n_children n) v (n_y n)
          (n_dragging n) (n_dragStart n).

Definition set_n_y (v : float) (n : HNode) : HNode :=
  mkHNode (n_data n) (n_depth n) (n_parent n) (n_children n) (n_x n) v
          (n_dragging n) (n_dragStart n).

Definition set_n_dragging (v : bool) (n : HNode) : HNode :=
  mkHNode (n_data n) (n_depth n) (n_parent n) (n_children n) (n_x n) (n_y n)
          (Some v) (n_dragStart n).

Definition set_n_dragStart (v : Z) (n : HNode) : HNode :=
  mkHNode (n_data n) (n_depth n) (n_parent n) (n_children n) (n_x n) (n_y n)
          (n_dragging n) (Some v).

(** [objectChildren(d) = d.children]; the data of a node is an object of
    the heap, [null] and [undefined] have no properties. *)
Definition objectChildren (h : heap) (d : ref) : outcome (option (list ref)) :=
  c <-! deref h d ;; Ok (children c).

(** The child nodes of [node], created for [childs[n-1]] down to
    [childs[0]]: the node of [childs[i]] is the [(n-1-i)]-th new object. *)
Definition child_ids (base n : nat) : list nid :=
  map (fun i => base + (n - 1 - i)) (seq 0 n).

Definition new_children (node : nid) (depth : nat) (childs : list ref) : list HNode :=
  map (fun d => mkHNode d (S depth) (Some node) None nan nan None None)
      (rev childs).

(** The loop of [hierarchy]:
    [while (node = nodes.pop()) { if ((childs = children(node.data)) && (n = childs.length)) ... }].
    The stack is kept with its top first. *)
Fixpoint hierarchy_loop (fuel : nat) (h : heap) (nodes : list nid)
    (arena : list HNode) : outcome (list HNode) :=
  match fuel with
  | O => OutOfFuel
  | S fuel' =>
      match nodes with
      | [] => Ok arena
      | node :: rest =>
          nd <-! deref arena node ;;
          childs <-! objectChildren h (n_data nd) ;;
          match childs with
          | None => hierarchy_loop fuel' h rest arena
          | Some [] => hierarchy_loop fuel' h rest arena
          | Some cs =>
              let ids := child_ids (length arena) (length cs) in
              let arena1 := <[node := set_n_children ids nd]> arena in
              let arena2 := arena1 ++ new_children node (n_depth nd) cs in
              hierarchy_loop fuel' h (ids ++ rest) arena2
          end
      end
  end.

(** [d3.hierarchy(data)]: the root is node 0 of the arena.  [data] is
    [None] for [null] or [undefined]. *)
Definition hierarchy (fuel : nat) (h : heap) (data : option ref)
  : outcome (list HNode) :=
  match data with
  | None => Throw TypeError
  | Some d => hierarchy_loop fuel h [0] [newNode d]
  end.

Definition root : nid := 0.

(** The iterator of a node (breadth-first), level by level:
    [do { current = next.reverse(), next = []; while (node = current.pop()) { yield node; push its children on next } } while (next.length)]. *)
Definition node_children (arena : list HNode) (n : nid) : outcome (list nid) :=
  nd <-! deref arena n ;; Ok (default [] (n_children nd)).

Fixpoint iterate (fuel : nat) (arena : list HNode) (next : list nid)
  : outcome (list nid) :=
  match fuel with
  | O => OutOfFuel
  | S fuel' =>
      match next with
      | [] => Ok []
      | _ =>
          kids <-! omap (node_children arena) next ;;
          later <-! iterate fuel' arena (concat kids) ;;
          Ok (next ++ later)
      end
  end.

(** [root.descendants()] is [Array.from(root)]. *)
Definition descendants (fuel : nat) (arena : list HNode) : outcome (list nid) :=
  iterate fuel arena [root].

Record Link := mkLink { source : nid; target : nid }.

(** [root.links()]: for every node of the iteration other than the root,
    [{source: node.parent, target: node}].  A [null] source would throw
    as soon as its [x] is read. *)
Definition link_of (arena : list HNode) (n : nid) : outcome Link :=
  nd <-! deref arena n ;;
  match n_parent nd with
  | Some p => Ok (mkLink p n)
  | None => Throw TypeError
  end.

Definition links (fuel : nat) (arena : list HNode) : outcome (list Link) :=
  ns <-! iterate fuel arena [root] ;;
  omap (link_of arena) (filter (fun n => n ≠ root) ns).


(** ** d3.tree: the tidy layout of Buchheim et al.

    The layout works on a mirror of the hierarchy made of [TreeNode]s, which
    it mutates in place, and finally writes [x] and [y] into the nodes of
    the hierarchy.  Both arenas are threaded through a state monad. *)

Abbreviation tid := nat (only parsing).

(** [function TreeNode(node, i)]: [t_node] is [this._], [t_A] the default
    ancestor, [t_a] the ancestor, [t_z] prelim, [t_m] mod, [t_c] change,
    [t_s] shift, [t_t] the thread, [t_i] the number among the siblings. *)
Record TreeNode := mkTreeNode {
  t_node : option nid;
  t_parent : option tid;
  t_children : option (list tid);
  t_A : option tid;
  t_a : tid;
  t_z : float;
  t_m : float;
  t_c : float;
  t_s : float;
  t_t : option tid;
  t_i : nat
}.

(** [new TreeNode(node, i)], allocated at [self]. *)
Definition newTreeNode (self : tid) (node : option nid) (i : nat) : TreeNode :=
  mkTreeNode node None None None self 0 0 0 0 None i.

Definition set_t_parent (p : tid) (n : TreeNode) : TreeNode :=
  mkTreeNode (t_node n) (Some p) (t_children n) (t_A n) (t_a n) (t_z n)
             (t_m n) (t_c n) (t_s n) (t_t n) (t_i n).
Definition set_t_children (cs : list tid) (n : TreeNode) : TreeNode :=
  mkTreeNode (t_node n) (t_parent n) (Some cs) (t_A n) (t_a n) (t_z n)
             (t_m n) (t_c n) (t_s n) (t_t n) (t_i n).
Definition set_t_A (v : option tid) (n : TreeNode) : TreeNode :=
  mkTreeNode (t_node n) (t_parent n) (t_children n) v (t_a n) (t_z n)
             (t_m n) (t_c n) (t_s n) (t_t n) (t_i n).
Definition set_t_a (v : tid) (n : TreeNode) : TreeNode :=
  mkTreeNode (t_node n) (t_parent n) (t_children n) (t_A n) v (t_z n)
             (t_m n) (t_c n) (t_s n) (t_t n) (t_i n).
Definition set_t_z (v : float) (n : TreeNode) : TreeNode :=
  mkTreeNode (t_node n) (t_parent n) (t_children n) (t_A n) (t_a n) v
             (t_m n) (t_c n) (t_s n) (t_t n) (t_i n).
Definition set_t_m (v : float) (n : TreeNode) : TreeNode :=
  mkTreeNode (t_node n) (t_parent n) (t_children n) (t_A n) (t_a n) (t_z n)
             v (t_c n) (t_s n) (t_t n) (t_i n).
Definition set_t_c (v : float) (n : TreeNode) : TreeNode :=
  mkTreeNode (t_node n) (t_parent n) (t_children n) (t_A n) (t_a n) (t_z n)
             (t_m n) v (t_s n) (t_t n) (t_i n).
Definition set_t_s (v : float) (n : TreeNode) : TreeNode :=
  mkTreeNode (t_node n) (t_parent n) (t_children n) (t_A n) (t_a n) (t_z n)
             (t_m n) (t_c n) v (t_t n) (t_i n).
Definition set_t_t (v : tid) (n : TreeNode) : TreeNode :=
  mkTreeNode (t_node n) (t_parent n) (t_children n) (t_A n) (t_a n) (t_z n)
             (t_m n) (t_c n) (t_s n) (Some v) (t_i n).

Record LState := mkLState {
  tnodes : list TreeNode;
  hnodes : list HNode
}.

Definition M (A : Type) : Type := LState -> outcome (A * LState).

Definition ret {A} (a : A) : M A := fun s => Ok (a, s).
Definition bind {A B} (m : M A) (k : A -> M B) : M B :=
  fun s => match m s with
           | Ok (a, s') => k a s'
           | Throw e => Throw e
           | OutOfFuel => OutOfFuel
           end.
Definition throw {A} (e : JSError) : M A := fun _ => Throw e.
Definition out_of_fuel {A} : M A := fun _ => OutOfFuel.

Notation "x <- e ;; k" := (bind e (fun x => k))
  (at level 100, e at next level, right associativity).
Notation "e ;;; k" := (bind e (fun _ => k))
  (at level 100, k at level 200, right associativity).

Definition lift {A} (o : outcome A) : M A :=
  fun s => match o with
           | Ok a => Ok (a, s)
           | Throw e => Throw e
           | OutOfFuel => OutOfFuel
           end.

(** Reading a property of a possibly [null] reference. *)
Definition nonnull {A} (o : option A) : M A :=
  match o with
  | Some a => ret a
  | None => throw TypeError
  end.

Definition getT (v : tid) : M TreeNode := fun s => lift (deref (tnodes s) v) s.
Definition getH (n : nid) : M HNode := fun s => lift (deref (hnodes s) n) s.
Definition modT (v : tid) (f : TreeNode -> TreeNode) : M unit :=
  n <- getT v ;; fun s => Ok (tt, mkLState (<[v := f n]> (tnodes s)) (hnodes s)).
Definition modH (v : nid) (f : HNode -> HNode) : M unit :=
  n <- getH v ;; fun s => Ok (tt, mkLState (tnodes s) (<[v := f n]> (hnodes s))).
Definition allocT (ns : list TreeNode) : M unit :=
  fun s => Ok (tt, mkLState (tnodes s ++ ns) (hnodes s)).
Definition sizeT : M nat := fun s => Ok (length (tnodes s), s).

(** Numbers that the source keeps as integers, read as doubles. *)
Definition float_of_nat (n : nat) : float :=
  PrimFloat.of_uint63 (Uint63.of_Z (Z.of_nat n)).

Local Open Scope float_scope.

(** [defaultSeparation(a, b) = a.parent === b.parent ? 1 : 2], on nodes of
    the hierarchy. *)
Definition defaultSeparation (a b : option nid) : M float :=
  a' <- nonnull a ;;
  b' <- nonnull b ;;
  na <- getH a' ;;
  nb <- getH b' ;;
  ret (if decide (n_parent na = n_parent nb) then 1 else 2).

(** [nextLeft(v)]: [children ? children[0] : v.t]. *)
Definition nextLeft (v : tid) : M (option tid) :=
  n <- getT v ;;
  ret (match t_children n with
       | Some cs => cs !! 0%nat
       | None => t_t n
       end).

(** [nextRight(v)]: [children ? children[children.length - 1] : v.t]. *)
Definition nextRight (v : tid) : M (option tid) :=
  n <- getT v ;;
  ret (match t_children n with
       | Some cs => last cs
       | None => t_t n
       end).

(** [moveSubtree(wm, wp, shift)] *)
Definition moveSubtree (wm : option tid) (wp : tid) (shift : float) : M unit :=
  nwp <- getT wp ;;
  wm' <- nonnull wm ;;
  nwm <- getT wm' ;;
  let change := shift / (float_of_nat (t_i nwp) - float_of_nat (t_i nwm)) in
  modT wp (fun n => set_t_c (t_c n - change) n) ;;;
  modT wp (fun n => set_t_s (t_s n + shift) n) ;;;
  modT wm' (fun n => set_t_c (t_c n + change) n) ;;;
  modT wp (fun n => set_t_z (t_z n + shift) n) ;;;
  modT wp (fun n => set_t_m (t_m n + shift) n).

(** The loop of [executeShifts], over the children from the last to the
    first: [w.z += shift; w.m += shift; shift += w.s + (change += w.c)]. *)
Fixpoint executeShifts_loop (ws : list tid) (shift change : float) : M unit :=
  match ws with
  | [] => ret tt
  | w :: ws' =>
      modT w (fun n => set_t_z (t_z n + shift) n) ;;;
      modT w (fun n => set_t_m (t_m n + shift) n) ;;;
      nw <- getT w ;;
      let change' := change + t_c nw in
      executeShifts_loop ws' (shift + (t_s nw + change')) change'
  end.

Definition executeShifts (v : tid) : M unit :=
  n <- getT v ;;
  cs <- nonnull (t_children n) ;;
  executeShifts_loop (rev cs) 0 0.

(** [nextAncestor(vim, v, ancestor)]:
    [vim.a.parent === v.parent ? vim.a : ancestor]. *)
Definition nextAncestor (vim v : tid) (ancestor : option tid) : M (option tid) :=
  nvim <- getT vim ;;
  na <- getT (t_a nvim) ;;
  nv <- getT v ;;
  ret (if decide (t_parent na = t_parent nv) then Some (t_a nvim) else ancestor).

(** The variables of the loop of [apportion]. *)
Record Contours := mkContours {
  vim : option tid; vip : option tid; vom : tid; vop : tid;
  sim : float; sip : float; som : float; sop : float
}.

(** [while (vim = nextRight(vim), vip = nextLeft(vip), vim && vip) { ... }];
    at the head of the loop [vim] and [vip] are not null. *)
Fixpoint apportion_loop (fuel : nat) (v : tid) (ancestor : option tid)
    (vim0 vip0 vom0 vop0 : tid) (sim0 sip0 som0 sop0 : float) : M Contours :=
  match fuel with
  | O => out_of_fuel
  | S fuel' =>
      vim1 <- nextRight vim0 ;;
      vip1 <- nextLeft vip0 ;;
      match vim1, vip1 with
      | Some vim', Some vip' =>
          vom1 <- nextLeft vom0 ;;
          vop1 <- nextRight vop0 ;;
          vop' <- nonnull vop1 ;;
          modT vop' (set_t_a v) ;;;
          nvim <- getT vim' ;;
          nvip <- getT vip' ;;
          sep <- defaultSeparation (t_node nvim) (t_node nvip) ;;
          let shift := t_z nvim + sim0 - t_z nvip - sip0 + sep in
          shifted <-
            (if 0 <? shift then
               wm <- nextAncestor vim' v ancestor ;;
               moveSubtree wm v shift ;;;
               ret (sip0 + shift, sop0 + shift)
             else ret (sip0, sop0)) ;;
          nvim <- getT vim' ;;
          nvip <- getT vip' ;;
          vom' <- nonnull vom1 ;;
          nvom <- getT vom' ;;
          nvop <- getT vop' ;;
          apportion_loop fuel' v ancestor vim' vip' vom' vop'
            (sim0 + t_m nvim) (fst shifted + t_m nvip)
            (som0 + t_m nvom) (snd shifted + t_m nvop)
      | _, _ => ret (mkContours vim1 vip1 vom0 vop0 sim0 sip0 som0 sop0)
      end
  end.

(** [apportion(v, w, ancestor)] *)
Definition apportion (fuel : nat) (v : tid) (w ancestor : option tid)
  : M (option tid) :=
  match w with
  | None => ret ancestor
  | Some w' =>
      nv <- getT v ;;
      p <- nonnull (t_parent nv) ;;
      np <- getT p ;;
      siblings <- nonnull (t_children np) ;;
      vom0 <- nonnull (siblings !! 0%nat) ;;
      nw <- getT w' ;;
      nvom <- getT vom0 ;;
      c <- apportion_loop fuel v ancestor w' v vom0 v
             (t_m nw) (t_m nv) (t_m nvom) (t_m nv) ;;
      threadR <-
        (match vim c with
         | Some vim' =>
             r <- nextRight (vop c) ;;
             match r with
             | None =>
                 modT (vop c) (set_t_t vim') ;;;
                 modT (vop c) (fun n => set_t_m (t_m n + (sim c - sop c)) n)
             | Some _ => ret tt
             end
         | None => ret tt
         end) ;;
      match vip c with
      | Some vip' =>
          l <- nextLeft (vom c) ;;
          match l with
          | None =>
              modT (vom c) (set_t_t vip') ;;;
              modT (vom c) (fun n => set_t_m (t_m n + (sip c - som c)) n) ;;;
              ret (Some v)
          | Some _ => ret ancestor
          end
      | None => ret ancestor
      end
  end.

(** [firstWalk(v)] *)
Definition firstWalk (fuel : nat) (v : tid) : M unit :=
  nv <- getT v ;;
  p <- nonnull (t_parent nv) ;;
  np <- getT p ;;
  siblings <- nonnull (t_children np) ;;
  let w := match t_i nv with
           | O => None
           | S i' => siblings !! i'
           end in
  (match t_children nv with
   | Some children =>
       executeShifts v ;;;
       c0 <- nonnull (children !! 0%nat) ;;
       n0 <- getT c0 ;;
       cl <- nonnull (last children) ;;
       nl <- getT cl ;;
       let midpoint := (t_z n0 + t_z nl) / 2 in
       match w with
       | Some w' =>
           nw <- getT w' ;;
           sep <- defaultSeparation (t_node nv) (t_node nw) ;;
           modT v (set_t_z (t_z nw + sep)) ;;;
           modT v (fun n => set_t_m (t_z n - midpoint) n)
       | None => modT v (set_t_z midpoint)
       end
   | None =>
       match w with
       | Some w' =>
           nw <- getT w' ;;
           sep <- defaultSeparation (t_node nv) (t_node nw) ;;
           modT v (set_t_z (t_z nw + sep))
       | None => ret tt
       end
   end) ;;;
  np' <- getT p ;;
  let ancestor := match t_A np' with
                  | Some a => Some a
                  | None => siblings !! 0%nat
                  end in
  a <- apportion fuel v w ancestor ;;
  modT p (set_t_A a).

(** [secondWalk(v)]: [v._.x = v.z + v.parent.m; v.m += v.parent.m]. *)
Definition secondWalk (v : tid) : M unit :=
  nv <- getT v ;;
  p <- nonnull (t_parent nv) ;;
  np <- getT p ;;
  h <- nonnull (t_node nv) ;;
  modH h (set_n_x (t_z nv + t_m np)) ;;;
  modT v (fun n => set_t_m (t_m n + t_m np) n).

(** The tree nodes made for the children of [node], in the order of their
    creation: [new TreeNode(children[i], i)] for [i = n-1] down to [0]. *)
Definition new_tchildren (base : tid) (node : tid) (children : list nid)
  : list TreeNode :=
  imap (fun k c => set_t_parent node
                     (newTreeNode (base + k)%nat (Some c)
                        (length children - 1 - k)%nat))
       (rev children).

(** The loop of [treeRoot]. *)
Fixpoint treeRoot_loop (fuel : nat) (nodes : list tid) : M unit :=
  match fuel with
  | O => out_of_fuel
  | S fuel' =>
      match nodes with
      | [] => ret tt
      | node :: rest =>
          n <- getT node ;;
          hid <- nonnull (t_node n) ;;
          hn <- getH hid ;;
          match n_children hn with
          | Some children =>
              base <- sizeT ;;
              let ids := child_ids base (length children) in
              modT node (set_t_children ids) ;;;
              allocT (new_tchildren base node children) ;;;
              treeRoot_loop fuel' (ids ++ rest)
          | None => treeRoot_loop fuel' rest
          end
      end
  end.

(** [treeRoot(root)]: mirrors the hierarchy and gives the mirror of the
    root a parent of its own, [new TreeNode(null, 0)]. *)
Definition treeRoot (fuel : nat) (r : nid) : M tid :=
  t <- sizeT ;;
  allocT [newTreeNode t (Some r) 0] ;;;
  treeRoot_loop fuel [t] ;;;
  p <- sizeT ;;
  allocT [set_t_children [t] (newTreeNode p None 0)] ;;;
  modT t (set_t_parent p) ;;;
  ret t.

(** [node.eachAfter(callback)]: the first loop stacks the nodes, the second
    pops them into the callback. *)
Fixpoint eachAfter_loop (fuel : nat) (nodes next : list tid) : M (list tid) :=
  match fuel with
  | O => out_of_fuel
  | S fuel' =>
      match nodes with
      | [] => ret next
      | node :: rest =>
          n <- getT node ;;
          eachAfter_loop fuel' (rev (default [] (t_children n)) ++ rest)
                         (node :: next)
      end
  end.

Fixpoint forEach {A} (callback : A -> M unit) (l : list A) : M unit :=
  match l with
  | [] => ret tt
  | a :: l' => callback a ;;; forEach callback l'
  end.

Definition eachAfter (fuel : nat) (callback : tid -> M unit) (t : tid) : M unit :=
  next <- eachAfter_loop fuel [t] [] ;;
  forEach callback next.

(** [node.eachBefore(callback)], for either kind of node; [acc] carries the
    variables the callback assigns. *)
Fixpoint eachBefore {S : Type} (fuel : nat) (kids : nat -> M (option (list nat)))
    (callback : S -> nat -> M S) (nodes : list nat) (acc : S) : M S :=
  match fuel with
  | O => out_of_fuel
  | S fuel' =>
      match nodes with
      | [] => ret acc
      | node :: rest =>
          acc' <- callback acc node ;;
          cs <- kids node ;;
          eachBefore fuel' kids callback (default [] cs ++ rest) acc'
      end
  end.

Definition childrenT (v : tid) : M (option (list tid)) :=
  n <- getT v ;; ret (t_children n).
Definition childrenH (v : nid) : M (option (list nid)) :=
  n <- getH v ;; ret (n_children n).

(** The extent of the layout: the left-most, right-most and depth-most
    nodes. *)
Definition extent (acc : nid * nid * nid) (node : nid) : M (nid * nid * nid) :=
  let '(left_, right_, bottom) := acc in
  n <- getH node ;;
  nl <- getH left_ ;;
  let left_' := if n_x n <? n_x nl then node else left_ in
  nr <- getH right_ ;;
  let right_' := if n_x nr <? n_x n then node else right_ in
  nb <- getH bottom ;;
  let bottom' := if (n_depth nb <? n_depth n)%nat then node else bottom in
  ret (left_', right_', bottom').

(** [tree(root)] for a layout of size [[dx, dy]]. *)
Definition tree_layout (fuel : nat) (dx dy : float) (r : nid) : M unit :=
  t <- treeRoot fuel r ;;
  eachAfter fuel (firstWalk fuel) t ;;;
  nt <- getT t ;;
  p <- nonnull (t_parent nt) ;;
  modT p (set_t_m (- t_z nt)) ;;;
  eachBefore fuel childrenT (fun _ v => secondWalk v) [t] tt ;;;
  lrb <- eachBefore fuel childrenH extent [r] (r, r, r) ;;
  let '(left_, right_, bottom) := lrb in
  nl <- getH left_ ;;
  nr <- getH right_ ;;
  nb <- getH bottom ;;
  s <- (if decide (left_ = right_) then ret 1
        else sep <- defaultSeparation (Some left_) (Some right_) ;; ret (sep / 2)) ;;
  let tx := s - n_x nl in
  let kx := dx / (n_x nr + s + tx) in
  let ky := dy / (match n_depth nb with
                  | O => 1
                  | d => float_of_nat d
                  end) in
  eachBefore fuel childrenH
    (fun _ node =>
       modH node (fun n => set_n_x ((n_x n + tx) * kx) n) ;;;
       modH node (fun n => set_n_y (float_of_nat (n_depth n) * ky) n))
    [r] tt.

(** [d3.tree().size([dx, dy])(root)]: the hierarchy with [x] and [y] set. *)
Definition tree (fuel : nat) (dx dy : float) (arena : list HNode)
  : outcome (list HNode) :=
  match tree_layout fuel dx dy root (mkLState [] arena) with
  | Ok (_, s) => Ok (hnodes s)
  | Throw e => Throw e
  | OutOfFuel => OutOfFuel
  end.


Local Close Scope float_scope.

(** ** The drawing

    The elements the component creates under [treeContainer]: one [svg]
    holding one [g], whose children are [line.link] and [g.node] elements;
    a [g.node] holds a [circle] and a [text].  An attribute set from a
    number is kept as the number, and [translate(x,y)] as the pair, rather
    than as their decimal text. *)

Record LineEl := mkLine {
  l_class : string;
  x1 : float;
  y1 : float;
  x2 : float;
  y2 : float;
  stroke : string;
  stroke_width : float;
  l_datum : Link
}.

Inductive NodeKid :=
| Circle (r : float) (fill : string)
| TextEl (dy : float) (text_anchor : string) (content : string) (font_size : string).

(** A [g.node]: its [transform] is [translate(x,y)], its datum a node of
    the hierarchy. *)
Record NodeEl := mkNodeEl {
  g_class : string;
  transform : float * float;
  g_datum : nid;
  g_kids : list NodeKid
}.

Inductive GChild :=
| ALine (l : LineEl)
| ANode (n : NodeEl).

(** The [svg] with its [g]. *)
Record SvgEl := mkSvg {
  svg_width : float;
  svg_height : float;
  g_transform : float * float;
  g_children : list GChild
}.

(** [selectAll('line.link')] and [selectAll('g.node')] under the [g]. *)
Definition select_lines (kids : list GChild) : list LineEl :=
  flat_map (fun k => match k with
                     | ALine l => if decide (l_class l = "link") then [l] else []
                     | ANode _ => []
                     end) kids.

Definition select_nodes (kids : list GChild) : list NodeEl :=
  flat_map (fun k => match k with
                     | ANode n => if decide (g_class n = "node") then [n] else []
                     | ALine _ => []
                     end) kids.

(** [selection.data(values).enter()] without a key function: the data
    are matched to the selected elements by index, and the data beyond
    them enter. *)
Definition enter {A B} (selected : list A) (values : list B) : list B :=
  drop (length selected) values.

(** The open dialogs: [dialog.open(component, { data })]. *)
Record DialogOpen := mkDialogOpen {
  component : string;
  dialog_data : ref
}.

(** What the handlers and the component can reach: the heap of [Cow]
    objects, the children of [treeContainer], the nodes of the hierarchy
    bound to the drawing, the dialogs opened so far, [localStorage] and
    the console (one entry per [console.log], the text it was given to
    parse). *)
Record World := mkWorld {
  w_heap : heap;
  container : list SvgEl;
  nodes : list HNode;
  dialogs : list DialogOpen;
  localStorage : gmap string string;
  console : list (option string)
}.

Definition set_heap (h : heap) (w : World) : World :=
  mkWorld h (container w) (nodes w) (dialogs w) (localStorage w) (console w).
Definition set_container (c : list SvgEl) (w : World) : World :=
  mkWorld (w_heap w) c (nodes w) (dialogs w) (localStorage w) (console w).
Definition set_nodes (ns : list HNode) (w : World) : World :=
  mkWorld (w_heap w) (container w) ns (dialogs w) (localStorage w) (console w).
Definition set_dialogs (ds : list DialogOpen) (w : World) : World :=
  mkWorld (w_heap w) (container w) (nodes w) ds (localStorage w) (console w).
Definition set_localStorage (s : gmap string string) (w : World) : World :=
  mkWorld (w_heap w) (container w) (nodes w) (dialogs w) s (console w).
Definition set_console (c : list (option string)) (w : World) : World :=
  mkWorld (w_heap w) (container w) (nodes w) (dialogs w) (localStorage w) c.

(** ** createTree *)

Definition width : float := 800.
Definition height : float := 600.

(** [.append('line').attr('class', 'link').attr('x1', d => d.source.x)...] *)
Definition draw_link (arena : list HNode) (d : Link) : outcome LineEl :=
  s <-! deref arena (source d) ;;
  t <-! deref arena (target d) ;;
  Ok (mkLine "link" (n_x s) (n_y s) (n_x t) (n_y t) "#999" 2 d).

(** [.append('g').attr('class', 'node').attr('transform', d => `translate(${d.x},${d.y})`)] *)
Definition draw_node (arena : list HNode) (d : nid) : outcome NodeEl :=
  n <-! deref arena d ;;
  Ok (mkNodeEl "node" (n_x n, n_y n) d []).

Definition append_kid (k : NodeKid) (g : NodeEl) : NodeEl :=
  mkNodeEl (g_class g) (transform g) (g_datum g) (g_kids g ++ [k]).

(** [node.append('circle').attr('r', 20).attr('fill', '#89CFF0')] *)
Definition append_circle (g : NodeEl) : NodeEl :=
  append_kid (Circle 20 "#89CFF0") g.

(** [node.append('text').attr('dy', 5).attr('text-anchor', 'middle')
     .text(d => d.data.name).style('font-size', '12px')] *)
Definition append_text (h : heap) (arena : list HNode) (g : NodeEl)
  : outcome NodeEl :=
  n <-! deref arena (g_datum g) ;;
  c <-! deref h (n_data n) ;;
  Ok (append_kid (TextEl 5 "middle" (name c) "12px") g).

(** What [createTree] builds after it has emptied the container and
    appended the [svg] and its [g]: the laid-out hierarchy and the
    children of the [g]. *)
Definition render (fuel : nat) (h : heap) (data : option ref)
  : outcome (list HNode * list GChild) :=
  arena0 <-! hierarchy fuel h data ;;
  arena <-! tree fuel (width - 100) (height - 100) arena0 ;;
  let kids0 : list GChild := [] in
  ls <-! links fuel arena ;;
  lines <-! omap (draw_link arena) (enter (select_lines kids0) ls) ;;
  let kids1 := kids0 ++ map ALine lines in
  ds <-! descendants fuel arena ;;
  node0 <-! omap (draw_node arena) (enter (select_nodes kids1) ds) ;;
  let node1 := map append_circle node0 in
  node2 <-! omap (append_text h arena) node1 ;;
  Ok (arena, kids1 ++ map ANode node2).

(** [createTree(data)].  The container is emptied and the [svg] appended
    before anything can throw; the nodes of an earlier pass are no longer
    bound to any element. *)
Definition createTree (fuel : nat) (data : option ref) (w : World)
  : outcome unit * World :=
  let svg := mkSvg width height (50, 50)%float [] in
  let w0 := set_nodes [] (set_container [svg] w) in
  match render fuel (w_heap w) data with
  | Ok (arena, kids) =>
      (Ok tt, set_nodes arena
                (set_container [mkSvg width height (50, 50)%float kids] w))
  | Throw e => (Throw e, w0)
  | OutOfFuel => (OutOfFuel, w0)
  end.

(** The component: its [data] field is evaluated when the instance is
    constructed, and [ngOnInit] draws it. *)
Definition construct (w : World) : World * ref :=
  let '(h, r) := alloc data (w_heap w) in (set_heap h w, r).

Definition ngOnInit (fuel : nat) (this_data : ref) (w : World)
  : outcome unit * World :=
  createTree fuel (Some this_data) w.


(** ** The drag behaviour

    [d3.drag()] is bound to every [g.node]; [this] is the element and [d]
    its datum.  [now] is what [Date.now()] returns when the handler runs. *)

Definition is_this (d : nid) (k : GChild) : bool :=
  match k with
  | ANode n => bool_decide (g_datum n = d)
  | ALine _ => false
  end.

(** [d3.select(this).raise()]: the element becomes the last child of its
    parent. *)
Definition raise (d : nid) (svg : SvgEl) : SvgEl :=
  mkSvg (svg_width svg) (svg_height svg) (g_transform svg)
        (filter (fun k => is_this d k = false) (g_children svg)
         ++ filter (fun k => is_this d k = true) (g_children svg)).

(** [d3.select(this).attr('transform', `translate(${x},${y})`)] *)
Definition set_transform (d : nid) (xy : float * float) (svg : SvgEl) : SvgEl :=
  mkSvg (svg_width svg) (svg_height svg) (g_transform svg)
        (map (fun k => match k with
                       | ANode n =>
                           if bool_decide (g_datum n = d)
                           then ANode (mkNodeEl (g_class n) xy (g_datum n) (g_kids n))
                           else k
                       | ALine _ => k
                       end) (g_children svg)).

(** [.on('start', function (event, d) { ... })] *)
Definition on_start (now : Z) (d : nid) (w : World) : World :=
  let w1 := set_container (map (raise d) (container w)) w in
  let w2 := set_nodes (alter (set_n_dragging true) d (nodes w1)) w1 in
  set_nodes (alter (set_n_dragStart now) d (nodes w2)) w2.

(** [.on('drag', function (event, d) { ... })], with [xy] the [x] and [y]
    of the event. *)
Definition on_drag (xy : float * float) (d : nid) (w : World) : World :=
  set_container (map (set_transform d xy) (container w)) w.

(** [const wasClick = Date.now() - d['dragStart'] < 200]; with
    [d['dragStart']] undefined the difference is NaN and the comparison
    false. *)
Definition wasClick (now : Z) (n : HNode) : bool :=
  match n_dragStart n with
  | Some dragStart => (now - dragStart <? 200)%Z
  | None => false
  end.

(** [.on('end', (event, d) => { ... })] *)
Definition on_end (now : Z) (d : nid) (w : World) : World :=
  match nodes w !! d with
  | Some n =>
      let w1 := set_nodes (alter (set_n_dragging false) d (nodes w)) w in
      if wasClick now n
      then set_dialogs (dialogs w1 ++ [mkDialogOpen "CowDialogComponent" (n_data n)]) w1
      else w1
  | None => w
  end.

(** A pointer position, in the coordinates of the [g]. *)
Record Point := mkPoint { px : float; py : float }.

(** d3-drag gives its events the position of the pointer shifted by the
    offset between the subject (the datum) and the pointer at the start:
    [dx = s.x - p[0] || 0], [x: p[0] + dx]. *)
Definition or_zero (f : float) : float :=
  if PrimFloat.is_nan f || PrimFloat.is_zero f then 0%float else f.

Definition drag_offset (s : HNode) (p0 : Point) : float * float :=
  (or_zero (n_x s - px p0), or_zero (n_y s - py p0))%float.

Definition event_xy (offset : float * float) (p : Point) : float * float :=
  (px p + fst offset, py p + snd offset)%float.

(** What d3-drag's filter reads of the event that starts a gesture:
    [event.button] (a [mousedown] has one, [0] for the main button; a
    [touchstart] has none) and [event.ctrlKey]. *)
Record Press := mkPress { button : option nat; ctrlKey : bool }.

(** [d3.drag()] is bound as it comes, without [.filter(...)]: its filter is
    d3-drag's default, [!event.ctrlKey && !event.button]. *)
Definition defaultFilter (e : Press) : bool :=
  negb (ctrlKey e)
  && match button e with
     | Some b => Nat.eqb b 0
     | None => true
     end.

(** The handlers of one gesture over the node [d]: the pointer goes down
    at [p0] at time [t0] and moves through [moves] ([pressed]); then it
    goes up at time [t1] ([handled]). *)
Definition pressed (d : nid) (t0 : Z) (p0 : Point) (moves : list Point)
    (s : HNode) (w : World) : World :=
  let offset := drag_offset s p0 in
  fold_left (fun w p => on_drag (event_xy offset p) d w) moves (on_start t0 d w).

Definition handled (d : nid) (t0 : Z) (p0 : Point) (moves : list Point)
    (t1 : Z) (w : World) : World :=
  match nodes w !! d with
  | Some s => on_end t1 d (pressed d t0 p0 moves s w)
  | None => w
  end.

(** One gesture over the node [d], started by the press [e]: d3-drag
    asks its filter first, and on a press that the filter refuses it
    returns at once: no gesture begins, and none of the three handlers
    is called for the moves and the release that follow. *)
Definition gesture (e : Press) (d : nid) (t0 : Z) (p0 : Point)
    (moves : list Point) (t1 : Z) (w : World) : World :=
  if defaultFilter e then handled d t0 p0 moves t1 w else w.


(** The [g.node] elements bound to [d'], in the order of the document. *)
Definition bound_to (d' : nid) (kids : list GChild) : list NodeEl :=
  filter (fun g => g_datum g = d') (select_nodes kids).

(** What is drawn: the [transform]s of the [g.node] elements bound to
    [d], the lines, the nodes; and where the layout put the nodes. *)
Definition node_transforms (d : nid) (w : World) : list (float * float) :=
  flat_map (fun svg => map transform (bound_to d (g_children svg))) (container w).

Definition drawn_lines (w : World) : list LineEl :=
  flat_map (fun svg => select_lines (g_children svg)) (container w).

Definition drawn_nodes (w : World) : list NodeEl :=
  flat_map (fun svg => select_nodes (g_children svg)) (container w).

Definition layout_of (w : World) : list (float * float) :=
  map (fun n => (n_x n, n_y n)) (nodes w).

(** ** CowDialogComponent

    The dialog receives its [data] untyped ([any]) and reads properties
    by name; a property the object does not have is [undefined]. *)

Inductive JSValue :=
| VUndefined
| VNum (x : float)
| VStr (s : string)
| VArray (l : list ref).

Definition of_option {A} (f : A -> JSValue) (o : option A) : JSValue :=
  match o with
  | Some a => f a
  | None => VUndefined
  end.

Definition gender_text (g : Gender) : string :=
  match g with
  | male => "male"
  | female => "female"
  end.

Definition get_property (c : Cow) (p : string) : JSValue :=
  if decide (p = "name") then VStr (name c)
  else if decide (p = "age") then of_option VNum (age c)
  else if decide (p = "gender") then of_option (fun g => VStr (gender_text g)) (gender c)
  else if decide (p = "notes") then of_option VStr (notes c)
  else if decide (p = "children") then of_option VArray (children c)
  else VUndefined.

(** The template: the title [{{ data.name }}], then the rows
    [Age: {{ data.age }}], [Breed: {{ data.breed }}],
    [Notes: {{ data.notes }}]. *)
Definition dialog_template (data : Cow) : list (string * JSValue) :=
  [("mat-dialog-title", get_property data "name");
   ("Age:", get_property data "age");
   ("Breed:", get_property data "breed");
   ("Notes:", get_property data "notes")].

(** What an open dialog shows. *)
Definition dialog_view (h : heap) (o : DialogOpen) : outcome (list (string * JSValue)) :=
  c <-! deref h (dialog_data o) ;; Ok (dialog_template c).

(** ** Module-level code *)

Definition dquote : string := String "034"%char EmptyString.

(** [QuoteJSONString]: the quote, the backslash and the control characters
    are escaped. *)
Definition hex_digit (n : nat) : ascii :=
  ascii_of_nat (if (n <? 10)%nat then 48 + n else 87 + n).

Definition escape_char (c : ascii) : string :=
  let n := nat_of_ascii c in
  if (n =? 8)%nat then "\b"
  else if (n =? 9)%nat then "\t"
  else if (n =? 10)%nat then "\n"
  else if (n =? 12)%nat then "\f"
  else if (n =? 13)%nat then "\r"
  else if (n =? 34)%nat then String "\"%char dquote
  else if (n =? 92)%nat then "\\"
  else if (n <? 32)%nat
       then "\u00" ++ String (hex_digit (n / 16)) (String (hex_digit (n mod 16)) EmptyString)
       else String c EmptyString.

Fixpoint escape (s : string) : string :=
  match s with
  | EmptyString => EmptyString
  | String c s' => escape_char c ++ escape s'
  end.

Definition quote (s : string) : string := dquote ++ escape s ++ dquote.

Definition member (k v : string) : string := quote k ++ ":" ++ v.

Definition join (l : list string) : string := String.concat "," l.

(** *** The text of a number

    [Number::toString] for radix 10.  A finite number other than zero is
    [m * 2^e], and the decimals that read back as it are those between
    the midpoints to its two neighbours, the midpoints included when [m]
    is even, as ties go to the even mantissa.  Of these decimals
    [s * 10^(n-k)], with [k] the number of digits of [s], the text is made
    of one with the least [k], the closest to the number if there are
    several. *)

(** [s * 10^p] and [a * 2^e] over a common denominator. *)
Definition dec_scaled (s p e : Z) : Z := (s * 10 ^ (Z.max p 0) * 2 ^ (Z.max (- e) 0))%Z.
Definition bin_scaled (a p e : Z) : Z := (a * 2 ^ (Z.max e 0) * 10 ^ (Z.max (- p) 0))%Z.

(** The least [n] from [n] on with [a * 2^e < 10^n]. *)
Fixpoint magnitude (fuel : nat) (a e n : Z) : Z :=
  match fuel with
  | O => n
  | S fuel' =>
      if (bin_scaled a n e <? dec_scaled 1 n e)%Z then n
      else magnitude fuel' a e (n + 1)%Z
  end.

(** The [s] of [k] digits for [m * 2^e], if there is one: in quarters of
    [2^e] (the unit is [2^(e-2)]) the number is [4m], the midpoint above
    it [4m + 2], and the midpoint below it [4m - 2], or [4m - 1] when
    the neighbour below has a smaller exponent. *)
Definition candidate (m e n k : Z) : option Z :=
  let E := (e - 2)%Z in
  let p := (n - k)%Z in
  let below := if (m =? 2 ^ 52)%Z && (-1074 <? e)%Z then 1%Z else 2%Z in
  let x := bin_scaled (4 * m) p E in
  let lo := bin_scaled (4 * m - below) p E in
  let hi := bin_scaled (4 * m + 2) p E in
  let one := dec_scaled 1 p E in
  let s1 := (x / one)%Z in
  let s2 := (s1 + 1)%Z in
  let reads_back (s : Z) :=
    if Z.even m
    then (lo <=? s * one)%Z && (s * one <=? hi)%Z
    else (lo <? s * one)%Z && (s * one <? hi)%Z in
  match reads_back s1, reads_back s2 with
  | true, true =>
      let d1 := (x - s1 * one)%Z in
      let d2 := (s2 * one - x)%Z in
      Some (if (d1 <? d2)%Z then s1
            else if (d2 <? d1)%Z then s2
            else if Z.even s1 then s1 else s2)
  | true, false => Some s1
  | false, true => Some s2
  | false, false => None
  end.

(** The least [k] from [k] on that has a candidate, and the candidate.
    Seventeen digits always do: the last line is not reached. *)
Fixpoint shortest (fuel : nat) (m e n k : Z) : Z * Z :=
  match fuel with
  | O => (bin_scaled (4 * m) (n - k) (e - 2) / dec_scaled 1 (n - k) (e - 2), k)%Z
  | S fuel' =>
      match candidate m e n k with
      | Some s => (s, k)
      | None => shortest fuel' m e n (k + 1)%Z
      end
  end.

Definition zeros (n : Z) : string := string_of_list_ascii (repeat "0"%char (Z.to_nat n)).

(** The text of [s * 10^(n-k)], [s] having [k] digits. *)
Definition decimal_text (s k n : Z) : string :=
  let digits : string := pretty s in
  let sign : string := if (n <? 0)%Z then "-" else "+" in
  let exponent : string := (sign ++ pretty (Z.abs (n - 1)))%string in
  if (k <=? n)%Z && (n <=? 21)%Z
  then (digits ++ zeros (n - k))%string
  else if (0 <? n)%Z && (n <=? 21)%Z
  then (substring 0 (Z.to_nat n) digits ++ "."
        ++ substring (Z.to_nat n) (Z.to_nat (k - n)) digits)%string
  else if (-6 <? n)%Z && (n <=? 0)%Z
  then ("0." ++ zeros (- n) ++ digits)%string
  else if (k =? 1)%Z
  then (digits ++ "e" ++ exponent)%string
  else (substring 0 1 digits ++ "." ++ substring 1 (Z.to_nat (k - 1)) digits
        ++ "e" ++ exponent)%string.

Definition Number_toString (x : float) : string :=
  match Prim2SF x with
  | S754_nan => "NaN"
  | S754_infinity sign => if sign then "-Infinity" else "Infinity"
  | S754_zero _ => "0"
  | S754_finite sign m e =>
      let n := magnitude 700 (Z.pos m) e (-325) in
      let '(s, k) := shortest 17 (Z.pos m) e n 1 in
      let minus : string := if sign then "-" else EmptyString in
      let text : string :=
        if (s =? 10 ^ k)%Z then decimal_text 1 1 (n + 1) else decimal_text s k n in
      (minus ++ text)%string
  end.

(** [JSON.stringify] of a number: its text when it is finite, and [null]
    when it is not. *)
Definition stringify_number (x : float) : string :=
  match Prim2SF x with
  | S754_nan | S754_infinity _ => "null"
  | _ => Number_toString x
  end.

(** [JSON.stringify] of a [Cow]: the properties that are defined, in the
    order of the literal. *)
Fixpoint stringify_cow (t : CowLit) : string :=
  match t with
  | lit n a g s cs =>
      "{" ++ join
        ([member "name" (quote n)]
         ++ match a with Some x => [member "age" (stringify_number x)] | None => [] end
         ++ match g with Some x => [member "gender" (quote (gender_text x))] | None => [] end
         ++ match s with Some x => [member "notes" (quote x)] | None => [] end
         ++ match cs with
            | Some ts => [member "children" ("[" ++ join (map stringify_cow ts) ++ "]")]
            | None => []
            end)
      ++ "}"
  end.

Definition JSON_stringify (l : list CowLit) : string :=
  "[" ++ join (map stringify_cow l) ++ "]".

(** What runs when the module is loaded:
    [let cows = [...]; localStorage.setItem('cows', JSON.stringify(cows));
     console.log(JSON.parse(localStorage.getItem('cows')))]. *)
Definition module_init (w : World) : World :=
  let w1 := set_heap (fst (alloc_list cows (w_heap w))) w in
  let w2 := set_localStorage (<["cows" := JSON_stringify cows]> (localStorage w1)) w1 in
  set_console (console w2 ++ [localStorage w2 !! "cows"]) w2.

(** The application: the module is loaded, the component constructed and
    initialised. *)
Definition bootstrap (fuel : nat) (w : World) : outcome unit * World :=
  let '(w1, this_data) := construct (module_init w) in
  ngOnInit fuel this_data w1.


(** ** The shape of the data

    [child h a b]: the object at [a] has [b] among its children.  A tree
    is cyclic when its root reaches an object that reaches itself.  In a
    closed heap every child is an object of the heap, as it always is in
    JavaScript. *)
Definition child (h : heap) (a b : ref) : Prop :=
  exists c cs, h !! a = Some c /\ children c = Some cs /\ b ∈ cs.

Definition cyclic (h : heap) (r : ref) : Prop :=
  exists c, rtc (child h) r c /\ tc (child h) c c.

Definition closed (h : heap) : Prop :=
  forall a b, child h a b -> is_Some (h !! b).

(** The spec's example: [{name:"A", children:[{name:"A", children:[A]}]}]
    where the innermost child is the root itself. *)
Definition cyclic_heap : heap :=
  [mkCow "A" None None None (Some [1]); mkCow "A" None None None (Some [0])].

(** ** Finite trees

    [Tree A] is a finite ordered tree with labels in [A]. *)
Inductive Tree (A : Type) : Type :=
| Node (label : A) (kids : list (Tree A)).

Arguments Node {A} label kids.

Definition label {A} (t : Tree A) : A :=
  match t with Node a _ => a end.

Definition kids {A} (t : Tree A) : list (Tree A) :=
  match t with Node _ ks => ks end.

Fixpoint tsize {A} (t : Tree A) : nat :=
  match t with Node _ ks => S (list_sum (map tsize ks)) end.

Fixpoint tmap {A B} (f : A -> B) (t : Tree A) : Tree B :=
  match t with Node a ks => Node (f a) (map (tmap f) ks) end.

(** The labels in preorder. *)
Fixpoint labels {A} (t : Tree A) : list A :=
  match t with Node a ks => a :: flat_map labels ks end.

(** [unfolds h R]: the objects reachable from the root of [R] unfold into
    the finite tree [R] of references; no such tree exists when the root
    reaches a cycle.  A valid tree is a reference that unfolds. *)
Inductive unfolds (h : heap) : Tree nat -> Prop :=
| unfolds_intro r c ks :
    h !! r = Some c ->
    match ks with
    | [] => children c = None \/ children c = Some []
    | _ => children c = Some (map label ks)
    end ->
    Forall (unfolds h) ks ->
    unfolds h (Node r ks).

(** The tree of references of [data] in the heap of [started]. *)
Definition data_tree : Tree nat :=
  Node 6 [Node 1 []; Node 4 [Node 2 []; Node 3 []]; Node 5 []].

(** The same heap with other names, and the same drawing with other
    labels. *)
Definition rename (f : string -> string) (c : Cow) : Cow :=
  mkCow (f (name c)) (age c) (gender c) (notes c) (children c).

Definition relabel_kid (f : string -> string) (k : NodeKid) : NodeKid :=
  match k with
  | Circle r fill => Circle r fill
  | TextEl dy anchor content size => TextEl dy anchor (f content) size
  end.

Definition relabel_child (f : string -> string) (k : GChild) : GChild :=
  match k with
  | ALine l => ALine l
  | ANode g => ANode (mkNodeEl (g_class g) (transform g) (g_datum g)
                               (map (relabel_kid f) (g_kids g)))
  end.

Definition relabel_svg (f : string -> string) (svg : SvgEl) : SvgEl :=
  mkSvg (svg_width svg) (svg_height svg) (g_transform svg)
        (map (relabel_child f) (g_children svg)).

Definition rename_world (f : string -> string) (w : World) : World :=
  set_container (map (relabel_svg f) (container w))
                (set_heap (map (rename f) (w_heap w)) w).

(** The page before the module is loaded, and the page once the
    component has drawn its tree. *)
Definition empty_world : World := mkWorld [] [] [] [] ∅ [].

Definition started : World := snd (bootstrap 100 empty_world).

(** The sample cow of [cows], as an object. *)
Definition lilly : Cow := mkCow "Lilly" (Some 11%float) (Some female) None None.

(** Bella in the drawing of [started]: node 3 of the hierarchy, laid out
    at a sixth of the width and half of the height of the layout. *)
Definition bella : nid := 3.


(** A page that holds [lilly] alone, drawn. *)
Definition lilly_world : World :=
  snd (createTree 100 (Some 0) (set_heap [lilly] empty_world)).


(** Presses: with the main button of the mouse, with a finger, with the
    secondary button, and with the main button while ctrl is held. *)
Definition main_button : Press := mkPress (Some 0) false.
Definition finger : Press := mkPress None false.
Definition secondary_button : Press := mkPress (Some 2) false.
Definition ctrl_press : Press := mkPress (Some 0) true.

(** * Properties *)

(** ** The gesture handlers *)

Section Gestures.

Implicit Types (w : World) (d : nid) (n : HNode) (svg : SvgEl).

Lemma nodes_on_start t0 d w n :
  nodes w !! d = Some n ->
  nodes (on_start t0 d w) !! d = Some (set_n_dragStart t0 (set_n_dragging true n)).
Proof.
  intros H. unfold on_start, set_nodes, set_container. cbn [nodes].
  rewrite !list_lookup_alter_eq, H. reflexivity.
Qed.

Lemma nodes_on_drag xy d w : nodes (on_drag xy d w) = nodes w.
Proof. reflexivity. Qed.

Lemma dialogs_on_start t0 d w : dialogs (on_start t0 d w) = dialogs w.
Proof. reflexivity. Qed.

Lemma heap_on_start t0 d w : w_heap (on_start t0 d w) = w_heap w.
Proof. reflexivity. Qed.

(** Moving the pointer touches neither the nodes, the dialogs nor the
    heap. *)
Lemma moves_frame (f : Point -> float * float) d moves w :
  let w' := fold_left (fun w p => on_drag (f p) d w) moves w in
  nodes w' = nodes w /\ dialogs w' = dialogs w /\ w_heap w' = w_heap w.
Proof.
  revert w. induction moves as [|p moves IH]; intros w; simpl; [easy|].
  destruct (IH (on_drag (f p) d w)) as (H1 & H2 & H3).
  rewrite H1, H2, H3. easy.
Qed.

Lemma nodes_pressed d t0 p0 moves n w :
  nodes w !! d = Some n ->
  nodes (pressed d t0 p0 moves n w) !! d
  = Some (set_n_dragStart t0 (set_n_dragging true n)).
Proof.
  intros H. unfold pressed.
  destruct (moves_frame (event_xy (drag_offset n p0)) d moves (on_start t0 d w))
    as (-> & _ & _).
  now apply nodes_on_start.
Qed.

Lemma dialogs_pressed d t0 p0 moves n w :
  dialogs (pressed d t0 p0 moves n w) = dialogs w.
Proof.
  unfold pressed.
  destruct (moves_frame (event_xy (drag_offset n p0)) d moves (on_start t0 d w))
    as (_ & -> & _).
  reflexivity.
Qed.

Lemma heap_pressed d t0 p0 moves n w :
  w_heap (pressed d t0 p0 moves n w) = w_heap w.
Proof.
  unfold pressed.
  destruct (moves_frame (event_xy (drag_offset n p0)) d moves (on_start t0 d w))
    as (_ & _ & ->).
  reflexivity.
Qed.

Lemma wasClick_after_start t0 t1 n :
  wasClick t1 (set_n_dragStart t0 (set_n_dragging true n)) = (t1 - t0 <? 200)%Z.
Proof. reflexivity. Qed.

(** The dialogs after the handlers of a gesture. *)
Lemma dialogs_handled d t0 p0 moves t1 n w :
  nodes w !! d = Some n ->
  dialogs (handled d t0 p0 moves t1 w)
  = if (t1 - t0 <? 200)%Z
    then dialogs w ++ [mkDialogOpen "CowDialogComponent" (n_data n)]
    else dialogs w.
Proof.
  intros H. unfold handled. rewrite H. unfold on_end.
  rewrite (nodes_pressed d t0 p0 moves n w H).
  rewrite wasClick_after_start.
  destruct (t1 - t0 <? 200)%Z; simpl; now rewrite dialogs_pressed.
Qed.

(** *** The drawing under the handlers *)

Lemma select_lines_app k1 k2 :
  select_lines (k1 ++ k2) = select_lines k1 ++ select_lines k2.
Proof. unfold select_lines. apply flat_map_app. Qed.

Lemma select_nodes_app k1 k2 :
  select_nodes (k1 ++ k2) = select_nodes k1 ++ select_nodes k2.
Proof. unfold select_nodes. apply flat_map_app. Qed.















Lemma heap_on_end t1 d w : w_heap (on_end t1 d w) = w_heap w.
Proof.
  unfold on_end. destruct (nodes w !! d); [|reflexivity].
  now destruct (wasClick t1 _).
Qed.

Lemma container_on_end t1 d w : container (on_end t1 d w) = container w.
Proof.
  unfold on_end. destruct (nodes w !! d); [|reflexivity].
  now destruct (wasClick t1 _).
Qed.

Lemma layout_alter (f : HNode -> HNode) d ns :
  (forall n, n_x (f n) = n_x n /\ n_y (f n) = n_y n) ->
  map (fun n => (n_x n, n_y n)) (alter f d ns) = map (fun n => (n_x n, n_y n)) ns.
Proof.
  intros Hf. revert d. induction ns as [|n ns IH]; intros [|d]; simpl; try reflexivity.
  - destruct (Hf n) as [-> ->]. reflexivity.
  - f_equal. apply IH.
Qed.


Lemma layout_on_end t1 d w : layout_of (on_end t1 d w) = layout_of w.
Proof.
  unfold layout_of, on_end. destruct (nodes w !! d); [|reflexivity].
  destruct (wasClick t1 _); simpl; now rewrite layout_alter.
Qed.


(** A press that the filter accepts runs the handlers; a press that it
    refuses (any button but the main one, or ctrl held) changes nothing. *)
Lemma defaultFilter_accepts e :
  defaultFilter e = true
  <-> ctrlKey e = false /\ (button e = None \/ button e = Some 0).
Proof.
  unfold defaultFilter. destruct e as [[[|b]|] []]; cbn; split; intros H;
    try discriminate; try (now auto);
    destruct H as [H1 [H2|H2]]; discriminate.
Qed.

Lemma gesture_accepted e d t0 p0 moves t1 w :
  defaultFilter e = true ->
  gesture e d t0 p0 moves t1 w = handled d t0 p0 moves t1 w.
Proof. intros H. unfold gesture. now rewrite H. Qed.

Lemma gesture_refused e d t0 p0 moves t1 w :
  defaultFilter e = false ->
  gesture e d t0 p0 moves t1 w = w.
Proof. intros H. unfold gesture. now rewrite H. Qed.


End Gestures.

Section GestureClaims.

Implicit Types (w : World) (d : nid) (n : HNode) (e : Press).












End GestureClaims.

(** ** Loading *)

Section Loading.

Implicit Types (w : World) (fuel : nat).

(** The [svg] and its empty [g], as [createTree] appends them. *)
Definition empty_svg : SvgEl := mkSvg width height (50, 50)%float [].

(** C5, as the code has it: with a null or absent root [createTree] fails
    with the [TypeError] that [d3.hierarchy] throws when it reads the
    children of the root; by then the container has been emptied and holds
    the [svg] with its empty [g], and no node or line is drawn. *)
Theorem C5_null_root_throws_TypeError fuel w :
  createTree fuel None w
  = (Throw TypeError, set_nodes [] (set_container [empty_svg] w))
  /\ drawn_nodes (snd (createTree fuel None w)) = []
  /\ drawn_lines (snd (createTree fuel None w)) = [].
Proof. repeat split. Qed.

(** C5 fails as stated: the error is a [TypeError], not an
    [EmptyTreeError]. *)
Lemma C5_counterexample :
  fst (createTree 100 None empty_world) = Throw TypeError
  /\ err_name TypeError <> "EmptyTreeError".
Proof. split; [reflexivity|discriminate]. Qed.

Lemma createTree_frame fuel data w :
  let w' := snd (createTree fuel data w) in
  w_heap w' = w_heap w /\ dialogs w' = dialogs w
  /\ localStorage w' = localStorage w /\ console w' = console w.
Proof.
  unfold createTree. destruct (render fuel (w_heap w) data) as [[arena kids]| |]; easy.
Qed.

(** What [createTree] draws depends on the heap alone. *)
Lemma createTree_drawing fuel data w1 w2 :
  w_heap w1 = w_heap w2 ->
  fst (createTree fuel data w1) = fst (createTree fuel data w2)
  /\ container (snd (createTree fuel data w1)) = container (snd (createTree fuel data w2))
  /\ nodes (snd (createTree fuel data w1)) = nodes (snd (createTree fuel data w2)).
Proof.
  intros H. unfold createTree. rewrite H.
  destruct (render fuel (w_heap w2) data) as [[arena kids]| |]; easy.
Qed.

(** C8: a second pass over the same tree ends as the first did and leaves
    the page exactly as the first left it, with the same coordinates for
    every node and line and one [svg] in the container; and what a pass
    draws does not depend on what was drawn before it. *)
Theorem C8_second_pass_changes_nothing fuel data w :
  createTree fuel data (snd (createTree fuel data w)) = createTree fuel data w
  /\ length (container (snd (createTree fuel data w))) = 1
  /\ forall w0, w_heap w0 = w_heap w ->
       container (snd (createTree fuel data w0)) = container (snd (createTree fuel data w))
       /\ nodes (snd (createTree fuel data w0)) = nodes (snd (createTree fuel data w)).
Proof.
  repeat split.
  - unfold createTree.
    destruct (render fuel (w_heap w) data) as [[arena kids]| |] eqn:E; simpl;
      rewrite E; reflexivity.
  - unfold createTree.
    destruct (render fuel (w_heap w) data) as [[arena kids]| |]; reflexivity.
  - now apply createTree_drawing.
  - now apply createTree_drawing.
Qed.

Lemma deref_Some {A} (arena : list A) r a :
  arena !! r = Some a -> deref arena r = Ok a.
Proof. intros H. unfold deref. now rewrite H. Qed.

Lemma hierarchy_loop_nil fuel (h : heap) arena :
  hierarchy_loop (S fuel) h [] arena = Ok arena.
Proof. reflexivity. Qed.

(** A node whose data has no children is popped and left as it is. *)
Lemma hierarchy_loop_leaf fuel (h : heap) node rest arena nd c :
  arena !! node = Some nd ->
  h !! n_data nd = Some c ->
  children c = None \/ children c = Some [] ->
  hierarchy_loop (S fuel) h (node :: rest) arena = hierarchy_loop fuel h rest arena.
Proof.
  intros Hn Hd Hc. cbn [hierarchy_loop]. unfold objectChildren.
  rewrite (deref_Some _ _ _ Hn). cbn [obind].
  rewrite (deref_Some _ _ _ Hd). cbn [obind].
  destruct Hc as [-> | ->]; reflexivity.
Qed.

Lemma hierarchy_single fuel (h : heap) r c :
  h !! r = Some c ->
  children c = None \/ children c = Some [] ->
  hierarchy (S (S fuel)) h (Some r) = Ok [newNode r].
Proof.
  intros H Hc. unfold hierarchy.
  now rewrite (hierarchy_loop_leaf (S fuel) h 0 [] [newNode r] (newNode r) c).
Qed.

(** C9, as the code has it: a tree of one node is drawn as one [g.node]
    and no line; the node is at the middle of the width of the layout and
    at its top, [translate(350,0)] in the [g], itself translated by
    (50,50), of an 800 by 600 [svg]: that [svg] is all that the container
    holds, and the [g.node] (a circle and the name of the cow) is all that
    its [g] holds. *)
Theorem C9_single_node_top_centre fuel w r c :
  w_heap w !! r = Some c ->
  children c = None \/ children c = Some [] ->
  let w' := snd (createTree (S (S fuel)) (Some r) w) in
  fst (createTree (S (S fuel)) (Some r) w) = Ok tt
  /\ container w'
     = [mkSvg 800 600 (50, 50)%float
          [ANode (mkNodeEl "node" (350, 0)%float root
                    [Circle 20 "#89CFF0"; TextEl 5 "middle" (name c) "12px"])]]
  /\ drawn_lines w' = []
  /\ drawn_nodes w'
     = [mkNodeEl "node" (350, 0)%float root
          [Circle 20 "#89CFF0"; TextEl 5 "middle" (name c) "12px"]]
  /\ layout_of w' = [(350, 0)%float].
Proof.
  intros H Hc.
  unfold createTree, render.
  rewrite (hierarchy_single fuel (w_heap w) r c H Hc). cbn [obind].
  replace (tree (S (S fuel)) (width - 100) (height - 100) [newNode r])
    with (Ok [mkHNode r 0 None None 350 0 None None]) by (vm_compute; reflexivity).
  cbn [obind].
  replace (links (S (S fuel)) [mkHNode r 0 None None 350 0 None None])
    with (@Ok (list Link) []) by (vm_compute; reflexivity).
  replace (descendants (S (S fuel)) [mkHNode r 0 None None 350 0 None None])
    with (Ok [root]) by (vm_compute; reflexivity).
  cbn. unfold deref. rewrite H. cbn. repeat split.
Qed.

(** A page that holds [lilly] alone. *)
Lemma C9_witness :
  let w' := snd (createTree 2 (Some 0) (set_heap [lilly] empty_world)) in
  fst (createTree 2 (Some 0) (set_heap [lilly] empty_world)) = Ok tt
  /\ container w'
     = [mkSvg 800 600 (50, 50)%float
          [ANode (mkNodeEl "node" (350, 0)%float root
                    [Circle 20 "#89CFF0"; TextEl 5 "middle" (name lilly) "12px"])]]
  /\ drawn_lines w' = []
  /\ drawn_nodes w'
     = [mkNodeEl "node" (350, 0)%float root
          [Circle 20 "#89CFF0"; TextEl 5 "middle" (name lilly) "12px"]]
  /\ layout_of w' = [(350, 0)%float].
Proof.
  apply (C9_single_node_top_centre 0 (set_heap [lilly] empty_world) 0 lilly).
  - reflexivity.
  - left. reflexivity.
Defined.

(** C9 fails as stated: the only node of the tree is drawn at the top of
    the layout, 250 above its centre (in the [svg]: at (400, 50), the
    centre being (400, 300)). *)
Lemma C9_counterexample :
  node_transforms root lilly_world = [(350, 0)%float]
  /\ ((width - 100) / 2, (height - 100) / 2)%float = (350, 250)%float
  /\ (0 <? 250)%float = true
  /\ g_transform <$> container lilly_world = [(50, 50)%float]
  /\ (width / 2, height / 2)%float = (400, 300)%float.
Proof. vm_compute. repeat split; reflexivity. Qed.

End Loading.

(** ** The module-level snapshot *)

Section Snapshot.

Implicit Types (w : World) (fuel : nat).

Definition q (s : string) : string := (dquote ++ s ++ dquote)%string.

(** Numbers and their text: integers, fractions, the coordinates of the
    layout, the switch to an exponent from [1e21] on and below [1e-6],
    the least and the greatest double, and what has no text in JSON. *)
Lemma Number_toString_samples :
  Number_toString 11 = "11"
  /\ Number_toString (-11) = "-11"
  /\ Number_toString 0 = "0"
  /\ Number_toString (-0) = "0"
  /\ Number_toString 1.5 = "1.5"
  /\ Number_toString 0.1 = "0.1"
  /\ Number_toString (0.1 + 0.2) = "0.30000000000000004"
  /\ Number_toString 116.66666666666667 = "116.66666666666667"
  /\ Number_toString 9007199254740993 = "9007199254740992"
  /\ Number_toString 1e20 = "100000000000000000000"
  /\ Number_toString 1e21 = "1e+21"
  /\ Number_toString 123456789e15 = "1.23456789e+23"
  /\ Number_toString 0.000001 = "0.000001"
  /\ Number_toString 0.0000001 = "1e-7"
  /\ Number_toString 5e-324 = "5e-324"
  /\ Number_toString 1.7976931348623157e308 = "1.7976931348623157e+308"
  /\ Number_toString nan = "NaN"
  /\ Number_toString infinity = "Infinity"
  /\ stringify_number nan = "null"
  /\ stringify_number neg_infinity = "null"
  /\ stringify_number 11 = "11".
Proof. vm_compute. repeat split; reflexivity. Qed.

Lemma stringify_cows :
  JSON_stringify cows
  = ("[{" ++ q "name" ++ ":" ++ q "Lilly" ++ "," ++ q "age" ++ ":11,"
          ++ q "gender" ++ ":" ++ q "female" ++ "}]")%string.
Proof. reflexivity. Qed.

Lemma construct_storage s w :
  construct (set_localStorage s w)
  = (set_localStorage s (fst (construct w)), snd (construct w)).
Proof.
  unfold construct; simpl. now destruct (alloc data (w_heap w)).
Qed.

Lemma createTree_storage fuel d s w :
  createTree fuel d (set_localStorage s w)
  = (fst (createTree fuel d w), set_localStorage s (snd (createTree fuel d w))).
Proof.
  unfold createTree; simpl.
  destruct (render fuel (w_heap w) d) as [[arena kids]| |]; reflexivity.
Qed.

(** The text of [cows]: the list of one object, Lilly, with her name, her
    age and her gender, in the order of the literal and without any space,
    45 characters in all:

      [{"name":"Lilly","age":11,"gender":"female"}]

    ([q] puts its argument between two double quotes, character 34). *)
Definition cows_text : string :=
  ("[{" ++ q "name" ++ ":" ++ q "Lilly" ++ "," ++ q "age" ++ ":11,"
        ++ q "gender" ++ ":" ++ q "female" ++ "}]")%string.

(** C10: loading the module writes the serialised sample list, the text
    [cows_text], under the key [cows], whatever the storage held, and logs
    what it reads back, before any component exists; the component draws
    the [data] literal it allocates itself, and what it draws is the same
    whatever the storage holds. *)
Theorem C10_snapshot_written_never_read fuel w :
  JSON_stringify cows = cows_text
  /\ String.length cows_text = 45
  /\ map nat_of_ascii (list_ascii_of_string cows_text)
     = [91; 123; 34; 110; 97; 109; 101; 34; 58; 34; 76; 105; 108; 108; 121; 34; 44;
        34; 97; 103; 101; 34; 58; 49; 49; 44;
        34; 103; 101; 110; 100; 101; 114; 34; 58; 34; 102; 101; 109; 97; 108; 101; 34;
        125; 93]
  /\ localStorage (module_init w) = <["cows" := cows_text]> (localStorage w)
  /\ localStorage (module_init w) !! "cows" = Some cows_text
  /\ console (module_init w) = console w ++ [Some cows_text]
  /\ container (module_init w) = container w
  /\ (forall s, snd (construct (set_localStorage s w)) = snd (construct w)
                /\ w_heap (fst (construct (set_localStorage s w))) = fst (alloc data (w_heap w)))
  /\ forall s this_data,
       let r := ngOnInit fuel this_data w in
       let r' := ngOnInit fuel this_data (set_localStorage s w) in
       fst r' = fst r
       /\ container (snd r') = container (snd r)
       /\ nodes (snd r') = nodes (snd r)
       /\ localStorage (snd r') = s.
Proof.
  split; [exact stringify_cows|].
  split; [reflexivity|].
  split; [reflexivity|].
  replace cows_text with (JSON_stringify cows) by exact stringify_cows.
  split; [reflexivity|].
  split; [unfold module_init; simpl; now rewrite lookup_insert_eq|].
  split; [unfold module_init; simpl; now rewrite lookup_insert_eq|].
  split; [reflexivity|].
  split.
  - intros s. rewrite construct_storage. simpl.
    unfold construct. now destruct (alloc data (w_heap w)).
  - intros s this_data. unfold ngOnInit. rewrite createTree_storage. simpl.
    repeat split.
Qed.

End Snapshot.

(** ** The hierarchy of a cyclic tree *)

Section Cyclic.

Variable h : heap.
Hypothesis h_closed : closed h.

Lemma map_fmap {A B} (f : A -> B) (l : list A) : map f l = f <$> l.
Proof. reflexivity. Qed.

Lemma rev_reverse {A} (l : list A) : rev l = reverse l.
Proof. unfold reverse. apply rev_alt. Qed.

Lemma child_ids_lookup base n i :
  i < n -> child_ids base n !! i = Some (base + (n - 1 - i)).
Proof.
  intros Hi. unfold child_ids. rewrite map_fmap, list_lookup_fmap.
  rewrite lookup_seq_lt by assumption. reflexivity.
Qed.

Lemma child_ids_length base n : length (child_ids base n) = n.
Proof. unfold child_ids. now rewrite length_map, length_seq. Qed.

Lemma new_children_length node depth (cs : list nat) :
  length (new_children node depth cs) = length cs.
Proof. unfold new_children. now rewrite length_map, length_rev. Qed.

(** The node made for [childs[i]] sits where [child_ids] says. *)
Lemma new_children_lookup (arena : list HNode) node depth (cs : list nat) i r :
  cs !! i = Some r ->
  (arena ++ new_children node depth cs) !! (length arena + (length cs - 1 - i))
  = Some (mkHNode r (S depth) (Some node) None nan nan None None).
Proof.
  intros Hi. pose proof (lookup_lt_Some _ _ _ Hi) as Hlt.
  rewrite lookup_app_r by lia.
  replace (length arena + (length cs - 1 - i) - length arena)
    with (length cs - 1 - i) by lia.
  unfold new_children. rewrite map_fmap, list_lookup_fmap, rev_reverse.
  rewrite reverse_lookup by lia.
  replace (length cs - S (length cs - 1 - i)) with i by lia.
  now rewrite Hi.
Qed.

(** An object that reaches a cycle has a child that reaches a cycle. *)
Lemma cyclic_child a : cyclic h a -> exists b, child h a b /\ cyclic h b.
Proof.
  intros (c & Hac & Hcc).
  apply rtc_tc in Hac. destruct Hac as [-> | Hac].
  - inversion Hcc as [x y Hxy | x y z Hxy Hyz]; subst.
    + exists c. split; [assumption|]. exists c. split; [reflexivity|assumption].
    + exists y. split; [assumption|]. exists c. split.
      * now apply tc_rtc.
      * assumption.
  - inversion Hac as [x y Hxy | x y z Hxy Hyz]; subst.
    + exists c. split; [assumption|]. exists c. split; [reflexivity|assumption].
    + exists y. split; [assumption|]. exists c. split.
      * now apply tc_rtc.
      * assumption.
Qed.

(** Every node on the stack is a node of the arena whose data is an
    object, and one of them has data that reaches a cycle. *)
Definition pending (arena : list HNode) (id : nat) : Prop :=
  exists nd, arena !! id = Some nd /\ is_Some (h !! n_data nd).

Definition pending_cyclic (arena : list HNode) (id : nat) : Prop :=
  exists nd, arena !! id = Some nd /\ cyclic h (n_data nd).

Lemma hierarchy_loop_diverges fuel nodes arena :
  Forall (pending arena) nodes ->
  Exists (pending_cyclic arena) nodes ->
  hierarchy_loop fuel h nodes arena = OutOfFuel.
Proof.
  revert nodes arena. induction fuel as [|fuel IH]; intros nodes arena Hp Hc;
    [reflexivity|].
  destruct nodes as [|node rest]; [inversion Hc|].
  apply Forall_cons in Hp as [(nd & Hnd & [c Hd]) Hrest].
  cbn [hierarchy_loop]. unfold objectChildren.
  rewrite (deref_Some _ _ _ Hnd). cbn [obind].
  rewrite (deref_Some _ _ _ Hd). cbn [obind].
  assert (Hleaf : (children c = None \/ children c = Some []) ->
                  Exists (pending_cyclic arena) rest).
  { intros Hl. apply Exists_cons in Hc as [(nd' & Hnd' & Hcy)|]; [|assumption].
    rewrite Hnd in Hnd'. injection Hnd' as <-.
    destruct (cyclic_child _ Hcy) as (b & (c' & cs' & Hc' & Hcs' & Hb) & _).
    rewrite Hd in Hc'. injection Hc' as <-.
    destruct Hl as [Hl|Hl]; rewrite Hl in Hcs'; [discriminate|].
    injection Hcs' as <-. now apply elem_of_nil in Hb. }
  destruct (children c) as [[|r0 cs0]|] eqn:Hcs.
  - apply IH; [assumption|]. apply Hleaf. now right.
  - set (cs := r0 :: cs0) in *.
    set (ids := child_ids (length arena) (length cs)).
    set (arena1 := <[node := set_n_children ids nd]> arena).
    assert (Hlen1 : length arena1 = length arena) by apply length_insert.
    assert (Hold : forall id, pending arena id ->
                     pending (arena1 ++ new_children node (n_depth nd) cs) id).
    { intros id (nd' & Hnd' & Hd'). unfold pending.
      destruct (decide (id = node)) as [->|Hne].
      - exists (set_n_children ids nd). split.
        + apply lookup_app_l_Some. unfold arena1.
          apply list_lookup_insert_eq. now apply lookup_lt_Some in Hnd.
        + rewrite Hnd in Hnd'. now injection Hnd' as <-.
      - exists nd'. split; [|assumption].
        apply lookup_app_l_Some. unfold arena1.
        now rewrite list_lookup_insert_ne by congruence. }
    assert (Hnew : forall i r, cs !! i = Some r ->
              ids !! i = Some (length arena + (length cs - 1 - i))
              /\ (arena1 ++ new_children node (n_depth nd) cs)
                   !! (length arena + (length cs - 1 - i))
                 = Some (mkHNode r (S (n_depth nd)) (Some node) None nan nan None None)).
    { intros i r Hi. split.
      - apply child_ids_lookup. now apply lookup_lt_Some in Hi.
      - rewrite <- Hlen1. now apply new_children_lookup. }
    apply IH.
    + apply Forall_app. split.
      * apply Forall_lookup. intros i id Hid.
        assert (Hi : i < length cs).
        { apply lookup_lt_Some in Hid. unfold ids in Hid.
          now rewrite child_ids_length in Hid. }
        destruct (lookup_lt_is_Some_2 cs i Hi) as [r Hr].
        destruct (Hnew i r Hr) as [Hid' Hlk].
        rewrite Hid in Hid'. injection Hid' as ->.
        eexists. split; [exact Hlk|]. simpl.
        apply (h_closed (n_data nd)). exists c, cs. repeat split; try assumption.
        now apply list_elem_of_lookup_2 in Hr.
      * eapply Forall_impl; [exact Hrest|]. exact Hold.
    + apply Exists_app.
      apply Exists_cons in Hc as [(nd' & Hnd' & Hcy)|Hc].
      * left. rewrite Hnd in Hnd'. injection Hnd' as <-.
        destruct (cyclic_child _ Hcy) as (b & (c' & cs' & Hc' & Hcs' & Hb) & Hbc).
        rewrite Hd in Hc'. injection Hc' as <-.
        rewrite Hcs in Hcs'. injection Hcs' as <-.
        apply list_elem_of_lookup in Hb as [i Hi].
        destruct (Hnew i b Hi) as [Hid Hlk].
        apply Exists_exists. exists (length arena + (length cs - 1 - i)). split.
        -- now apply list_elem_of_lookup_2 in Hid.
        -- eexists. split; [exact Hlk|exact Hbc].
      * right. eapply Exists_impl; [exact Hc|].
        intros id (nd' & Hnd' & Hcy).
        destruct (decide (id = node)) as [->|Hne].
        -- exists (set_n_children ids nd). split.
           ++ apply lookup_app_l_Some. unfold arena1.
              apply list_lookup_insert_eq. now apply lookup_lt_Some in Hnd.
           ++ rewrite Hnd in Hnd'. now injection Hnd' as <-.
        -- exists nd'. split; [|assumption].
           apply lookup_app_l_Some. unfold arena1.
           now rewrite list_lookup_insert_ne by congruence.
  - apply IH; [assumption|]. apply Hleaf. now left.
Qed.

Lemma hierarchy_cyclic_diverges fuel r :
  is_Some (h !! r) -> cyclic h r -> hierarchy fuel h (Some r) = OutOfFuel.
Proof.
  intros Hr Hc. unfold hierarchy. apply hierarchy_loop_diverges.
  - apply Forall_singleton. exists (newNode r). now split.
  - apply Exists_cons. left. exists (newNode r). now split.
Qed.

End Cyclic.

(** ** Names play no part in loading *)

Section Names.

Variable f : string -> string.

Lemma omap_ext {A B} (g1 g2 : A -> outcome B) (l : list A) :
  (forall a, g1 a = g2 a) -> omap g1 l = omap g2 l.
Proof.
  intros H. induction l as [|a l IH]; [reflexivity|].
  simpl. now rewrite H, IH.
Qed.

Lemma omap_length {A B} (g : A -> outcome B) (l : list A) l' :
  omap g l = Ok l' -> length l' = length l.
Proof.
  revert l'. induction l as [|a l IH]; intros l' H; simpl in H.
  - now injection H as <-.
  - destruct (g a); try discriminate. simpl in H.
    destruct (omap g l) as [bs| |]; try discriminate. simpl in H.
    injection H as <-. simpl. now rewrite (IH bs).
Qed.

Lemma omap_Forall {A B} (g : A -> outcome B) (P : B -> Prop) (l : list A) l' :
  (forall a b, g a = Ok b -> P b) -> omap g l = Ok l' -> Forall P l'.
Proof.
  intros HP. revert l'. induction l as [|a l IH]; intros l' H; simpl in H.
  - injection H as <-. constructor.
  - destruct (g a) eqn:E; try discriminate. simpl in H.
    destruct (omap g l); try discriminate. simpl in H.
    injection H as <-. constructor; [now apply (HP a)|now apply IH].
Qed.

Lemma objectChildren_rename (h : heap) d :
  objectChildren (map (rename f) h) d = objectChildren h d.
Proof.
  unfold objectChildren, deref. rewrite map_fmap, list_lookup_fmap.
  now destruct (h !! d).
Qed.

Lemma hierarchy_loop_rename fuel (h : heap) nodes arena :
  hierarchy_loop fuel (map (rename f) h) nodes arena = hierarchy_loop fuel h nodes arena.
Proof.
  revert nodes arena. induction fuel as [|fuel IH]; intros nodes arena; [reflexivity|].
  cbn [hierarchy_loop]. destruct nodes as [|node rest]; [reflexivity|].
  destruct (deref arena node) as [nd| |]; cbn [obind]; try reflexivity.
  rewrite objectChildren_rename.
  destruct (objectChildren h (n_data nd)) as [[[|r cs]|]| |]; cbn [obind];
    try reflexivity; apply IH.
Qed.

Lemma append_text_rename (h : heap) arena g :
  g_kids g = [Circle 20 "#89CFF0"] ->
  append_text (map (rename f) h) arena g
  = match append_text h arena g with
    | Ok g' => Ok (mkNodeEl (g_class g') (transform g') (g_datum g')
                            (map (relabel_kid f) (g_kids g')))
    | Throw e => Throw e
    | OutOfFuel => OutOfFuel
    end.
Proof.
  intros Hg. unfold append_text.
  destruct (deref arena (g_datum g)) as [n| |]; cbn [obind]; try reflexivity.
  unfold deref. rewrite map_fmap, list_lookup_fmap.
  destruct (h !! n_data n) as [c|]; simpl; [|reflexivity].
  unfold append_kid. simpl. now rewrite Hg.
Qed.

Lemma omap_append_text_rename (h : heap) arena gs :
  Forall (fun g => g_kids g = [Circle 20 "#89CFF0"]) gs ->
  omap (append_text (map (rename f) h) arena) gs
  = match omap (append_text h arena) gs with
    | Ok gs' => Ok (map (fun g' => mkNodeEl (g_class g') (transform g') (g_datum g')
                                    (map (relabel_kid f) (g_kids g'))) gs')
    | Throw e => Throw e
    | OutOfFuel => OutOfFuel
    end.
Proof.
  induction 1 as [|g gs Hg Hgs IH]; [reflexivity|].
  cbn [omap]. rewrite (append_text_rename h arena g Hg).
  destruct (append_text h arena g); cbn [obind]; try reflexivity.
  rewrite IH. now destruct (omap (append_text h arena) gs).
Qed.

Lemma render_rename fuel (h : heap) data :
  render fuel (map (rename f) h) data
  = match render fuel h data with
    | Ok (arena, kids) => Ok (arena, map (relabel_child f) kids)
    | Throw e => Throw e
    | OutOfFuel => OutOfFuel
    end.
Proof.
  unfold render, hierarchy. destruct data as [d|]; [|reflexivity].
  rewrite hierarchy_loop_rename.
  destruct (hierarchy_loop fuel h [0] [newNode d]) as [arena0| |]; cbn [obind];
    try reflexivity.
  destruct (tree fuel (width - 100) (height - 100) arena0) as [arena| |];
    cbn [obind]; try reflexivity.
  destruct (links fuel arena) as [ls| |]; cbn [obind]; try reflexivity.
  destruct (omap (draw_link arena) _) as [lines| |]; cbn [obind]; try reflexivity.
  destruct (descendants fuel arena) as [ds| |]; cbn [obind]; try reflexivity.
  destruct (omap (draw_node arena) _) as [node0| |] eqn:E; cbn [obind];
    try reflexivity.
  rewrite omap_append_text_rename.
  - destruct (omap (append_text h arena) _) as [node2| |]; cbn [obind];
      try reflexivity.
    f_equal. f_equal. simpl. rewrite map_app, !map_map. reflexivity.
  - apply Forall_map.
    eapply (omap_Forall _ (fun g => g_kids (append_circle g) = [Circle 20 "#89CFF0"]));
      [|exact E].
    intros a b Hb. unfold draw_node in Hb.
    destruct (deref arena a); try discriminate. simpl in Hb.
    now injection Hb as <-.
Qed.

Lemma createTree_rename fuel data w :
  createTree fuel data (set_heap (map (rename f) (w_heap w)) w)
  = (fst (createTree fuel data w), rename_world f (snd (createTree fuel data w))).
Proof.
  unfold createTree. cbn [w_heap set_heap]. rewrite render_rename.
  destruct (render fuel (w_heap w) data) as [[arena kids]| |]; reflexivity.
Qed.

End Names.

Section Validation.

Lemma createTree_cyclic fuel w r :
  closed (w_heap w) -> is_Some (w_heap w !! r) -> cyclic (w_heap w) r ->
  createTree fuel (Some r) w
  = (OutOfFuel, set_nodes [] (set_container [empty_svg] w)).
Proof.
  intros Hcl Hr Hcy. unfold createTree, render.
  now rewrite (hierarchy_cyclic_diverges (w_heap w) Hcl fuel r Hr Hcy).
Qed.

(** C4, as the code has it: loading validates nothing.  On a cyclic tree
    the construction of the hierarchy never ends: whatever the fuel, the
    loop is still running, and the page holds the empty [svg] and nothing
    else.  Names play no part in loading: the tree with other names, empty
    ones among them, loads as the tree itself does and is drawn with the
    other labels. *)
Theorem C4_no_validation fuel w r f data :
  (closed (w_heap w) -> is_Some (w_heap w !! r) -> cyclic (w_heap w) r ->
   createTree fuel (Some r) w
   = (OutOfFuel, set_nodes [] (set_container [empty_svg] w)))
  /\ createTree fuel data (set_heap (map (rename f) (w_heap w)) w)
     = (fst (createTree fuel data w), rename_world f (snd (createTree fuel data w))).
Proof.
  split; [apply createTree_cyclic|apply createTree_rename].
Qed.

Lemma cyclic_heap_closed : closed cyclic_heap.
Proof.
  intros a b (c & cs & Hc & Hcs & Hb).
  destruct a as [|[|a]]; simpl in Hc; try discriminate;
    injection Hc as <-; simpl in Hcs; injection Hcs as <-;
    apply list_elem_of_singleton in Hb as ->; now eexists.
Qed.

Lemma cyclic_heap_cyclic : cyclic cyclic_heap 0.
Proof.
  exists 0. split; [reflexivity|].
  apply (tc_l _ 0 1 0).
  - exists (mkCow "A" None None None (Some [1])), [1].
    repeat split. apply list_elem_of_singleton. reflexivity.
  - apply tc_once.
    exists (mkCow "A" None None None (Some [0])), [0].
    repeat split. apply list_elem_of_singleton. reflexivity.
Qed.

(** The tree of the spec, whose deepest node is its root. *)
Lemma C4_witness :
  createTree 1000 (Some 0) (set_heap cyclic_heap empty_world)
  = (OutOfFuel, set_nodes [] (set_container [empty_svg] (set_heap cyclic_heap empty_world))).
Proof.
  apply (C4_no_validation 1000 (set_heap cyclic_heap empty_world) 0 id None).
  - exact cyclic_heap_closed.
  - now eexists.
  - exact cyclic_heap_cyclic.
Defined.

(** C4 fails as stated: on the cyclic tree of the spec no amount of fuel
    brings [createTree] to an error, and [data] with Bella's name erased is
    loaded and drawn, six nodes and five lines. *)
Lemma C4_counterexample :
  (~ exists fuel e,
       fst (createTree fuel (Some 0) (set_heap cyclic_heap empty_world)) = Throw e)
  /\ (let w := fst (construct empty_world) in
      let unnamed := fun n => if decide (n = "Bella") then EmptyString else n in
      let r := createTree 100 (Some (snd (construct empty_world)))
                 (set_heap (map (rename unnamed) (w_heap w)) w) in
      fst r = Ok tt
      /\ map name (w_heap (snd r))
         = [EmptyString; "MooMoo"; "Bessie"; "Daisy"; "Buttercup"; "Lilly"]
      /\ length (drawn_nodes (snd r)) = 6
      /\ length (drawn_lines (snd r)) = 5).
Proof.
  split.
  - intros (fuel & e & H).
    rewrite createTree_cyclic in H.
    + discriminate.
    + exact cyclic_heap_closed.
    + now eexists.
    + exact cyclic_heap_cyclic.
  - vm_compute. repeat split; reflexivity.
Qed.

End Validation.

(** ** The hierarchy of a valid tree *)

Section Trees.

Lemma Tree_ind' {A} (P : Tree A -> Prop) :
  (forall a ks, Forall P ks -> P (Node a ks)) -> forall t, P t.
Proof.
  intros H. fix IH 1. intros [a ks]. apply H.
  induction ks as [|k ks IHks]; constructor; [apply IH|exact IHks].
Qed.

Lemma tsize_pos {A} (t : Tree A) : 1 <= tsize t.
Proof. destruct t; simpl; lia. Qed.

Lemma tsize_tmap {A B} (f : A -> B) (t : Tree A) : tsize (tmap f t) = tsize t.
Proof.
  induction t as [a ks IH] using Tree_ind'. simpl. f_equal.
  rewrite map_map. f_equal. apply map_ext_Forall. exact IH.
Qed.

(** The identifiers of a tree whose labels pair a node with its data. *)
Definition id_of (t : Tree (nat * nat)) : nat := fst (label t).
Definition ids (t : Tree (nat * nat)) : list nat := map fst (labels t).

(** [htree arena parent depth T]: the nodes of [T] are nodes of the arena,
    linked as in [T]. *)
Inductive htree (arena : list HNode) : option nat -> nat -> Tree (nat * nat) -> Prop :=
| htree_intro parent depth id r ks nd :
    arena !! id = Some nd ->
    n_data nd = r ->
    n_parent nd = parent ->
    n_depth nd = depth ->
    n_children nd = match ks with [] => None | _ => Some (map id_of ks) end ->
    Forall (htree arena (Some id) (S depth)) ks ->
    htree arena parent depth (Node (id, r) ks).

(** A relation threaded through a list. *)
Inductive threaded {X} (P : nat -> X -> nat -> Prop) : nat -> list X -> nat -> Prop :=
| threaded_nil L : threaded P L [] L
| threaded_cons L L' L'' x xs :
    P L x L' -> threaded P L' xs L'' -> threaded P L (x :: xs) L''.

(** [numbered L T L']: the identifiers of [T] below its root are those
    that the loops of [hierarchy] and [treeRoot] hand out when they expand
    the root of [T] with [L] nodes allocated, [L'] being allocated in the
    end. *)
Inductive numbered : nat -> Tree (nat * nat) -> nat -> Prop :=
| numbered_leaf L l : numbered L (Node l []) L
| numbered_node L L' l ks :
    ks <> [] ->
    map id_of ks = child_ids L (length ks) ->
    threaded numbered (L + length ks) ks L' ->
    numbered L (Node l ks) L'.

Lemma ids_cons l (ks : list (Tree (nat * nat))) :
  ids (Node l ks) = fst l :: flat_map ids ks.
Proof.
  unfold ids. simpl. f_equal.
  induction ks as [|k ks IH]; [reflexivity|].
  simpl. now rewrite map_app, IH.
Qed.

Lemma htree_frame arena arena' parent depth T :
  (forall j, j ∈ ids T -> arena' !! j = arena !! j) ->
  htree arena parent depth T -> htree arena' parent depth T.
Proof.
  revert parent depth. induction T as [[id r] ks IH] using Tree_ind'.
  intros parent depth Hfr HT. inversion HT as [? ? ? ? ? nd Hnd Hr Hp Hd Hc Hks]; subst.
  econstructor; try reflexivity.
  - rewrite Hfr; [exact Hnd|]. rewrite ids_cons. apply list_elem_of_here.
  - assumption.
  - rewrite Forall_forall in IH, Hks. apply Forall_forall. intros k Hk.
    apply IH; [assumption| |now apply Hks].
    intros j Hj. apply Hfr. rewrite ids_cons. apply list_elem_of_further.
    apply list_elem_of_In, in_flat_map. exists k. split.
    + now apply list_elem_of_In.
    + now apply list_elem_of_In.
Qed.

Lemma NoDup_child_ids L n : NoDup (child_ids L n).
Proof.
  apply NoDup_alt. intros i j x Hi Hj.
  assert (Hi' : i < n).
  { apply lookup_lt_Some in Hi. now rewrite child_ids_length in Hi. }
  assert (Hj' : j < n).
  { apply lookup_lt_Some in Hj. now rewrite child_ids_length in Hj. }
  rewrite child_ids_lookup in Hi, Hj by assumption.
  injection Hi as <-. injection Hj as Hj. lia.
Qed.

Lemma child_ids_range L n id : id ∈ child_ids L n -> L <= id < L + n.
Proof.
  intros Hin. apply list_elem_of_lookup in Hin as [i Hi].
  assert (Hi' : i < n).
  { apply lookup_lt_Some in Hi. now rewrite child_ids_length in Hi. }
  rewrite child_ids_lookup in Hi by assumption. injection Hi as <-. lia.
Qed.

End Trees.

Section HierarchyTotal.

Variable h : heap.

(** A node with children is popped, linked to its new children, and the
    children are stacked. *)
Lemma hierarchy_loop_node fuel node rest arena nd c cs :
  arena !! node = Some nd ->
  h !! n_data nd = Some c ->
  children c = Some cs ->
  cs <> [] ->
  hierarchy_loop (S fuel) h (node :: rest) arena
  = hierarchy_loop fuel h (child_ids (length arena) (length cs) ++ rest)
      (<[node := set_n_children (child_ids (length arena) (length cs)) nd]> arena
       ++ new_children node (n_depth nd) cs).
Proof.
  intros Hn Hd Hc Hne. cbn [hierarchy_loop]. unfold objectChildren.
  rewrite (deref_Some _ _ _ Hn). cbn [obind].
  rewrite (deref_Some _ _ _ Hd). cbn [obind].
  rewrite Hc. destruct cs; [contradiction|reflexivity].
Qed.

(** What expanding the pending node [id] into [T] does to the arena. *)
Record expands (arena arena' : list HNode) (id : nat) (T : Tree (nat * nat)) : Prop := {
  ex_id : id_of T = id;
  ex_length : length arena' = length arena + (tsize T - 1);
  ex_frame : forall j, j < length arena -> j <> id -> arena' !! j = arena !! j;
  ex_ids : Forall (fun j => j = id \/ length arena <= j < length arena') (ids T);
  ex_numbered : numbered (length arena) T (length arena')
}.

(** A node on the stack that has not been popped yet. *)
Definition unexpanded (arena : list HNode) (parent : option nat) (depth id r : nat) : Prop :=
  exists nd, arena !! id = Some nd /\ n_data nd = r /\ n_parent nd = parent
             /\ n_depth nd = depth /\ n_children nd = None.

Definition expand_spec (R : Tree nat) : Prop :=
  forall fuel id rest arena parent depth,
    unexpanded arena parent depth id (label R) ->
    exists arena' T,
      hierarchy_loop (tsize R + fuel) h (id :: rest) arena
      = hierarchy_loop fuel h rest arena'
      /\ tmap snd T = R
      /\ htree arena' parent depth T
      /\ expands arena arena' id T.

Lemma expand_list (ks : list (Tree nat)) :
  Forall expand_spec ks ->
  forall fuel idl rest arena parent depth,
    length idl = length ks ->
    NoDup idl ->
    (forall j id k, idl !! j = Some id -> ks !! j = Some k ->
                    unexpanded arena parent depth id (label k)) ->
    exists arena' Ts,
      hierarchy_loop (list_sum (map tsize ks) + fuel) h (idl ++ rest) arena
      = hierarchy_loop fuel h rest arena'
      /\ map (tmap snd) Ts = ks
      /\ map id_of Ts = idl
      /\ Forall (htree arena' parent depth) Ts
      /\ length arena' = length arena + (list_sum (map tsize ks) - length ks)
      /\ (forall j, j < length arena -> j ∉ idl -> arena' !! j = arena !! j)
      /\ Forall (fun j => j ∈ idl \/ length arena <= j < length arena') (flat_map ids Ts)
      /\ threaded numbered (length arena) Ts (length arena').
Proof.
  induction 1 as [|k ks Hk Hks IH]; intros fuel idl rest arena parent depth Hlen Hnd Hun.
  - destruct idl; [|discriminate]. exists arena, []. simpl.
    repeat split; try constructor. lia.
  - destruct idl as [|id0 idl]; [discriminate|].
    injection Hlen as Hlen. apply NoDup_cons in Hnd as [Hid0 Hnd].
    destruct (Hk (list_sum (map tsize ks) + fuel) id0 (idl ++ rest) arena parent depth)
      as (arena1 & T0 & Hrun1 & HR0 & HT0 & [E1 E2 E3 E4 E5]).
    { apply (Hun 0 id0 k); reflexivity. }
    assert (Hpend : forall id, id ∈ idl -> id < length arena /\ id <> id0).
    { intros id Hin. apply list_elem_of_lookup in Hin as [j Hj].
      destruct (lookup_lt_is_Some_2 ks j) as [k' Hk'].
      { rewrite <- Hlen. now apply lookup_lt_Some in Hj. }
      destruct (Hun (S j) id k' Hj Hk') as (nd & Hnd' & _).
      split; [now apply lookup_lt_Some in Hnd'|].
      intros ->. apply Hid0. now apply list_elem_of_lookup_2 in Hj. }
    destruct (IH fuel idl rest arena1 parent depth Hlen Hnd)
      as (arena' & Ts & Hrun & HR & Hids & HTs & Hl & Hfr & Hrange & Hnum).
    { intros j id k' Hj Hk'.
      destruct (Hun (S j) id k' Hj Hk') as (nd & Hnd' & Hrest).
      exists nd. split; [|exact Hrest].
      destruct (Hpend id) as [Hlt Hne]; [now apply list_elem_of_lookup_2 in Hj|].
      now rewrite E3. }
    pose proof (tsize_pos k) as Hkpos.
    exists arena', (T0 :: Ts). repeat split.
    + simpl. rewrite <- Nat.add_assoc, Hrun1. exact Hrun.
    + simpl. now rewrite HR0, HR.
    + simpl. now rewrite E1, Hids.
    + constructor; [|exact HTs].
      apply (htree_frame arena1); [|exact HT0].
      intros j Hj. rewrite Forall_forall in E4. specialize (E4 j Hj).
      apply Hfr.
      * destruct E4 as [->|E4]; [|lia].
        destruct (Hun 0 id0 k eq_refl eq_refl) as (nd & Hnd' & _).
        apply lookup_lt_Some in Hnd'. lia.
      * intros Hin. destruct (Hpend j Hin) as [Hlt Hne].
        destruct E4 as [->|E4]; [congruence|lia].
    + rewrite Hl, E2. simpl.
      assert (length ks <= list_sum (map tsize ks)).
      { clear. induction ks as [|k ks IH]; simpl; [lia|]. pose proof (tsize_pos k). lia. }
      assert (tsize T0 = tsize k) by (rewrite <- HR0; symmetry; apply tsize_tmap).
      lia.
    + intros j Hj Hnin.
      rewrite Hfr.
      * apply E3; [assumption|]. intros ->. apply Hnin. apply list_elem_of_here.
      * lia.
      * intros Hin. apply Hnin. now apply list_elem_of_further.
    + simpl. apply Forall_app. split.
      * eapply Forall_impl; [exact E4|]. simpl. intros j [->|Hj].
        -- left. apply list_elem_of_here.
        -- right. rewrite Hl. lia.
      * eapply Forall_impl; [exact Hrange|]. simpl. intros j [Hj|Hj].
        -- left. now apply list_elem_of_further.
        -- right. lia.
    + econstructor; [exact E5|exact Hnum].
Qed.

Lemma list_sum_tsize_ge {A} (ks : list (Tree A)) :
  length ks <= list_sum (map tsize ks).
Proof.
  induction ks as [|k ks IH]; simpl; [lia|]. pose proof (tsize_pos k). lia.
Qed.

(** The loop of [hierarchy] expands a pending node whose data unfolds. *)
Lemma expand_ok R : unfolds h R -> expand_spec R.
Proof.
  induction R as [r ks IH] using Tree_ind'. intros HR. inversion HR as [? c ? Hc Hcs Hks]; subst.
  assert (IH' : Forall expand_spec ks).
  { rewrite Forall_forall in IH, Hks. apply Forall_forall. intros k Hk.
    apply IH; [assumption|now apply Hks]. }
  clear IH. intros fuel id rest arena parent depth (nd & Hnd & Hr & Hp & Hd & Hch).
  simpl in Hr. destruct ks as [|k0 ks0].
  - exists arena, (Node (id, r) []). simpl. repeat split.
    + apply (hierarchy_loop_leaf fuel h id rest arena nd c); [assumption| |assumption].
      now rewrite Hr.
    + econstructor; try eassumption. constructor.
    + simpl. lia.
    + rewrite ids_cons. simpl. constructor; [now left|constructor].
    + constructor.
  - set (ks := k0 :: ks0) in *.
    set (cs := map label ks) in *.
    assert (Hlen : length cs = length ks) by apply length_map.
    set (idl := child_ids (length arena) (length cs)).
    set (arena2 := <[id := set_n_children idl nd]> arena ++ new_children id (n_depth nd) cs).
    assert (Hlen1 : length (<[id := set_n_children idl nd]> arena) = length arena)
      by apply length_insert.
    assert (Hlen2 : length arena2 = length arena + length ks).
    { unfold arena2. rewrite length_app, Hlen1, new_children_length. lia. }
    assert (Hid : id < length arena) by now apply lookup_lt_Some in Hnd.
    destruct (expand_list ks IH' fuel idl rest arena2 (Some id) (S depth))
      as (arena' & Ts & Hrun & HRs & Hids & HTs & Hl & Hfr & Hrange & Hnum).
    { unfold idl. now rewrite child_ids_length. }
    { apply NoDup_child_ids. }
    { intros j idj k Hj Hk.
      assert (Hj' : j < length cs).
      { apply lookup_lt_Some in Hk. lia. }
      unfold idl in Hj. rewrite child_ids_lookup in Hj by assumption.
      injection Hj as <-.
      assert (Hcj : cs !! j = Some (label k)).
      { unfold cs. rewrite map_fmap, list_lookup_fmap, Hk. reflexivity. }
      pose proof (new_children_lookup (<[id := set_n_children idl nd]> arena)
                    id (n_depth nd) cs j (label k) Hcj) as Hlk.
      rewrite Hlen1 in Hlk.
      eexists. split; [exact Hlk|].
      simpl. rewrite Hd. now repeat split. }
    assert (Hnotin : id ∉ idl).
    { intros Hin. apply child_ids_range in Hin. lia. }
    assert (Hid' : arena' !! id = Some (set_n_children idl nd)).
    { rewrite Hfr; [|lia|assumption].
      unfold arena2. apply lookup_app_l_Some. now apply list_lookup_insert_eq. }
    assert (HTne : Ts <> []).
    { intros ->. discriminate. }
    exists arena', (Node (id, r) Ts). repeat split.
    + replace (tsize (Node r ks) + fuel) with (S (list_sum (map tsize ks) + fuel))
        by (simpl; lia).
      rewrite (hierarchy_loop_node _ id rest arena nd c cs Hnd);
        [exact Hrun|now rewrite Hr|assumption|discriminate].
    + simpl. now rewrite HRs.
    + econstructor; [exact Hid'|simpl; exact Hr|exact Hp|exact Hd| |exact HTs].
      simpl. rewrite Hids. now destruct Ts.
    + simpl. rewrite Hl, Hlen2.
      assert (Hsz : map tsize Ts = map tsize ks).
      { rewrite <- HRs, map_map. apply map_ext. intros T. symmetry. apply tsize_tmap. }
      rewrite Hsz. pose proof (list_sum_tsize_ge ks). simpl in *. lia.
    + intros j Hj Hne. rewrite Hfr.
      * unfold arena2. rewrite lookup_app_l by lia.
        now rewrite list_lookup_insert_ne by congruence.
      * lia.
      * intros Hin. apply child_ids_range in Hin. lia.
    + rewrite ids_cons. simpl. constructor; [now left|].
      eapply Forall_impl; [exact Hrange|]. simpl. intros j [Hj|Hj].
      * right. apply child_ids_range in Hj. rewrite Hl, Hlen2.
        pose proof (list_sum_tsize_ge ks). lia.
      * right. lia.
    + constructor; [assumption| |].
      * rewrite Hids. unfold idl. f_equal.
        rewrite Hlen, <- HRs. now rewrite length_map.
      * replace (length Ts) with (length ks) by (rewrite <- HRs; apply length_map).
        now rewrite <- Hlen2.
Qed.

(** [d3.hierarchy] returns on every tree that unfolds: its arena is the
    tree, numbered from the root. *)
Lemma hierarchy_total R fuel :
  unfolds h R ->
  tsize R < fuel ->
  exists arena T,
    hierarchy fuel h (Some (label R)) = Ok arena
    /\ tmap snd T = R
    /\ id_of T = root
    /\ htree arena None 0 T
    /\ length arena = tsize R
    /\ Forall (fun j => j < tsize R) (ids T)
    /\ numbered 1 T (tsize R).
Proof.
  intros HR Hfuel.
  destruct (expand_ok R HR (fuel - tsize R) 0 [] [newNode (label R)] None 0)
    as (arena & T & Hrun & HT & Hh & [E1 E2 E3 E4 E5]).
  { exists (newNode (label R)). now repeat split. }
  pose proof (tsize_pos R) as Hpos.
  assert (Hsz : tsize T = tsize R) by (rewrite <- HT; symmetry; apply tsize_tmap).
  simpl in E2. rewrite Hsz in E2.
  exists arena, T. repeat split; try assumption.
  - unfold hierarchy.
    replace fuel with (tsize R + (fuel - tsize R)) by lia.
    rewrite Hrun.
    destruct (fuel - tsize R) as [|f] eqn:Ef; [lia|reflexivity].
  - lia.
  - eapply Forall_impl; [exact E4|]. simpl. intros j [->|Hj]; lia.
  - simpl in E5. replace (tsize R) with (length arena) by lia. exact E5.
Qed.

End HierarchyTotal.

(** ** Walking the hierarchy *)

Section Walks.

Variable arena : list HNode.

Definition hsub (T : Tree (nat * nat)) : Prop :=
  exists parent depth, htree arena parent depth T.

Lemma htree_root parent depth T :
  htree arena parent depth T ->
  exists nd, arena !! id_of T = Some nd
             /\ n_parent nd = parent
             /\ n_depth nd = depth
             /\ n_data nd = snd (label T)
             /\ n_children nd = match kids T with
                                | [] => None
                                | _ => Some (map id_of (kids T))
                                end
             /\ Forall (htree arena (Some (id_of T)) (S depth)) (kids T).
Proof.
  intros HT. inversion HT; subst. exists nd. unfold id_of. simpl.
  repeat split; assumption.
Qed.

Lemma node_children_htree T :
  hsub T -> node_children arena (id_of T) = Ok (map id_of (kids T)).
Proof.
  intros (parent & depth & HT).
  destruct (htree_root _ _ _ HT) as (nd & Hnd & _ & _ & _ & Hc & _).
  unfold node_children. rewrite (deref_Some _ _ _ Hnd). cbn [obind].
  rewrite Hc. now destruct (kids T).
Qed.

Lemma hsub_kids T : hsub T -> Forall hsub (kids T).
Proof.
  intros (parent & depth & HT).
  destruct (htree_root _ _ _ HT) as (nd & _ & _ & _ & _ & _ & Hks).
  eapply Forall_impl; [exact Hks|]. intros k Hk. do 2 eexists. exact Hk.
Qed.

Lemma omap_node_children Ts :
  Forall hsub Ts ->
  omap (node_children arena) (map id_of Ts) = Ok (map (fun T => map id_of (kids T)) Ts).
Proof.
  induction 1 as [|T Ts HT HTs IH]; [reflexivity|].
  simpl. rewrite (node_children_htree T HT). cbn [obind]. now rewrite IH.
Qed.

Lemma concat_kids (Ts : list (Tree (nat * nat))) :
  concat (map (fun T => map id_of (kids T)) Ts) = map id_of (flat_map kids Ts).
Proof.
  induction Ts as [|T Ts IH]; [reflexivity|].
  simpl. now rewrite map_app, IH.
Qed.

Lemma ids_kids (T : Tree (nat * nat)) : ids T = id_of T :: flat_map ids (kids T).
Proof. destruct T as [l ks]. apply ids_cons. Qed.

Lemma tsize_kids {A} (T : Tree A) : tsize T = S (list_sum (map tsize (kids T))).
Proof. now destruct T. Qed.

(** The nodes of a forest are its roots and the nodes of the forest of
    their children. *)
Lemma ids_levels (Ts : list (Tree (nat * nat))) :
  flat_map ids Ts ≡ₚ map id_of Ts ++ flat_map ids (flat_map kids Ts).
Proof.
  induction Ts as [|T Ts IH]; [reflexivity|].
  simpl. rewrite ids_kids, flat_map_app. simpl. constructor.
  rewrite IH. rewrite !app_assoc. apply Permutation_app_tail.
  apply Permutation_app_comm.
Qed.

Lemma size_levels {A} (Ts : list (Tree A)) :
  list_sum (map tsize Ts) = length Ts + list_sum (map tsize (flat_map kids Ts)).
Proof.
  induction Ts as [|T Ts IH]; [reflexivity|].
  simpl. rewrite map_app, list_sum_app, IH, tsize_kids. lia.
Qed.

(** The iterator visits every node of a forest once. *)
Lemma iterate_forest fuel Ts :
  list_sum (map tsize Ts) < fuel ->
  Forall hsub Ts ->
  exists l, iterate fuel arena (map id_of Ts) = Ok l /\ l ≡ₚ flat_map ids Ts.
Proof.
  revert Ts. induction fuel as [|fuel IH]; intros Ts Hfuel HTs; [lia|].
  destruct Ts as [|T Ts]; [now exists []|].
  set (Ts0 := T :: Ts) in *.
  destruct (IH (flat_map kids Ts0)) as (l & Hl & Hperm).
  { pose proof (size_levels Ts0). simpl in *. lia. }
  { apply Forall_flat_map.
    eapply Forall_impl; [exact HTs|]. apply hsub_kids. }
  exists (map id_of Ts0 ++ l). split.
  - cbn [iterate]. unfold Ts0 at 1. cbn [map].
    change (id_of T :: map id_of Ts) with (map id_of Ts0).
    rewrite (omap_node_children Ts0 HTs). cbn [obind].
    rewrite concat_kids, Hl. reflexivity.
  - rewrite ids_levels. now apply Permutation_app_head.
Qed.

End Walks.

(** ** Running the layout: a weakest-precondition calculus

    [wp m Q s]: from the state [s] the computation [m] returns, with a
    result and a state that satisfy [Q]. *)

Ltac splits := repeat match goal with |- _ /\ _ => split end.

Section WP.

Definition wp {A} (m : M A) (Q : A -> LState -> Prop) (s : LState) : Prop :=
  exists a s', m s = Ok (a, s') /\ Q a s'.

Lemma wp_ret {A} (a : A) Q s : Q a s -> wp (ret a) Q s.
Proof. intros H. now exists a, s. Qed.

Lemma wp_bind {A B} (m : M A) (k : A -> M B) Q s :
  wp m (fun a s' => wp (k a) Q s') s -> wp (bind m k) Q s.
Proof.
  intros (a & s' & Hm & b & s'' & Hk & HQ).
  exists b, s''. split; [|exact HQ]. unfold bind. now rewrite Hm.
Qed.

Lemma wp_mono {A} (m : M A) (Q Q' : A -> LState -> Prop) s :
  wp m Q s -> (forall a s', Q a s' -> Q' a s') -> wp m Q' s.
Proof. intros (a & s' & Hm & HQ) H. exists a, s'. auto. Qed.

Lemma wp_nonnull {A} (o : option A) a Q s :
  o = Some a -> Q a s -> wp (nonnull o) Q s.
Proof. intros -> H. now exists a, s. Qed.

Lemma wp_getT v Q s :
  (exists n, tnodes s !! v = Some n /\ Q n s) -> wp (getT v) Q s.
Proof.
  intros (n & Hn & HQ). exists n, s. split; [|exact HQ].
  unfold getT. now rewrite (deref_Some _ _ _ Hn).
Qed.

Lemma wp_getH v Q s :
  (exists n, hnodes s !! v = Some n /\ Q n s) -> wp (getH v) Q s.
Proof.
  intros (n & Hn & HQ). exists n, s. split; [|exact HQ].
  unfold getH. now rewrite (deref_Some _ _ _ Hn).
Qed.

Lemma wp_modT v f Q s :
  (exists n, tnodes s !! v = Some n
             /\ Q tt (mkLState (<[v := f n]> (tnodes s)) (hnodes s))) ->
  wp (modT v f) Q s.
Proof.
  intros (n & Hn & HQ). unfold modT. apply wp_bind, wp_getT.
  exists n. split; [exact Hn|]. now eexists _, _.
Qed.

Lemma wp_modH v f Q s :
  (exists n, hnodes s !! v = Some n
             /\ Q tt (mkLState (tnodes s) (<[v := f n]> (hnodes s)))) ->
  wp (modH v f) Q s.
Proof.
  intros (n & Hn & HQ). unfold modH. apply wp_bind, wp_getH.
  exists n. split; [exact Hn|]. now eexists _, _.
Qed.

Lemma wp_bind_assoc {A B C} (m : M A) (k1 : A -> M B) (k2 : B -> M C) Q s :
  wp (bind (bind m k1) k2) Q s -> wp (bind m (fun a => bind (k1 a) k2)) Q s.
Proof.
  intros (c & s' & H & HQ). exists c, s'. split; [|exact HQ].
  rewrite <- H. unfold bind. now destruct (m s) as [[a s1]| |].
Qed.

Lemma wp_sizeT Q s : Q (length (tnodes s)) s -> wp sizeT Q s.
Proof. intros H. now eexists _, _. Qed.

Lemma wp_allocT ns Q s :
  Q tt (mkLState (tnodes s ++ ns) (hnodes s)) -> wp (allocT ns) Q s.
Proof. intros H. now eexists _, _. Qed.

End WP.

(** ** The pointers of the tree nodes

    Whether the layout returns depends on the pointers of the tree nodes
    alone, never on the numbers they carry. *)

Section Pointers.

Record Ptrs := mkPtrs {
  q_node : option nat;
  q_parent : option nat;
  q_children : option (list nat);
  q_A : option nat;
  q_a : nat;
  q_t : option nat;
  q_i : nat
}.

Definition ptrs (n : TreeNode) : Ptrs :=
  mkPtrs (t_node n) (t_parent n) (t_children n) (t_A n) (t_a n) (t_t n) (t_i n).

Definition pstate (s : LState) : list Ptrs := map ptrs (tnodes s).

(** The state [s'] has the pointers and the hierarchy of [s]. *)
Definition sp (s s' : LState) : Prop :=
  hnodes s' = hnodes s /\ pstate s' = pstate s.

Lemma sp_refl s : sp s s.
Proof. now split. Qed.

Lemma sp_trans s1 s2 s3 : sp s1 s2 -> sp s2 s3 -> sp s1 s3.
Proof. intros [H1 H2] [H3 H4]. split; congruence. Qed.

Lemma pstate_lookup s v n : tnodes s !! v = Some n -> pstate s !! v = Some (ptrs n).
Proof. intros H. unfold pstate. now rewrite map_fmap, list_lookup_fmap, H. Qed.

Lemma pstate_lookup_inv s v q :
  pstate s !! v = Some q -> exists n, tnodes s !! v = Some n /\ ptrs n = q.
Proof.
  unfold pstate. rewrite map_fmap, list_lookup_fmap.
  destruct (tnodes s !! v) as [n|]; [|discriminate].
  intros [= <-]. now exists n.
Qed.

Lemma pstate_insert s v n' :
  pstate (mkLState (<[v := n']> (tnodes s)) (hnodes s)) = <[v := ptrs n']> (pstate s).
Proof. unfold pstate. simpl. rewrite !map_fmap. apply list_fmap_insert. Qed.

(** Reading a tree node whose pointers are known. *)
Lemma wp_getT_ptrs v q Q s :
  pstate s !! v = Some q ->
  (forall n, tnodes s !! v = Some n -> ptrs n = q -> Q n s) ->
  wp (getT v) Q s.
Proof.
  intros Hq H. destruct (pstate_lookup_inv s v q Hq) as (n & Hn & Hp).
  apply wp_getT. exists n. auto.
Qed.

(** An update that leaves the pointers alone. *)
Lemma wp_modT_num v f s :
  is_Some (pstate s !! v) ->
  (forall n, ptrs (f n) = ptrs n) ->
  wp (modT v f) (fun _ s' => sp s s') s.
Proof.
  intros [q Hq] Hf. destruct (pstate_lookup_inv s v q Hq) as (n & Hn & Hp).
  apply wp_modT. exists n. split; [exact Hn|]. split; [reflexivity|].
  rewrite pstate_insert, Hf, Hp. apply list_insert_id. exact Hq.
Qed.

(** An update of the pointers of one node. *)
Lemma wp_modT_ptrs v f q q' s :
  pstate s !! v = Some q ->
  (forall n, ptrs n = q -> ptrs (f n) = q') ->
  wp (modT v f) (fun _ s' => hnodes s' = hnodes s /\ pstate s' = <[v := q']> (pstate s)) s.
Proof.
  intros Hq Hf. destruct (pstate_lookup_inv s v q Hq) as (n & Hn & Hp).
  apply wp_modT. exists n. split; [exact Hn|]. split; [reflexivity|].
  now rewrite pstate_insert, (Hf n Hp).
Qed.

(** Sequencing after a step that keeps the pointers. *)
Lemma wp_bind_sp {A B} (m : M A) (k : A -> M B) Q s :
  wp m (fun _ s' => sp s s') s ->
  (forall a s', sp s s' -> wp (k a) Q s') ->
  wp (bind m k) Q s.
Proof.
  intros Hm Hk. apply wp_bind. eapply wp_mono; [exact Hm|].
  intros a s' Hsp. now apply Hk.
Qed.

Lemma sp_lookup s s' v q : sp s s' -> pstate s !! v = Some q -> pstate s' !! v = Some q.
Proof. intros [_ ->]. auto. Qed.

(** [nextLeft] and [nextRight] on the pointers. *)
Definition nlP (P : list Ptrs) (v : nat) : option nat :=
  match P !! v with
  | Some q => match q_children q with
              | Some cs => cs !! 0
              | None => q_t q
              end
  | None => None
  end.

Definition nrP (P : list Ptrs) (v : nat) : option nat :=
  match P !! v with
  | Some q => match q_children q with
              | Some cs => last cs
              | None => q_t q
              end
  | None => None
  end.

Lemma wp_nextLeft v Q s :
  is_Some (pstate s !! v) -> Q (nlP (pstate s) v) s -> wp (nextLeft v) Q s.
Proof.
  intros [q Hq] HQ. unfold nextLeft. apply wp_bind.
  apply (wp_getT_ptrs v q); [exact Hq|]. intros n Hn Hp.
  apply wp_ret. unfold nlP in HQ. rewrite Hq in HQ. now rewrite <- Hp in HQ.
Qed.

Lemma wp_nextRight v Q s :
  is_Some (pstate s !! v) -> Q (nrP (pstate s) v) s -> wp (nextRight v) Q s.
Proof.
  intros [q Hq] HQ. unfold nextRight. apply wp_bind.
  apply (wp_getT_ptrs v q); [exact Hq|]. intros n Hn Hp.
  apply wp_ret. unfold nrP in HQ. rewrite Hq in HQ. now rewrite <- Hp in HQ.
Qed.

(** [defaultSeparation] returns on two nodes of the hierarchy. *)
Lemma wp_defaultSeparation a b s :
  is_Some (hnodes s !! a) -> is_Some (hnodes s !! b) ->
  wp (defaultSeparation (Some a) (Some b)) (fun _ s' => s' = s) s.
Proof.
  intros [na Ha] [nb Hb]. unfold defaultSeparation.
  apply wp_bind. eapply wp_nonnull; [reflexivity|].
  apply wp_bind. eapply wp_nonnull; [reflexivity|].
  apply wp_bind, wp_getH. exists na. split; [exact Ha|].
  apply wp_bind, wp_getH. exists nb. split; [exact Hb|].
  now apply wp_ret.
Qed.

Lemma sp_is_Some s s' v :
  sp s s' -> is_Some (pstate s !! v) -> is_Some (pstate s' !! v).
Proof. intros [_ ->]. auto. Qed.

(** [moveSubtree] changes numbers only. *)
Lemma wp_moveSubtree wm wp' shift s :
  is_Some (pstate s !! wm) -> is_Some (pstate s !! wp') ->
  wp (moveSubtree (Some wm) wp' shift) (fun _ s' => sp s s') s.
Proof.
  intros Hm Hp. unfold moveSubtree.
  destruct Hp as [qp Hqp]. destruct Hm as [qm Hqm].
  apply wp_bind. apply (wp_getT_ptrs wp' qp); [exact Hqp|]. intros nwp _ _.
  apply wp_bind. eapply wp_nonnull; [reflexivity|].
  apply wp_bind. apply (wp_getT_ptrs wm qm); [exact Hqm|]. intros nwm _ _.
  cbv zeta.
  assert (Hp : is_Some (pstate s !! wp')) by now exists qp.
  assert (Hm : is_Some (pstate s !! wm)) by now exists qm.
  apply wp_bind_sp; [apply wp_modT_num; [exact Hp|reflexivity]|]. intros _ s1 H1.
  apply wp_bind_sp;
    [apply wp_modT_num; [exact (sp_is_Some _ _ _ H1 Hp)|reflexivity]|].
  intros _ s2 H2. pose proof (sp_trans _ _ _ H1 H2) as H12.
  apply wp_bind_sp;
    [apply wp_modT_num; [exact (sp_is_Some _ _ _ H12 Hm)|reflexivity]|].
  intros _ s3 H3. pose proof (sp_trans _ _ _ H12 H3) as H13.
  apply wp_bind_sp;
    [apply wp_modT_num; [exact (sp_is_Some _ _ _ H13 Hp)|reflexivity]|].
  intros _ s4 H4. pose proof (sp_trans _ _ _ H13 H4) as H14.
  eapply wp_mono;
    [apply wp_modT_num; [exact (sp_is_Some _ _ _ H14 Hp)|reflexivity]|].
  intros u s5 H5. exact (sp_trans _ _ _ H14 H5).
Qed.

End Pointers.

(** ** Contours

    [chain next v l]: following [next] from [v] visits [l] and stops. *)

Section Chains.

Inductive chain (next : nat -> option nat) : nat -> list nat -> Prop :=
| chain_nil v : next v = None -> chain next v []
| chain_cons v u l : next v = Some u -> chain next u l -> chain next v (u :: l).

Lemma chain_head next v l : chain next v l -> next v = head l.
Proof. now destruct 1. Qed.

Lemma chain_tail next v u l : chain next v (u :: l) -> chain next u l.
Proof. now inversion 1. Qed.

Lemma chain_unique next v l1 l2 : chain next v l1 -> chain next v l2 -> l1 = l2.
Proof.
  intros H1. revert l2. induction H1 as [v Hv|v u l Hv H1 IH]; intros l2 H2;
    inversion H2 as [? Hv'|? u' l' Hv' H2']; subst; try congruence.
  rewrite Hv in Hv'. injection Hv' as <-. f_equal. now apply IH.
Qed.

(** The chain from a node of a chain is what remains of the chain. *)
Lemma chain_drop next v l k u :
  chain next v l -> l !! k = Some u -> chain next u (drop (S k) l).
Proof.
  intros H. revert k. induction H as [v Hv|v u' l Hv H IH]; intros k Hk.
  - discriminate.
  - destruct k as [|k]; simpl in Hk.
    + injection Hk as ->. exact H.
    + simpl. now apply IH.
Qed.

Lemma chain_NoDup next v l : chain next v l -> NoDup (v :: l).
Proof.
  induction 1 as [v Hv|v u l Hv H IH].
  - apply NoDup_singleton.
  - apply NoDup_cons. split; [|exact IH].
    intros Hin. apply list_elem_of_lookup in Hin as [k Hk].
    pose proof (chain_cons next v u l Hv H) as Hfull.
    pose proof (chain_drop next v (u :: l) k v Hfull Hk) as Hsuf.
    pose proof (chain_unique _ _ _ _ Hfull Hsuf) as Heq.
    apply (f_equal length) in Heq. rewrite length_drop in Heq. simpl in Heq. lia.
Qed.

(** The last node of a chain has no successor. *)
Definition chain_end (v : nat) (l : list nat) : nat := default v (last l).

Lemma chain_end_None next v l : chain next v l -> next (chain_end v l) = None.
Proof.
  induction 1 as [v Hv|v u l Hv H IH]; [exact Hv|].
  unfold chain_end in *. rewrite last_cons. now destruct (last l).
Qed.

Lemma chain_end_cons v u l : chain_end v (u :: l) = chain_end u l.
Proof. unfold chain_end. rewrite last_cons. now destruct (last l). Qed.

Lemma chain_end_in v l : chain_end v l ∈ v :: l.
Proof.
  unfold chain_end. destruct (last l) as [x|] eqn:E; simpl.
  - apply list_elem_of_further. now apply last_Some_elem_of.
  - apply list_elem_of_here.
Qed.

Lemma chain_end_lookup v l : (v :: l) !! length l = Some (chain_end v l).
Proof.
  revert v. induction l as [|u l IH]; intros v; [reflexivity|].
  rewrite chain_end_cons. simpl. apply IH.
Qed.

(** A chain is not disturbed where it does not pass. *)
Lemma chain_frame next next' v l :
  (forall x, x ∈ v :: l -> next' x = next x) ->
  chain next v l -> chain next' v l.
Proof.
  intros Hfr H. induction H as [v Hv|v u l Hv H IH].
  - apply chain_nil. rewrite Hfr; [exact Hv|apply list_elem_of_here].
  - apply chain_cons.
    + rewrite Hfr; [exact Hv|apply list_elem_of_here].
    + apply IH. intros x Hx. apply Hfr. now apply list_elem_of_further.
Qed.

(** Giving a successor to the end of a chain prolongs the chain. *)
Lemma chain_extend next next' v l u l2 :
  chain next v l ->
  next' (chain_end v l) = Some u ->
  (forall x, x <> chain_end v l -> next' x = next x) ->
  chain next' u l2 ->
  chain next' v (l ++ u :: l2).
Proof.
  intros H. induction H as [v Hv|v u' l Hv H IH]; intros Hy Hfr H2.
  - simpl. apply chain_cons; [exact Hy|exact H2].
  - rewrite chain_end_cons in Hy, Hfr. simpl. apply chain_cons.
    + rewrite Hfr; [exact Hv|].
      intros ->. rewrite (chain_end_None next u' l H) in Hv. discriminate.
    + now apply IH.
Qed.

End Chains.

(** ** The first walk returns *)

Section FirstWalk.

(** What never changes during the walk: the hierarchy, and in the tree
    nodes [this._], the parent, the children and the number. *)
Record Static := mkStatic {
  s_node : option nat;
  s_parent : option nat;
  s_children : option (list nat);
  s_i : nat
}.

Definition static (q : Ptrs) : Static :=
  mkStatic (q_node q) (q_parent q) (q_children q) (q_i q).

Definition q_set_a (a : nat) (q : Ptrs) : Ptrs :=
  mkPtrs (q_node q) (q_parent q) (q_children q) (q_A q) a (q_t q) (q_i q).
Definition q_set_A (A : option nat) (q : Ptrs) : Ptrs :=
  mkPtrs (q_node q) (q_parent q) (q_children q) A (q_a q) (q_t q) (q_i q).
Definition q_set_t (t : nat) (q : Ptrs) : Ptrs :=
  mkPtrs (q_node q) (q_parent q) (q_children q) (q_A q) (q_a q) (Some t) (q_i q).

Variable hn : list HNode.
Variable real : nat -> Prop.
Variable S0 : list Static.

Hypothesis real_hn : forall u, real u -> is_Some (hn !! u).
Hypothesis real_static :
  forall u, real u ->
    exists st, S0 !! u = Some st /\ s_node st = Some u
               /\ forall cs, s_children st = Some cs -> cs <> [] /\ Forall real cs.

(** The invariant of the walk: the static part is what it was, the
    ancestors are tree nodes, the threads lead to nodes of the tree. *)
Definition Inv (P : list Ptrs) : Prop :=
  map static P = S0
  /\ forall v q, P !! v = Some q ->
       is_Some (P !! q_a q)
       /\ (forall u, q_A q = Some u -> is_Some (P !! u))
       /\ (forall u, q_t q = Some u -> real u).

Lemma Inv_static P v q :
  Inv P -> P !! v = Some q -> S0 !! v = Some (static q).
Proof.
  intros [HS _] Hq. rewrite <- HS, map_fmap, list_lookup_fmap, Hq. reflexivity.
Qed.

Lemma Inv_real P u :
  Inv P -> real u ->
  exists q, P !! u = Some q /\ q_node q = Some u
            /\ forall cs, q_children q = Some cs -> cs <> [] /\ Forall real cs.
Proof.
  intros [HS HI] Hu. destruct (real_static u Hu) as (st & Hst & Hn & Hc).
  rewrite <- HS, map_fmap, list_lookup_fmap in Hst.
  destruct (P !! u) as [q|] eqn:Hq; [|discriminate].
  injection Hst as <-. exists q. split; [reflexivity|]. split; [exact Hn|exact Hc].
Qed.

Lemma Inv_real_is_Some P u : Inv P -> real u -> is_Some (P !! u).
Proof. intros HI Hu. destruct (Inv_real P u HI Hu) as (q & Hq & _). now exists q. Qed.

Lemma nlP_real P v u : Inv P -> real v -> nlP P v = Some u -> real u.
Proof.
  intros HI Hv Hn. destruct (Inv_real P v HI Hv) as (q & Hq & _ & Hc).
  unfold nlP in Hn. rewrite Hq in Hn.
  destruct (q_children q) as [cs|] eqn:E.
  - destruct (Hc cs eq_refl) as [_ Hall]. rewrite Forall_forall in Hall.
    apply Hall. now apply list_elem_of_lookup_2 in Hn.
  - destruct HI as [_ HI]. now apply (HI v q Hq).
Qed.

Lemma nrP_real P v u : Inv P -> real v -> nrP P v = Some u -> real u.
Proof.
  intros HI Hv Hn. destruct (Inv_real P v HI Hv) as (q & Hq & _ & Hc).
  unfold nrP in Hn. rewrite Hq in Hn.
  destruct (q_children q) as [cs|] eqn:E.
  - destruct (Hc cs eq_refl) as [_ Hall]. rewrite Forall_forall in Hall.
    apply Hall. now apply last_Some_elem_of.
  - destruct HI as [_ HI]. now apply (HI v q Hq).
Qed.

Lemma chainL_real P v l : Inv P -> real v -> chain (nlP P) v l -> Forall real l.
Proof.
  intros HI Hv H. induction H as [v _|v u l Hn H IH]; constructor.
  - now apply (nlP_real P v).
  - apply IH. now apply (nlP_real P v).
Qed.

Lemma chainR_real P v l : Inv P -> real v -> chain (nrP P) v l -> Forall real l.
Proof.
  intros HI Hv H. induction H as [v _|v u l Hn H IH]; constructor.
  - now apply (nrP_real P v).
  - apply IH. now apply (nrP_real P v).
Qed.

(** The links of a node: what [nextLeft] and [nextRight] read. *)
Definition linkf (P : list Ptrs) (v : nat) : option (option (list nat) * option nat) :=
  match P !! v with
  | Some q => Some (q_children q, q_t q)
  | None => None
  end.

Lemma nlP_linkf P P' v : linkf P' v = linkf P v -> nlP P' v = nlP P v.
Proof.
  unfold linkf, nlP. destruct (P' !! v) as [q'|], (P !! v) as [q|]; try discriminate;
    [|reflexivity].
  intros [= -> ->]. reflexivity.
Qed.

Lemma nrP_linkf P P' v : linkf P' v = linkf P v -> nrP P' v = nrP P v.
Proof.
  unfold linkf, nrP. destruct (P' !! v) as [q'|], (P !! v) as [q|]; try discriminate;
    [|reflexivity].
  intros [= -> ->]. reflexivity.
Qed.

Lemma linkf_insert_ne P v x q' : x <> v -> linkf (<[v := q']> P) x = linkf P x.
Proof. intros H. unfold linkf. now rewrite list_lookup_insert_ne by congruence. Qed.

Lemma linkf_insert_same P v q q' :
  P !! v = Some q -> q_children q' = q_children q -> q_t q' = q_t q ->
  forall x, linkf (<[v := q']> P) x = linkf P x.
Proof.
  intros Hq Hc Ht x. destruct (decide (x = v)) as [->|Hne].
  - unfold linkf. rewrite list_lookup_insert_eq by (now apply lookup_lt_Some in Hq).
    now rewrite Hq, Hc, Ht.
  - now apply linkf_insert_ne.
Qed.

(** The invariant under the three updates of pointers. *)
Lemma Inv_insert P v q q' :
  Inv P -> P !! v = Some q ->
  static q' = static q ->
  is_Some (P !! q_a q') ->
  (forall u, q_A q' = Some u -> is_Some (P !! u)) ->
  (forall u, q_t q' = Some u -> real u) ->
  Inv (<[v := q']> P).
Proof.
  intros [HS HI] Hq Hst Ha HA Ht.
  assert (Hv : v < length P) by now apply lookup_lt_Some in Hq.
  assert (Hsome : forall u, is_Some (P !! u) -> is_Some (<[v := q']> P !! u)).
  { intros u Hu. apply lookup_lt_is_Some. rewrite length_insert.
    now apply lookup_lt_is_Some. }
  split.
  - rewrite <- HS, !map_fmap, list_fmap_insert, Hst.
    apply list_insert_id. now rewrite list_lookup_fmap, Hq.
  - intros x qx Hx. destruct (decide (x = v)) as [->|Hne].
    + rewrite list_lookup_insert_eq in Hx by assumption. injection Hx as <-.
      repeat split; auto.
    + rewrite list_lookup_insert_ne in Hx by congruence.
      destruct (HI x qx Hx) as (H1 & H2 & H3). repeat split; auto.
Qed.

Lemma chainL_links P P' v l :
  (forall x, linkf P' x = linkf P x) -> chain (nlP P) v l -> chain (nlP P') v l.
Proof. intros H. apply chain_frame. intros x _. now apply nlP_linkf. Qed.

Lemma chainR_links P P' v l :
  (forall x, linkf P' x = linkf P x) -> chain (nrP P) v l -> chain (nrP P') v l.
Proof. intros H. apply chain_frame. intros x _. now apply nrP_linkf. Qed.

Lemma sp_Inv s s' : sp s s' -> Inv (pstate s) -> Inv (pstate s').
Proof. intros [_ ->]. auto. Qed.

(** [nextAncestor] returns a tree node. *)
Lemma wp_nextAncestor vim' v anc s :
  Inv (pstate s) -> real vim' -> real v -> is_Some (pstate s !! anc) ->
  wp (nextAncestor vim' v (Some anc))
     (fun r s' => s' = s /\ exists wm, r = Some wm /\ is_Some (pstate s !! wm)) s.
Proof.
  intros HI Hvim Hv Hanc. unfold nextAncestor.
  destruct (Inv_real _ _ HI Hvim) as (qm & Hqm & _).
  destruct (Inv_real _ _ HI Hv) as (qv & Hqv & _).
  apply wp_bind. apply (wp_getT_ptrs vim' qm); [exact Hqm|]. intros nvim _ Hp.
  assert (Ha : is_Some (pstate s !! t_a nvim)).
  { destruct HI as [_ HI]. destruct (HI vim' qm Hqm) as (Ha & _).
    now rewrite <- Hp in Ha. }
  destruct Ha as [qa Hqa].
  apply wp_bind. apply (wp_getT_ptrs (t_a nvim) qa); [exact Hqa|]. intros na _ _.
  apply wp_bind. apply (wp_getT_ptrs v qv); [exact Hqv|]. intros nv _ _.
  apply wp_ret. split; [reflexivity|].
  destruct (decide (t_parent na = t_parent nv)).
  - exists (t_a nvim). split; [reflexivity|now exists qa].
  - exists anc. now split.
Qed.

(** The loop of [apportion] walks down the four contours as far as the
    shorter pair goes, and leaves the links as they are. *)
Lemma wp_apportion_loop fuel :
  forall lim lip lom lop vim0 vip0 vom0 vop0 sim0 sip0 som0 sop0 v anc s,
    hnodes s = hn -> Inv (pstate s) ->
    real v -> is_Some (pstate s !! anc) ->
    real vim0 -> real vip0 -> real vom0 -> real vop0 ->
    chain (nrP (pstate s)) vim0 lim -> chain (nlP (pstate s)) vip0 lip ->
    chain (nlP (pstate s)) vom0 lom -> chain (nrP (pstate s)) vop0 lop ->
    length lom = length lim -> length lop = length lip ->
    min (length lim) (length lip) < fuel ->
    wp (apportion_loop fuel v (Some anc) vim0 vip0 vom0 vop0 sim0 sip0 som0 sop0)
       (fun c s' =>
          hnodes s' = hn /\ Inv (pstate s')
          /\ (forall x, linkf (pstate s') x = linkf (pstate s) x)
          /\ length (pstate s') = length (pstate s)
          /\ vim c = lim !! min (length lim) (length lip)
          /\ vip c = lip !! min (length lim) (length lip)
          /\ (vom0 :: lom) !! min (length lim) (length lip) = Some (vom c)
          /\ (vop0 :: lop) !! min (length lim) (length lip) = Some (vop c)) s.
Proof.
  induction fuel as [|fuel IH];
    intros lim lip lom lop vim0 vip0 vom0 vop0 sim0 sip0 som0 sop0 v anc s
           Hh HI Hv Hanc Rim Rip Rom Rop Cim Cip Com Cop Lom Lop Hfuel; [lia|].
  cbn [apportion_loop].
  apply wp_bind, wp_nextRight; [now apply Inv_real_is_Some|].
  apply wp_bind, wp_nextLeft; [now apply Inv_real_is_Some|].
  rewrite (chain_head _ _ _ Cim), (chain_head _ _ _ Cip).
  destruct lim as [|vim' lim']; [|destruct lip as [|vip' lip']].
  - apply wp_ret. simpl. splits; auto. now destruct lip.
  - apply wp_ret. simpl. splits; auto.
  - destruct lom as [|vom' lom']; [discriminate|].
    destruct lop as [|vop' lop']; [discriminate|].
    cbn [head].
    pose proof (chainR_real _ _ _ HI Rim Cim) as Rim'.
    pose proof (chainL_real _ _ _ HI Rip Cip) as Rip'.
    pose proof (chainL_real _ _ _ HI Rom Com) as Rom'.
    pose proof (chainR_real _ _ _ HI Rop Cop) as Rop'.
    apply Forall_cons in Rim' as [Rim' _]. apply Forall_cons in Rip' as [Rip' _].
    apply Forall_cons in Rom' as [Rom' _]. apply Forall_cons in Rop' as [Rop' _].
    apply wp_bind, wp_nextLeft; [now apply Inv_real_is_Some|].
    apply wp_bind, wp_nextRight; [now apply Inv_real_is_Some|].
    rewrite (chain_head _ _ _ Com), (chain_head _ _ _ Cop). cbn [head].
    apply wp_bind. eapply wp_nonnull; [reflexivity|].
    destruct (Inv_real _ _ HI Rop') as (qop & Hqop & _).
    apply wp_bind. eapply wp_mono.
    { apply (wp_modT_ptrs vop' (set_t_a v) qop (q_set_a v qop)); [exact Hqop|].
      intros n <-. reflexivity. }
    intros _ s1 [Hh1 HP1].
    assert (HI1 : Inv (pstate s1)).
    { rewrite HP1. apply (Inv_insert _ _ qop); auto.
      - simpl. now apply Inv_real_is_Some.
      - simpl. destruct HI as [_ HI]. now apply (HI vop' qop).
      - simpl. destruct HI as [_ HI]. now apply (HI vop' qop). }
    assert (HL1 : forall x, linkf (pstate s1) x = linkf (pstate s) x).
    { rewrite HP1. now apply (linkf_insert_same _ _ qop). }
    assert (Hlen1 : length (pstate s1) = length (pstate s)).
    { rewrite HP1. apply length_insert. }
    destruct (Inv_real _ _ HI1 Rim') as (qim & Hqim & Hnim & _).
    destruct (Inv_real _ _ HI1 Rip') as (qip & Hqip & Hnip & _).
    apply wp_bind. apply (wp_getT_ptrs vim' qim); [exact Hqim|]. intros nvim _ Hpim.
    apply wp_bind. apply (wp_getT_ptrs vip' qip); [exact Hqip|]. intros nvip _ Hpip.
    replace (t_node nvim) with (Some vim') by (now rewrite <- Hnim, <- Hpim).
    replace (t_node nvip) with (Some vip') by (now rewrite <- Hnip, <- Hpip).
    apply wp_bind. eapply wp_mono.
    { apply wp_defaultSeparation; rewrite Hh1, Hh; now apply real_hn. }
    intros sep s1' ->. cbv zeta.
    apply wp_bind.
    apply (wp_mono _ (fun _ s2 => sp s1 s2)).
    { destruct (0 <? _)%float.
      - apply wp_bind. eapply wp_mono.
        { apply (wp_nextAncestor vim' v anc); auto.
          apply lookup_lt_is_Some. rewrite Hlen1. now apply lookup_lt_is_Some. }
        intros r s2 (-> & wm & -> & Hwm).
        apply wp_bind_sp; [apply wp_moveSubtree; [exact Hwm|now apply Inv_real_is_Some]|].
        intros _ s3 H3. now apply wp_ret.
      - apply wp_ret. apply sp_refl. }
    intros shifted s2 H2.
    pose proof (sp_Inv _ _ H2 HI1) as HI2.
    assert (HL2 : forall x, linkf (pstate s2) x = linkf (pstate s) x).
    { intros x. destruct H2 as [_ ->]. apply HL1. }
    destruct (Inv_real _ _ HI2 Rim') as (qim2 & Hqim2 & _).
    destruct (Inv_real _ _ HI2 Rip') as (qip2 & Hqip2 & _).
    destruct (Inv_real _ _ HI2 Rom') as (qom2 & Hqom2 & _).
    destruct (Inv_real _ _ HI2 Rop') as (qop2 & Hqop2 & _).
    apply wp_bind. apply (wp_getT_ptrs vim' qim2); [exact Hqim2|]. intros nvim2 _ _.
    apply wp_bind. apply (wp_getT_ptrs vip' qip2); [exact Hqip2|]. intros nvip2 _ _.
    apply wp_bind. eapply wp_nonnull; [reflexivity|].
    apply wp_bind. apply (wp_getT_ptrs vom' qom2); [exact Hqom2|]. intros nvom2 _ _.
    apply wp_bind. apply (wp_getT_ptrs vop' qop2); [exact Hqop2|]. intros nvop2 _ _.
    eapply wp_mono.
    { apply (IH lim' lip' lom' lop'); auto.
      - destruct H2 as [-> _]. congruence.
      - apply lookup_lt_is_Some. destruct H2 as [_ ->]. rewrite Hlen1.
        now apply lookup_lt_is_Some.
      - apply (chainR_links (pstate s)); [exact HL2|]. now apply chain_tail in Cim.
      - apply (chainL_links (pstate s)); [exact HL2|]. now apply chain_tail in Cip.
      - apply (chainL_links (pstate s)); [exact HL2|]. now apply chain_tail in Com.
      - apply (chainR_links (pstate s)); [exact HL2|]. now apply chain_tail in Cop.
      - simpl in *. lia. }
    intros c s3 (Hh3 & HI3 & HL3 & Hlen3 & E1 & E2 & E3 & E4).
    simpl. splits; auto.
    + intros x. now rewrite HL3.
    + rewrite Hlen3. destruct H2 as [_ ->]. exact Hlen1.
Qed.

(** A node without a successor has neither children nor a thread. *)
Lemma no_successor P y :
  Inv P -> real y -> nrP P y = None \/ nlP P y = None ->
  exists q, P !! y = Some q /\ q_children q = None /\ q_t q = None.
Proof.
  intros HI Hy Hn. destruct (Inv_real _ _ HI Hy) as (q & Hq & _ & Hc).
  exists q. split; [exact Hq|].
  unfold nrP, nlP in Hn. rewrite Hq in Hn.
  destruct (q_children q) as [cs|] eqn:E.
  - exfalso. destruct (Hc cs eq_refl) as [Hne _].
    destruct cs as [|c cs]; [now apply Hne|].
    destruct Hn as [Hn|Hn]; [|discriminate].
    rewrite last_cons in Hn. now destruct (last cs).
  - split; [reflexivity|]. now destruct Hn.
Qed.

(** Threading the end of a contour: [y.t = u; y.m += ...]. *)
Lemma wp_thread y u (g : TreeNode -> TreeNode) s :
  Inv (pstate s) -> real y -> real u ->
  nrP (pstate s) y = None \/ nlP (pstate s) y = None ->
  (forall n, ptrs (g n) = ptrs n) ->
  wp (bind (modT y (set_t_t u)) (fun _ => modT y g))
     (fun _ s' =>
        hnodes s' = hnodes s /\ Inv (pstate s')
        /\ length (pstate s') = length (pstate s)
        /\ nlP (pstate s') y = Some u /\ nrP (pstate s') y = Some u
        /\ forall x, x <> y -> linkf (pstate s') x = linkf (pstate s) x) s.
Proof.
  intros HI Hy Hu Hn Hg.
  destruct (no_successor _ _ HI Hy Hn) as (q & Hq & Hc & Ht).
  set (P2 := <[y := q_set_t u q]> (pstate s)).
  assert (Hy2 : P2 !! y = Some (q_set_t u q)).
  { unfold P2. apply list_lookup_insert_eq. now apply lookup_lt_Some in Hq. }
  apply wp_bind. eapply wp_mono.
  { apply (wp_modT_ptrs y (set_t_t u) q (q_set_t u q)); [exact Hq|].
    intros n <-. reflexivity. }
  intros _ s1 [Hh1 HP1]. fold P2 in HP1.
  eapply wp_mono.
  { apply wp_modT_num; [|exact Hg]. rewrite HP1. eexists. exact Hy2. }
  intros a2 s2 [Hh2 HP2]. rewrite HP2, HP1, Hh2, Hh1.
  splits; auto.
  - destruct HI as [HS HI']. destruct (HI' y q Hq) as (H1 & H2 & H3).
    apply (Inv_insert _ _ q _ (conj HS HI') Hq).
    + reflexivity.
    + exact H1.
    + exact H2.
    + simpl. intros ? [= <-]. exact Hu.
  - apply length_insert.
  - unfold nlP. rewrite Hy2. simpl. now rewrite Hc.
  - unfold nrP. rewrite Hy2. simpl. now rewrite Hc.
  - intros x Hx. now apply linkf_insert_ne.
Qed.

(** [apportion(v, w, ancestor)] for a node [v] with a left sibling [w]:
    the contours of the subtree of [v] and of the forest to its left are
    walked down and, where one is deeper, threaded into one contour of the
    joint forest. *)
Lemma wp_apportion fuel v w anc p sibl c0 lL lR lvL lvR s :
  hnodes s = hn -> Inv (pstate s) ->
  real v -> real w -> real c0 -> is_Some (pstate s !! anc) ->
  (exists qv, pstate s !! v = Some qv /\ q_parent qv = Some p) ->
  (exists qp, pstate s !! p = Some qp /\ q_children qp = Some sibl) ->
  sibl !! 0 = Some c0 ->
  chain (nlP (pstate s)) c0 lL -> chain (nrP (pstate s)) w lR ->
  length lL = length lR ->
  chain (nlP (pstate s)) v lvL -> chain (nrP (pstate s)) v lvR ->
  length lvL = length lvR ->
  (forall x, x ∈ v :: lvL ++ lvR -> x ∉ c0 :: lL ++ lR) ->
  min (length lR) (length lvL) < fuel ->
  wp (apportion fuel v (Some w) (Some anc))
     (fun r s' =>
        hnodes s' = hn /\ Inv (pstate s')
        /\ length (pstate s') = length (pstate s)
        /\ (exists a', r = Some a' /\ is_Some (pstate s' !! a'))
        /\ (exists lL' lR',
              chain (nlP (pstate s')) c0 lL' /\ chain (nrP (pstate s')) v lR'
              /\ length lL' = length lR'
              /\ Forall (fun x => x ∈ lL ++ lvL) lL'
              /\ Forall (fun x => x ∈ lvR ++ lR) lR')
        /\ (forall x, x ∉ (c0 :: lL) ++ (v :: lvR) ->
                      linkf (pstate s') x = linkf (pstate s) x)) s.
Proof.
  intros Hh HI Rv Rw Rc0 Hanc (qv & Hqv & Hpar) (qp & Hqp & Hsib) Hc0
         CL CR LLR CvL CvR LvLR Hdisj Hfuel.
  unfold apportion.
  apply wp_bind. apply (wp_getT_ptrs v qv); [exact Hqv|]. intros nv _ Hpv.
  apply wp_bind. eapply wp_nonnull; [rewrite <- Hpar, <- Hpv; reflexivity|].
  apply wp_bind. apply (wp_getT_ptrs p qp); [exact Hqp|]. intros np _ Hpp.
  apply wp_bind. eapply wp_nonnull; [rewrite <- Hsib, <- Hpp; reflexivity|].
  apply wp_bind. eapply wp_nonnull; [exact Hc0|].
  destruct (Inv_real _ _ HI Rw) as (qw & Hqw & _).
  destruct (Inv_real _ _ HI Rc0) as (qc & Hqc & _).
  apply wp_bind. apply (wp_getT_ptrs w qw); [exact Hqw|]. intros nw _ _.
  apply wp_bind. apply (wp_getT_ptrs c0 qc); [exact Hqc|]. intros nc _ _.
  apply wp_bind. eapply wp_mono.
  { apply (wp_apportion_loop fuel lR lvL lL lvR); auto. }
  intros c s1 (Hh1 & HI1 & HL1 & Hlen1 & E1 & E2 & E3 & E4).
  set (a := length lR) in *. set (b := length lvL) in *.
  pose proof (chainL_real _ _ _ HI Rc0 CL) as RL.
  pose proof (chainR_real _ _ _ HI Rw CR) as RR.
  pose proof (chainL_real _ _ _ HI Rv CvL) as RvL.
  pose proof (chainR_real _ _ _ HI Rv CvR) as RvR.
  assert (Hanc1 : is_Some (pstate s1 !! anc)).
  { apply lookup_lt_is_Some. rewrite Hlen1. now apply lookup_lt_is_Some. }
  assert (CL1 : chain (nlP (pstate s1)) c0 lL) by now apply (chainL_links (pstate s)).
  assert (CR1 : chain (nrP (pstate s1)) w lR) by now apply (chainR_links (pstate s)).
  assert (CvL1 : chain (nlP (pstate s1)) v lvL) by now apply (chainL_links (pstate s)).
  assert (CvR1 : chain (nrP (pstate s1)) v lvR) by now apply (chainR_links (pstate s)).
  destruct (lt_eq_lt_dec a b) as [[Hlt|Heq]|Hgt].
  - (* the subtree of v is deeper *)
    replace (a `min` b) with a in * by lia.
    rewrite (lookup_ge_None_2 lR a) in E1 by (unfold a; lia).
    destruct (lookup_lt_is_Some_2 lvL a) as [u Hu]; [unfold b in Hlt; lia|].
    rewrite Hu in E2.
    replace a with (length lL) in E3 by lia.
    rewrite chain_end_lookup in E3. injection E3 as E3.
    set (y := chain_end c0 lL) in *.
    assert (Ry : real y).
    { pose proof (chain_end_in c0 lL) as Hin. fold y in Hin.
      apply elem_of_cons in Hin as [->|Hin]; [exact Rc0|].
      rewrite Forall_forall in RL. now apply RL. }
    assert (Ru : real u).
    { rewrite Forall_forall in RvL. apply RvL. now apply list_elem_of_lookup_2 in Hu. }
    apply wp_bind. rewrite E1. apply wp_ret. rewrite E2, <- E3.
    apply wp_bind, wp_nextLeft; [now apply Inv_real_is_Some|].
    pose proof (chain_end_None _ _ _ CL1) as Hend. fold y in Hend. rewrite Hend.
    apply wp_bind_assoc. apply wp_bind. eapply wp_mono.
    { apply (wp_thread y u); auto. }
    intros _ s2 (Hh2 & HI2 & Hlen2 & Hnl2 & Hnr2 & Hfr2).
    apply wp_ret.
    assert (Hyv : y ∉ v :: lvL ++ lvR).
    { intros Hin. apply (Hdisj y Hin).
      pose proof (chain_end_in c0 lL) as Hy. fold y in Hy.
      apply elem_of_cons in Hy as [->|Hy]; [apply list_elem_of_here|].
      apply list_elem_of_further, elem_of_app. now left. }
    splits.
    + congruence.
    + exact HI2.
    + congruence.
    + exists v. split; [reflexivity|]. now apply Inv_real_is_Some.
    + exists (lL ++ u :: drop (S a) lvL), lvR. splits.
      * apply (chain_extend (nlP (pstate s1))); auto.
        -- intros x Hx. apply nlP_linkf. now apply Hfr2.
        -- apply (chain_frame (nlP (pstate s1))).
           ++ intros x Hx. apply nlP_linkf, Hfr2. intros ->. apply Hyv.
              apply list_elem_of_further, elem_of_app. left.
              apply elem_of_cons in Hx as [->|Hx].
              ** now apply list_elem_of_lookup_2 in Hu.
              ** exact (subseteq_drop (S a) lvL _ Hx).
           ++ now apply (chain_drop _ v lvL a u).
      * apply (chain_frame (nrP (pstate s1))); [|exact CvR1].
        intros x Hx. apply nrP_linkf, Hfr2. intros ->. apply Hyv.
        apply elem_of_cons in Hx as [->|Hx]; [apply list_elem_of_here|].
        apply list_elem_of_further, elem_of_app. now right.
      * rewrite length_app. simpl. rewrite length_drop. unfold a, b in *. lia.
      * apply Forall_app. split.
        -- apply Forall_forall. intros x Hx. apply elem_of_app. now left.
        -- apply Forall_forall. intros x Hx. apply elem_of_app. right.
           apply elem_of_cons in Hx as [->|Hx].
           ++ now apply list_elem_of_lookup_2 in Hu.
           ++ exact (subseteq_drop (S a) lvL _ Hx).
      * apply Forall_forall. intros x Hx. apply elem_of_app. now left.
    + intros x Hx. rewrite Hfr2; [apply HL1|].
      intros ->. apply Hx. apply elem_of_app. left. apply chain_end_in.
  - (* both are as deep *)
    replace (a `min` b) with a in * by lia.
    rewrite (lookup_ge_None_2 lR a) in E1 by (unfold a; lia).
    rewrite (lookup_ge_None_2 lvL a) in E2 by (unfold b in Heq; lia).
    apply wp_bind. rewrite E1. apply wp_ret. rewrite E2. apply wp_ret.
    splits; auto.
    + now exists anc.
    + exists lL, lvR. splits; auto.
      * unfold a, b in *. lia.
      * apply Forall_forall. intros x Hx. apply elem_of_app. now left.
      * apply Forall_forall. intros x Hx. apply elem_of_app. now left.
  - (* the forest to the left is deeper *)
    replace (a `min` b) with b in * by lia.
    destruct (lookup_lt_is_Some_2 lR b) as [u Hu]; [unfold a in Hgt; lia|].
    rewrite Hu in E1.
    rewrite (lookup_ge_None_2 lvL b) in E2 by (unfold b; lia).
    replace b with (length lvR) in E4 by (unfold b; lia).
    rewrite chain_end_lookup in E4. injection E4 as E4.
    set (y := chain_end v lvR) in *.
    assert (Hyin : y ∈ v :: lvL ++ lvR).
    { pose proof (chain_end_in v lvR) as Hy. fold y in Hy.
      apply elem_of_cons in Hy as [->|Hy]; [apply list_elem_of_here|].
      apply list_elem_of_further, elem_of_app. now right. }
    assert (Ry : real y).
    { pose proof (chain_end_in v lvR) as Hin. fold y in Hin.
      apply elem_of_cons in Hin as [->|Hin]; [exact Rv|].
      rewrite Forall_forall in RvR. now apply RvR. }
    assert (Ru : real u).
    { rewrite Forall_forall in RR. apply RR. now apply list_elem_of_lookup_2 in Hu. }
    apply wp_bind. rewrite E1, <- E4.
    apply wp_bind, wp_nextRight; [now apply Inv_real_is_Some|].
    pose proof (chain_end_None _ _ _ CvR1) as Hend. fold y in Hend. rewrite Hend.
    eapply wp_mono.
    { apply (wp_thread y u); auto. }
    intros r2 s2 (Hh2 & HI2 & Hlen2 & Hnl2 & Hnr2 & Hfr2).
    rewrite E2. apply wp_ret.
    splits.
    + congruence.
    + exact HI2.
    + congruence.
    + exists anc. split; [reflexivity|].
      apply lookup_lt_is_Some. rewrite Hlen2. now apply lookup_lt_is_Some.
    + exists lL, (lvR ++ u :: drop (S b) lR). splits.
      * apply (chain_frame (nlP (pstate s1))); [|exact CL1].
        intros x Hx. apply nlP_linkf, Hfr2. intros ->. apply (Hdisj y Hyin).
        apply elem_of_cons in Hx as [->|Hx]; [apply list_elem_of_here|].
        apply list_elem_of_further, elem_of_app. now left.
      * apply (chain_extend (nrP (pstate s1))); auto.
        -- intros x Hx. apply nrP_linkf. now apply Hfr2.
        -- apply (chain_frame (nrP (pstate s1))).
           ++ intros x Hx. apply nrP_linkf, Hfr2. intros ->. apply (Hdisj y Hyin).
              apply list_elem_of_further, elem_of_app. right.
              apply elem_of_cons in Hx as [->|Hx].
              ** now apply list_elem_of_lookup_2 in Hu.
              ** exact (subseteq_drop (S b) lR _ Hx).
           ++ now apply (chain_drop _ w lR b u).
      * rewrite length_app. simpl. rewrite length_drop. unfold a, b in *. lia.
      * apply Forall_forall. intros x Hx. apply elem_of_app. now left.
      * apply Forall_app. split.
        -- apply Forall_forall. intros x Hx. apply elem_of_app. now left.
        -- apply Forall_forall. intros x Hx. apply elem_of_app. right.
           apply elem_of_cons in Hx as [->|Hx].
           ++ now apply list_elem_of_lookup_2 in Hu.
           ++ exact (subseteq_drop (S b) lR _ Hx).
    + intros x Hx. rewrite Hfr2; [apply HL1|].
      intros ->. apply Hx. apply elem_of_app. right. apply chain_end_in.
Qed.

(** [executeShifts] changes numbers only. *)
Lemma wp_executeShifts_loop ws shift change s :
  Forall (fun w => is_Some (pstate s !! w)) ws ->
  wp (executeShifts_loop ws shift change) (fun _ s' => sp s s') s.
Proof.
  revert shift change s. induction ws as [|w ws IH]; intros shift change s Hws.
  - apply wp_ret, sp_refl.
  - apply Forall_cons in Hws as [Hw Hws]. cbn [executeShifts_loop].
    apply wp_bind_sp; [apply wp_modT_num; [exact Hw|reflexivity]|]. intros _ s1 H1.
    apply wp_bind_sp;
      [apply wp_modT_num; [exact (sp_is_Some _ _ _ H1 Hw)|reflexivity]|].
    intros _ s2 H2. pose proof (sp_trans _ _ _ H1 H2) as H12.
    destruct (sp_is_Some _ _ _ H12 Hw) as [qw Hqw].
    apply wp_bind. apply (wp_getT_ptrs w qw); [exact Hqw|]. intros nw _ _.
    cbv zeta. eapply wp_mono.
    { apply IH. eapply Forall_impl; [exact Hws|].
      intros x Hx. exact (sp_is_Some _ _ _ H12 Hx). }
    intros u s3 H3. exact (sp_trans _ _ _ H12 H3).
Qed.

Lemma wp_executeShifts v q cs s :
  pstate s !! v = Some q -> q_children q = Some cs ->
  Forall (fun w => is_Some (pstate s !! w)) cs ->
  wp (executeShifts v) (fun _ s' => sp s s') s.
Proof.
  intros Hq Hc Hcs. unfold executeShifts.
  apply wp_bind. apply (wp_getT_ptrs v q); [exact Hq|]. intros n _ Hp.
  apply wp_bind. eapply wp_nonnull; [rewrite <- Hc, <- Hp; reflexivity|].
  apply wp_executeShifts_loop.
  apply Forall_forall. intros x Hx. rewrite Forall_forall in Hcs. apply Hcs.
  apply list_elem_of_In. apply in_rev. now apply list_elem_of_In.
Qed.

(** The placement of [v] in [firstWalk], before [apportion]: numbers
    only. *)
Lemma wp_place v nv (w : option nat) s :
  hnodes s = hn -> Inv (pstate s) -> real v ->
  tnodes s !! v = Some nv ->
  (forall w', w = Some w' -> real w') ->
  wp (match t_children nv with
      | Some children =>
          executeShifts v ;;;
          c0 <- nonnull (children !! 0%nat) ;;
          n0 <- getT c0 ;;
          cl <- nonnull (last children) ;;
          nl <- getT cl ;;
          let midpoint := ((t_z n0 + t_z nl) / 2)%float in
          match w with
          | Some w' =>
              nw <- getT w' ;;
              sep <- defaultSeparation (t_node nv) (t_node nw) ;;
              modT v (set_t_z (t_z nw + sep)%float) ;;;
              modT v (fun n => set_t_m (t_z n - midpoint)%float n)
          | None => modT v (set_t_z midpoint)
          end
      | None =>
          match w with
          | Some w' =>
              nw <- getT w' ;;
              sep <- defaultSeparation (t_node nv) (t_node nw) ;;
              modT v (set_t_z (t_z nw + sep)%float)
          | None => ret tt
          end
      end) (fun _ s' => sp s s') s.
Proof.
  intros Hh HI Rv Hnv Hw.
  destruct (Inv_real _ _ HI Rv) as (qv & Hqv & Hnode & Hkids).
  assert (Hpv : ptrs nv = qv).
  { apply pstate_lookup in Hnv. congruence. }
  assert (Hnodev : t_node nv = Some v) by now rewrite <- Hnode, <- Hpv.
  assert (Hvs : is_Some (pstate s !! v)) by now exists qv.
  assert (Hsep : forall w' s1, w = Some w' -> sp s s1 ->
            wp (nw <- getT w' ;;
                sep <- defaultSeparation (t_node nv) (t_node nw) ;;
                modT v (set_t_z (t_z nw + sep)%float))
               (fun _ s' => sp s s') s1).
  { intros w' s1 Ew H1. pose proof (Hw w' Ew) as Rw.
    pose proof (sp_Inv _ _ H1 HI) as HI1.
    destruct (Inv_real _ _ HI1 Rw) as (qw & Hqw & Hnw & _).
    apply wp_bind. apply (wp_getT_ptrs w' qw); [exact Hqw|]. intros nw _ Hpw.
    replace (t_node nw) with (Some w') by (now rewrite <- Hnw, <- Hpw).
    rewrite Hnodev.
    apply wp_bind. eapply wp_mono.
    { apply wp_defaultSeparation; destruct H1 as [-> _]; rewrite Hh; now apply real_hn. }
    intros sep s1' ->.
    eapply wp_mono; [apply wp_modT_num; [exact (sp_is_Some _ _ _ H1 Hvs)|reflexivity]|].
    intros u s2 H2. exact (sp_trans _ _ _ H1 H2). }
  destruct (t_children nv) as [children|] eqn:Ech.
  - assert (Hch : q_children qv = Some children) by now rewrite <- Hpv.
    destruct (Hkids children Hch) as [Hne Hreal].
    apply wp_bind_sp.
    { apply (wp_executeShifts v qv children); auto.
      eapply Forall_impl; [exact Hreal|]. intros x Hx. now apply Inv_real_is_Some. }
    intros _ s1 H1. pose proof (sp_Inv _ _ H1 HI) as HI1.
    destruct children as [|c0 cs]; [contradiction|].
    assert (Rc0 : real c0) by now apply Forall_cons in Hreal as [? _].
    destruct (last (c0 :: cs)) as [cl|] eqn:El;
      [|rewrite last_cons in El; destruct (last cs); discriminate].
    assert (Rcl : real cl).
    { rewrite Forall_forall in Hreal. apply Hreal. now apply last_Some_elem_of. }
    destruct (Inv_real _ _ HI1 Rc0) as (q0 & Hq0 & _).
    destruct (Inv_real _ _ HI1 Rcl) as (ql & Hql & _).
    apply wp_bind. eapply wp_nonnull; [reflexivity|].
    apply wp_bind. apply (wp_getT_ptrs c0 q0); [exact Hq0|]. intros n0 _ _.
    apply wp_bind. eapply wp_nonnull; [reflexivity|].
    apply wp_bind. apply (wp_getT_ptrs cl ql); [exact Hql|]. intros nl _ _.
    cbv zeta. destruct w as [w'|].
    + pose proof (Hw w' eq_refl) as Rw.
      destruct (Inv_real _ _ HI1 Rw) as (qw & Hqw & Hnw & _).
      apply wp_bind. apply (wp_getT_ptrs w' qw); [exact Hqw|]. intros nw _ Hpw.
      replace (t_node nw) with (Some w') by (now rewrite <- Hnw, <- Hpw).
      rewrite Hnodev.
      apply wp_bind. eapply wp_mono.
      { apply wp_defaultSeparation; destruct H1 as [-> _]; rewrite Hh; now apply real_hn. }
      intros sep s1' ->.
      apply wp_bind. eapply wp_mono.
      { apply wp_modT_num; [exact (sp_is_Some _ _ _ H1 Hvs)|reflexivity]. }
      intros u2 s2 H2. pose proof (sp_trans _ _ _ H1 H2) as H12.
      eapply wp_mono.
      { apply wp_modT_num; [exact (sp_is_Some _ _ _ H12 Hvs)|reflexivity]. }
      intros u3 s3 H3. exact (sp_trans _ _ _ H12 H3).
    + eapply wp_mono.
      { apply wp_modT_num; [exact (sp_is_Some _ _ _ H1 Hvs)|reflexivity]. }
      intros u2 s2 H2. exact (sp_trans _ _ _ H1 H2).
  - destruct w as [w'|].
    + apply (Hsep w' s eq_refl). apply sp_refl.
    + apply wp_ret, sp_refl.
Qed.

(** [contours P c0 cl R]: the left contour from [c0] and the right
    contour from [cl] are equally long and stay within [R]. *)
Definition contours (P : list Ptrs) (c0 cl : nat) (R : nat -> Prop) : Prop :=
  exists lL lR, chain (nlP P) c0 lL /\ chain (nrP P) cl lR
                /\ length lL = length lR /\ Forall R lL /\ Forall R lR.

(** Setting [p.A] keeps the invariant and the links. *)
Lemma wp_set_A p' a s :
  Inv (pstate s) -> is_Some (pstate s !! p') -> is_Some (pstate s !! a) ->
  wp (modT p' (set_t_A (Some a)))
     (fun _ s' => hnodes s' = hnodes s /\ Inv (pstate s')
                  /\ length (pstate s') = length (pstate s)
                  /\ forall x, linkf (pstate s') x = linkf (pstate s) x) s.
Proof.
  intros HI [qp Hqp] Ha.
  eapply wp_mono.
  { apply (wp_modT_ptrs p' (set_t_A (Some a)) qp (q_set_A (Some a) qp)); [exact Hqp|].
    intros n <-. reflexivity. }
  intros u s1 [Hh1 HP1]. rewrite HP1. splits.
  - exact Hh1.
  - destruct HI as [HS HI']. destruct (HI' p' qp Hqp) as (H1 & H2 & H3).
    apply (Inv_insert _ _ qp _ (conj HS HI') Hqp).
    + reflexivity.
    + exact H1.
    + simpl. intros ? [= <-]. exact Ha.
    + exact H3.
  - apply length_insert.
  - now apply (linkf_insert_same _ _ qp).
Qed.

(** [firstWalk] on a first child: the contours of its subtree become those
    of the forest; no link changes. *)
Lemma wp_firstWalk_first fuel v p sibl s :
  hnodes s = hn -> Inv (pstate s) -> real v ->
  (exists qv, pstate s !! v = Some qv /\ q_parent qv = Some p /\ q_i qv = 0) ->
  (exists qp, pstate s !! p = Some qp /\ q_children qp = Some sibl) ->
  sibl !! 0 = Some v ->
  wp (firstWalk fuel v)
     (fun _ s' => hnodes s' = hn /\ Inv (pstate s')
                  /\ length (pstate s') = length (pstate s)
                  /\ forall x, linkf (pstate s') x = linkf (pstate s) x) s.
Proof.
  intros Hh HI Rv (qv & Hqv & Hpar & Hi) (qp & Hqp & Hsib) Hv0.
  unfold firstWalk.
  apply wp_bind. apply (wp_getT_ptrs v qv); [exact Hqv|]. intros nv Hnv Hpv.
  apply wp_bind. eapply wp_nonnull; [rewrite <- Hpar, <- Hpv; reflexivity|].
  apply wp_bind. apply (wp_getT_ptrs p qp); [exact Hqp|]. intros np _ Hpp.
  apply wp_bind. eapply wp_nonnull; [rewrite <- Hsib, <- Hpp; reflexivity|].
  replace (t_i nv) with 0 by (now rewrite <- Hi, <- Hpv). cbv zeta.
  apply wp_bind_sp.
  { apply (wp_place v nv None); auto. discriminate. }
  intros _ s1 H1. pose proof (sp_Inv _ _ H1 HI) as HI1.
  pose proof (sp_lookup _ _ _ _ H1 Hqp) as Hqp1.
  apply wp_bind. apply (wp_getT_ptrs p qp); [exact Hqp1|]. intros np1 _ Hpp1.
  assert (Hanc : exists anc,
             match t_A np1 with Some a => Some a | None => sibl !! 0 end = Some anc
             /\ is_Some (pstate s1 !! anc)).
  { destruct (t_A np1) as [a|] eqn:EA.
    - exists a. split; [reflexivity|].
      destruct HI1 as [_ HI1]. destruct (HI1 p qp Hqp1) as (_ & HA & _).
      apply HA. now rewrite <- Hpp1.
    - exists v. split; [exact Hv0|]. now apply Inv_real_is_Some. }
  destruct Hanc as (anc & -> & Hanc).
  apply wp_bind. cbn [apportion]. apply wp_ret.
  eapply wp_mono.
  { apply (wp_set_A p anc); [exact HI1|now exists qp|exact Hanc]. }
  intros u s2 (Hh2 & HI2 & Hlen2 & HL2).
  destruct H1 as [Hh1 HP1]. splits.
  - congruence.
  - exact HI2.
  - rewrite Hlen2. now rewrite HP1.
  - intros x. rewrite HL2. now rewrite HP1.
Qed.

(** [firstWalk] on a later child: the contours of the forest to its left
    and of its subtree are joined. *)
Lemma wp_firstWalk_next fuel v w c0 p sibl j (RL RV : nat -> Prop) s :
  hnodes s = hn -> Inv (pstate s) -> real v -> real w -> real c0 ->
  (exists qv, pstate s !! v = Some qv /\ q_parent qv = Some p /\ q_i qv = S j) ->
  (exists qp, pstate s !! p = Some qp /\ q_children qp = Some sibl) ->
  sibl !! 0 = Some c0 -> sibl !! j = Some w ->
  contours (pstate s) c0 w RL -> contours (pstate s) v v RV ->
  RL c0 -> RV v -> (forall x, RV x -> ~ RL x) ->
  (forall l, NoDup l -> Forall real l -> length l < fuel) ->
  wp (firstWalk fuel v)
     (fun _ s' => hnodes s' = hn /\ Inv (pstate s')
                  /\ length (pstate s') = length (pstate s)
                  /\ contours (pstate s') c0 v (fun x => RL x \/ RV x)
                  /\ forall x, ~ RL x -> ~ RV x ->
                               linkf (pstate s') x = linkf (pstate s) x) s.
Proof.
  intros Hh HI Rv Rw Rc0 (qv & Hqv & Hpar & Hi) (qp & Hqp & Hsib) Hc0 Hw
         (lL & lR & CL & CR & LLR & FL & FR) (lvL & lvR & CvL & CvR & LvLR & FvL & FvR)
         HRL HRV Hdisj Hfuel.
  unfold firstWalk.
  apply wp_bind. apply (wp_getT_ptrs v qv); [exact Hqv|]. intros nv Hnv Hpv.
  apply wp_bind. eapply wp_nonnull; [rewrite <- Hpar, <- Hpv; reflexivity|].
  apply wp_bind. apply (wp_getT_ptrs p qp); [exact Hqp|]. intros np _ Hpp.
  apply wp_bind. eapply wp_nonnull; [rewrite <- Hsib, <- Hpp; reflexivity|].
  replace (t_i nv) with (S j) by (now rewrite <- Hi, <- Hpv). cbv zeta.
  rewrite Hw.
  apply wp_bind_sp.
  { apply (wp_place v nv (Some w)); auto. now intros ? [= <-]. }
  intros _ s1 H1. pose proof (sp_Inv _ _ H1 HI) as HI1.
  pose proof (sp_lookup _ _ _ _ H1 Hqp) as Hqp1.
  pose proof (sp_lookup _ _ _ _ H1 Hqv) as Hqv1.
  destruct H1 as [Hh1 HP1].
  apply wp_bind. apply (wp_getT_ptrs p qp); [exact Hqp1|]. intros np1 _ Hpp1.
  assert (Hanc : exists anc,
             match t_A np1 with Some a => Some a | None => sibl !! 0 end = Some anc
             /\ is_Some (pstate s1 !! anc)).
  { destruct (t_A np1) as [a|] eqn:EA.
    - exists a. split; [reflexivity|].
      destruct HI1 as [_ HI1]. destruct (HI1 p qp Hqp1) as (_ & HA & _).
      apply HA. now rewrite <- Hpp1.
    - exists c0. split; [exact Hc0|]. now apply Inv_real_is_Some. }
  destruct Hanc as (anc & -> & Hanc).
  assert (Hlen : length lR < fuel).
  { apply Hfuel.
    - pose proof (chain_NoDup _ _ _ CR) as Hnd. now apply NoDup_cons in Hnd as [_ ?].
    - now apply (chainR_real (pstate s) w). }
  apply wp_bind. eapply wp_mono.
  { apply (wp_apportion fuel v w anc p sibl c0 lL lR lvL lvR); auto;
      try (rewrite HP1; assumption).
    - congruence.
    - exists qv. now split.
    - exists qp. now split.
    - intros x Hx Hx'.
      assert (RV x).
      { apply elem_of_cons in Hx as [->|Hx]; [exact HRV|].
        rewrite Forall_forall in FvL, FvR.
        apply elem_of_app in Hx as [Hx|Hx]; auto. }
      assert (RL x).
      { apply elem_of_cons in Hx' as [->|Hx']; [exact HRL|].
        rewrite Forall_forall in FL, FR.
        apply elem_of_app in Hx' as [Hx'|Hx']; auto. }
      now apply (Hdisj x).
    - lia. }
  intros r s2 (Hh2 & HI2 & Hlen2 & (a' & -> & Ha') & (lL' & lR' & CL' & CR' & LL' & FL' & FR') & Hfr2).
  eapply wp_mono.
  { apply (wp_set_A p a'); auto.
    apply lookup_lt_is_Some. rewrite Hlen2. apply lookup_lt_is_Some. now exists qp. }
  intros u s3 (Hh3 & HI3 & Hlen3 & HL3). splits.
  - congruence.
  - exact HI3.
  - rewrite Hlen3, Hlen2. now rewrite HP1.
  - exists lL', lR'. splits.
    + now apply (chainL_links (pstate s2)).
    + now apply (chainR_links (pstate s2)).
    + exact LL'.
    + eapply Forall_impl; [exact FL'|]. simpl. intros x Hx.
      rewrite Forall_forall in FL, FvL.
      apply elem_of_app in Hx as [Hx|Hx]; auto.
    + eapply Forall_impl; [exact FR'|]. simpl. intros x Hx.
      rewrite Forall_forall in FR, FvR.
      apply elem_of_app in Hx as [Hx|Hx]; auto.
  - intros x HxL HxV. rewrite HL3, Hfr2; [now rewrite HP1|].
    intros Hx. apply elem_of_app in Hx as [Hx|Hx].
    + apply HxL. apply elem_of_cons in Hx as [->|Hx]; [exact HRL|].
      rewrite Forall_forall in FL. auto.
    + apply HxV. apply elem_of_cons in Hx as [->|Hx]; [exact HRV|].
      rewrite Forall_forall in FvR. auto.
Qed.

(** The callbacks of [eachAfter] come in postorder. *)
Fixpoint post (t : Tree (nat * nat)) : list nat :=
  match t with Node a ks => flat_map post ks ++ [fst a] end.

(** [stree p i T]: the tree nodes of [T] are linked as in [T], under the
    [i]-th place of [p]. *)
Inductive stree : nat -> nat -> Tree (nat * nat) -> Prop :=
| stree_intro p i id r ks st :
    S0 !! id = Some st -> s_node st = Some id -> s_parent st = Some p -> s_i st = i ->
    s_children st = match ks with [] => None | _ => Some (map id_of ks) end ->
    (forall j k, ks !! j = Some k -> stree id j k) ->
    stree p i (Node (id, r) ks).

(** No thread leaves a node that the walk has not reached. *)
Definition fresh (P : list Ptrs) (x : nat) : Prop :=
  exists q, P !! x = Some q /\ q_t q = None.

Lemma fresh_links P P' x : linkf P' x = linkf P x -> fresh P x -> fresh P' x.
Proof.
  unfold linkf, fresh. intros H (q & Hq & Ht). rewrite Hq in H.
  destruct (P' !! x) as [q'|]; [|discriminate].
  injection H as _ H. exists q'. split; [reflexivity|congruence].
Qed.

Lemma contours_links P P' c0 cl (R : nat -> Prop) :
  R c0 -> R cl -> (forall x, R x -> linkf P' x = linkf P x) ->
  contours P c0 cl R -> contours P' c0 cl R.
Proof.
  intros H0 Hl Hfr (lL & lR & CL & CR & Hlen & FL & FR).
  rewrite Forall_forall in FL, FR.
  exists lL, lR. splits; try assumption; try (now apply Forall_forall).
  - eapply chain_frame; [|exact CL]. intros x Hx. apply nlP_linkf, Hfr.
    apply elem_of_cons in Hx as [->|Hx]; auto.
  - eapply chain_frame; [|exact CR]. intros x Hx. apply nrP_linkf, Hfr.
    apply elem_of_cons in Hx as [->|Hx]; auto.
Qed.

Lemma contours_mono P c0 cl (R R' : nat -> Prop) :
  (forall x, R x -> R' x) -> contours P c0 cl R -> contours P c0 cl R'.
Proof.
  intros H (lL & lR & CL & CR & Hlen & FL & FR).
  exists lL, lR. splits; try assumption; eapply Forall_impl; eauto.
Qed.

Lemma Inv_lookup_static P v st :
  Inv P -> S0 !! v = Some st -> exists q, P !! v = Some q /\ static q = st.
Proof.
  intros [HS _] Hst. rewrite <- HS, map_fmap, list_lookup_fmap in Hst.
  destruct (P !! v) as [q|]; [|discriminate]. injection Hst as Hst. now exists q.
Qed.

Lemma wp_bind_inv {A B} (m : M A) (k : A -> M B) Q s :
  wp (bind m k) Q s -> wp m (fun a s' => wp (k a) Q s') s.
Proof.
  unfold wp at 1. unfold bind. intros (b & s2 & H & HQ).
  destruct (m s) as [[a s1]| |] eqn:E; try discriminate.
  exists a, s1. split; [exact E|]. now exists b, s2.
Qed.

Lemma wp_forEach_app {A} (f : A -> M unit) l1 l2 Q s :
  wp (forEach f l1) (fun _ s' => wp (forEach f l2) Q s') s ->
  wp (forEach f (l1 ++ l2)) Q s.
Proof.
  revert s. induction l1 as [|a l1 IH]; intros s H.
  - destruct H as (u & s' & H & HQ). injection H as _ <-. exact HQ.
  - cbn [forEach app]. apply wp_bind_inv in H. apply wp_bind.
    eapply wp_mono; [exact H|]. intros u s1 H1. now apply IH.
Qed.

Lemma id_of_in_ids (T : Tree (nat * nat)) : id_of T ∈ ids T.
Proof. destruct T as [[id r] ks]. rewrite ids_cons. apply list_elem_of_here. Qed.

Lemma ids_in_flat_map (ks : list (Tree (nat * nat))) k x :
  k ∈ ks -> x ∈ ids k -> x ∈ flat_map ids ks.
Proof.
  intros Hk Hx. apply list_elem_of_In, in_flat_map. exists k.
  split; now apply list_elem_of_In.
Qed.

Lemma post_eq (T : Tree (nat * nat)) : post T = flat_map post (kids T) ++ [id_of T].
Proof. now destruct T as [[id r] ks]. Qed.

Lemma stree_root p i T :
  stree p i T ->
  exists st, S0 !! id_of T = Some st /\ s_parent st = Some p /\ s_i st = i
             /\ s_children st = match kids T with
                                | [] => None
                                | _ => Some (map id_of (kids T))
                                end
             /\ forall j k, kids T !! j = Some k -> stree (id_of T) j k.
Proof. intros H. inversion H; subst. exists st. now splits. Qed.

Lemma Inv_lookup_root P p i T :
  Inv P -> stree p i T ->
  exists q, P !! id_of T = Some q /\ q_parent q = Some p /\ q_i q = i
            /\ q_children q = match kids T with
                               | [] => None
                               | _ => Some (map id_of (kids T))
                               end.
Proof.
  intros HI HT. destruct (stree_root _ _ _ HT) as (st & Hst & Hp & Hi & Hc & _).
  destruct (Inv_lookup_static _ _ _ HI Hst) as (q & Hq & <-). now exists q.
Qed.

Section Forest.

Variable fuel : nat.
Hypothesis enough : forall l, NoDup l -> Forall real l -> length l < fuel.

(** What the walk below the root of [T] establishes: the two contours of
    [T] are equally long, and no link outside [T] has changed. *)
Definition walk_spec (T : Tree (nat * nat)) : Prop :=
  forall p i s, stree p i T -> NoDup (ids T) -> Forall real (ids T) ->
    hnodes s = hn -> Inv (pstate s) -> (forall x, x ∈ ids T -> fresh (pstate s) x) ->
    wp (forEach (firstWalk fuel) (flat_map post (kids T)))
       (fun _ s' => hnodes s' = hn /\ Inv (pstate s')
          /\ length (pstate s') = length (pstate s)
          /\ contours (pstate s') (id_of T) (id_of T) (fun x => x ∈ ids T)
          /\ forall x, x ∉ ids T -> linkf (pstate s') x = linkf (pstate s) x) s.

(** The state between two siblings. *)
Definition between (sibl : list nat) (ks1 : list (Tree (nat * nat))) (k : Tree (nat * nat))
    (s1 s2 : LState) : Prop :=
  hnodes s2 = hn /\ Inv (pstate s2) /\ length (pstate s2) = length (pstate s1)
  /\ (forall c0, sibl !! 0 = Some c0 ->
        contours (pstate s2) c0 (id_of k) (fun x => x ∈ flat_map ids (ks1 ++ [k])))
  /\ (forall x, x ∉ flat_map ids ks1 -> x ∉ ids k ->
                linkf (pstate s2) x = linkf (pstate s1) x).

Lemma wp_firstWalk_child v sibl ks1 k ks2 s s1 :
  stree v (length ks1) k ->
  sibl = map id_of (ks1 ++ k :: ks2) ->
  (exists st, S0 !! v = Some st /\ s_children st = Some sibl) ->
  NoDup (flat_map ids ks1 ++ ids k) -> Forall real (flat_map ids ks1) ->
  Forall real (ids k) ->
  hnodes s1 = hn -> Inv (pstate s1) ->
  (forall c0 kl, sibl !! 0 = Some c0 -> last ks1 = Some kl ->
       contours (pstate s) c0 (id_of kl) (fun x => x ∈ flat_map ids ks1)) ->
  contours (pstate s1) (id_of k) (id_of k) (fun x => x ∈ ids k) ->
  (forall x, x ∉ ids k -> linkf (pstate s1) x = linkf (pstate s) x) ->
  wp (firstWalk fuel (id_of k)) (fun _ s2 => between sibl ks1 k s1 s2) s1.
Proof.
  intros Hstk Hsib (stv & Hstv & Hcv) Hnd Hr1 Hrk Hh1 HI1 Hcont CA Hfr1.
  apply NoDup_app in Hnd as (Hnd1 & Hd1 & Hndk).
  destruct (Inv_lookup_root _ _ _ _ HI1 Hstk) as (qv & Hqv & Hpv & Hiv & _).
  destruct (Inv_lookup_static _ _ _ HI1 Hstv) as (qp & Hqp & Hsp).
  assert (Hqc : q_children qp = Some sibl) by (now rewrite <- Hcv, <- Hsp).
  assert (Rk : real (id_of k)).
  { rewrite Forall_forall in Hrk. apply Hrk, id_of_in_ids. }
  destruct ks1 as [|kc ks1r].
  - eapply wp_mono.
    { apply (wp_firstWalk_first fuel (id_of k) v sibl);
        [exact Hh1|exact HI1|exact Rk|exists qv; now splits|exists qp; now split
        |now rewrite Hsib]. }
    intros u s2 (Hh2 & HI2 & Hlen2 & HL2). unfold between. splits; auto.
    intros c0 Hc0. rewrite Hsib in Hc0. injection Hc0 as <-.
    apply (contours_mono _ _ _ (fun x => x ∈ ids k)).
    { intros x Hx. cbn [app flat_map]. now rewrite app_nil_r. }
    apply (contours_links (pstate s1)); auto using id_of_in_ids.
  - destruct (last (kc :: ks1r)) as [kl|] eqn:Hlast.
    2:{ apply last_None in Hlast. discriminate. }
    assert (Hkl : (kc :: ks1r) !! length ks1r = Some kl).
    { now rewrite last_lookup in Hlast. }
    assert (Hkl_in : kl ∈ kc :: ks1r) by (now apply list_elem_of_lookup_2 in Hkl).
    assert (Hw : sibl !! length ks1r = Some (id_of kl)).
    { rewrite Hsib, map_fmap, list_lookup_fmap, lookup_app_l by (simpl; lia).
      now rewrite Hkl. }
    assert (Hc0 : sibl !! 0 = Some (id_of kc)) by (now rewrite Hsib).
    assert (Hc0_in : id_of kc ∈ flat_map ids (kc :: ks1r)).
    { apply (ids_in_flat_map _ kc); [apply list_elem_of_here|apply id_of_in_ids]. }
    assert (Hkl_ids : id_of kl ∈ flat_map ids (kc :: ks1r)).
    { apply (ids_in_flat_map _ kl); [exact Hkl_in|apply id_of_in_ids]. }
    rewrite Forall_forall in Hr1.
    eapply wp_mono.
    { apply (wp_firstWalk_next fuel (id_of k) (id_of kl) (id_of kc) v sibl (length ks1r)
                (fun x => x ∈ flat_map ids (kc :: ks1r)) (fun x => x ∈ ids k));
        [exact Hh1|exact HI1|exact Rk|now apply Hr1|now apply Hr1
        |exists qv; now splits|exists qp; now split|exact Hc0|exact Hw
        | |exact CA|exact Hc0_in|apply id_of_in_ids| |exact enough].
      + apply (contours_links (pstate s)); auto.
      + intros x Hx Hx'. now apply (Hd1 x). }
    intros u s2 (Hh2 & HI2 & Hlen2 & C2 & Hfr2). unfold between. splits; auto.
    intros c0 Hc0'. rewrite Hc0 in Hc0'. injection Hc0' as <-.
    eapply contours_mono; [|exact C2]. intros x Hx.
    rewrite flat_map_app. cbn [flat_map]. rewrite app_nil_r.
    apply elem_of_app. exact Hx.
Qed.

Lemma wp_forest v sibl ks2 : forall ks1 s,
  Forall walk_spec ks2 ->
  (forall j k, (ks1 ++ ks2) !! j = Some k -> stree v j k) ->
  sibl = map id_of (ks1 ++ ks2) ->
  (exists st, S0 !! v = Some st /\ s_children st = Some sibl) ->
  NoDup (flat_map ids (ks1 ++ ks2)) -> Forall real (flat_map ids (ks1 ++ ks2)) ->
  hnodes s = hn -> Inv (pstate s) ->
  (forall x, x ∈ flat_map ids ks2 -> fresh (pstate s) x) ->
  (forall c0 kl, sibl !! 0 = Some c0 -> last ks1 = Some kl ->
       contours (pstate s) c0 (id_of kl) (fun x => x ∈ flat_map ids ks1)) ->
  wp (forEach (firstWalk fuel) (flat_map post ks2))
     (fun _ s' => hnodes s' = hn /\ Inv (pstate s')
        /\ length (pstate s') = length (pstate s)
        /\ (forall c0 kl, sibl !! 0 = Some c0 -> last (ks1 ++ ks2) = Some kl ->
              contours (pstate s') c0 (id_of kl)
                       (fun x => x ∈ flat_map ids (ks1 ++ ks2)))
        /\ forall x, x ∉ flat_map ids (ks1 ++ ks2) ->
                     linkf (pstate s') x = linkf (pstate s) x) s.
Proof.
  induction ks2 as [|k ks2 IH];
    intros ks1 s Hall Hst Hsib Hv Hnd Hreal Hh HI Hfresh Hcont.
  - apply wp_ret. rewrite app_nil_r in *. splits; auto.
  - cbn [flat_map]. apply wp_forEach_app. rewrite post_eq. apply wp_forEach_app.
    apply Forall_cons in Hall as [Hk Hall].
    assert (Hstk : stree v (length ks1) k).
    { apply Hst. rewrite lookup_app_r by lia. now rewrite Nat.sub_diag. }
    pose proof Hnd as Hnd0. pose proof Hreal as Hreal0.
    rewrite flat_map_app in Hnd, Hreal. cbn [flat_map] in Hnd, Hreal.
    rewrite app_assoc in Hnd.
    apply NoDup_app in Hnd as (Hnd1 & Hd1 & Hnd3).
    apply Forall_app in Hreal as [Hr1 Hr2]. apply Forall_app in Hr2 as [Hrk Hr3].
    pose proof Hnd1 as Hnd1'.
    apply NoDup_app in Hnd1' as (_ & Hdk & Hndk).
    eapply wp_mono.
    { apply (Hk v (length ks1) s); auto.
      intros x Hx. apply Hfresh. cbn [flat_map]. apply elem_of_app. now left. }
    intros u s1 (Hh1 & HI1 & Hlen1 & CA & Hfr1).
    cbn [forEach]. apply wp_bind. eapply wp_mono.
    { apply (wp_firstWalk_child v sibl ks1 k ks2 s s1); auto. }
    intros u2 s2 (Hh2 & HI2 & Hlen2 & C2 & Hfr2). apply wp_ret.
    assert (E : (ks1 ++ [k]) ++ ks2 = ks1 ++ k :: ks2) by (now rewrite <- app_assoc).
    specialize (IH (ks1 ++ [k]) s2). rewrite E in IH.
    eapply wp_mono.
    { apply IH; auto.
      - intros x Hx. apply (fresh_links (pstate s1)).
        + apply Hfr2.
          * intros Hx'. apply (Hd1 x); [|exact Hx]. apply elem_of_app. now left.
          * intros Hx'. apply (Hd1 x); [|exact Hx]. apply elem_of_app. now right.
        + apply (fresh_links (pstate s)).
          * apply Hfr1. intros Hx'. apply (Hd1 x); [|exact Hx]. apply elem_of_app. now right.
          * apply Hfresh. cbn [flat_map]. apply elem_of_app. now right.
      - intros c0 kl Hc0 Hl. rewrite last_snoc in Hl. injection Hl as <-. now apply C2. }
    intros u3 s3 (Hh3 & HI3 & Hlen3 & C3 & Hfr3). splits; auto.
    + congruence.
    + intros x Hx. rewrite Hfr3 by exact Hx.
      rewrite flat_map_app in Hx. cbn [flat_map] in Hx.
      apply not_elem_of_app in Hx as [Hx1 Hx2]. apply not_elem_of_app in Hx2 as [Hx2 Hx3].
      rewrite Hfr2 by assumption. now apply Hfr1.
Qed.

(** The walk below any node. *)
Lemma wp_walk T : walk_spec T.
Proof.
  induction T as [[v r] ks IH] using Tree_ind'.
  intros p i s HT Hnd Hreal Hh HI Hfresh.
  destruct (stree_root _ _ _ HT) as (st & Hst & Hp & Hi & Hc & Hks).
  cbn [kids id_of label fst] in *.
  rewrite ids_cons in Hnd, Hreal. cbn [fst] in Hnd, Hreal.
  apply NoDup_cons in Hnd as [Hv Hnd]. apply Forall_cons in Hreal as [Rv Hreal].
  destruct ks as [|kc ks'] eqn:Eks.
  - apply wp_ret. splits; auto.
    destruct (Hfresh v) as (q & Hq & Ht); [rewrite ids_cons; apply list_elem_of_here|].
    assert (Hqc : q_children q = None).
    { pose proof (Inv_static _ _ _ HI Hq) as Hs. rewrite Hst in Hs.
      injection Hs as ->. exact Hc. }
    exists [], []. splits; try constructor.
    + unfold nlP. now rewrite Hq, Hqc.
    + unfold nrP. now rewrite Hq, Hqc.
  - rewrite <- Eks in *.
    eapply wp_mono.
    { apply (wp_forest v (map id_of ks) ks [] s); auto.
      - exists st. split; [exact Hst|]. rewrite Hc, Eks. reflexivity.
      - intros x Hx. apply Hfresh. rewrite ids_cons. now apply list_elem_of_further.
      - intros c0 kl _ Hl. discriminate. }
    intros u s1 (Hh1 & HI1 & Hlen1 & C1 & Hfr1). cbn [app] in *.
    destruct (last ks) as [kl|] eqn:Hlast.
    2:{ apply last_None in Hlast. congruence. }
    destruct (C1 (id_of kc) kl) as (lL & lR & CL & CR & Hlen & FL & FR);
      [now rewrite Eks|reflexivity|].
    destruct (Inv_lookup_static _ _ _ HI1 Hst) as (q & Hq & Hsq).
    assert (Hqc : q_children q = Some (map id_of ks)).
    { change (q_children q) with (s_children (static q)). rewrite Hsq, Hc, Eks.
      reflexivity. }
    splits; auto.
    + exists (id_of kc :: lL), (id_of kl :: lR). splits.
      * apply chain_cons; [|exact CL]. unfold nlP. rewrite Hq, Hqc, Eks. reflexivity.
      * apply chain_cons; [|exact CR]. unfold nrP.
        rewrite Hq, Hqc, map_fmap, fmap_last, Hlast. reflexivity.
      * simpl. now rewrite Hlen.
      * constructor.
        -- rewrite ids_cons. apply list_elem_of_further.
           apply (ids_in_flat_map _ kc); [rewrite Eks; apply list_elem_of_here
                                         |apply id_of_in_ids].
        -- eapply Forall_impl; [exact FL|]. intros x Hx. rewrite ids_cons.
           now apply list_elem_of_further.
      * constructor.
        -- rewrite ids_cons. apply list_elem_of_further.
           apply (ids_in_flat_map _ kl); [now apply last_Some_elem_of|apply id_of_in_ids].
        -- eapply Forall_impl; [exact FR|]. intros x Hx. rewrite ids_cons.
           now apply list_elem_of_further.
    + intros x Hx. apply Hfr1. intros Hx'. apply Hx. rewrite ids_cons.
      now apply list_elem_of_further.
Qed.

(** The whole first walk, from the root [T] under its parent [p]. *)
Lemma wp_firstWalk_all p T s :
  stree p 0 T ->
  (exists st, S0 !! p = Some st /\ s_children st = Some [id_of T]) ->
  NoDup (ids T) -> Forall real (ids T) ->
  hnodes s = hn -> Inv (pstate s) -> (forall x, x ∈ ids T -> fresh (pstate s) x) ->
  wp (forEach (firstWalk fuel) (post T))
     (fun _ s' => hnodes s' = hn /\ Inv (pstate s')
                  /\ length (pstate s') = length (pstate s)) s.
Proof.
  intros HT (stp & Hstp & Hcp) Hnd Hreal Hh HI Hfresh.
  rewrite post_eq. apply wp_forEach_app. eapply wp_mono.
  { apply (wp_walk T p 0 s); auto. }
  intros u s1 (Hh1 & HI1 & Hlen1 & _ & _).
  cbn [forEach]. apply wp_bind.
  destruct (Inv_lookup_root _ _ _ _ HI1 HT) as (qv & Hqv & Hpv & Hiv & _).
  destruct (Inv_lookup_static _ _ _ HI1 Hstp) as (qp & Hqp & Hsp).
  eapply wp_mono.
  { apply (wp_firstWalk_first fuel (id_of T) p [id_of T]);
      [exact Hh1|exact HI1| |exists qv; now splits|exists qp; split; [exact Hqp|]
      |reflexivity].
    - rewrite Forall_forall in Hreal. apply Hreal, id_of_in_ids.
    - now rewrite <- Hcp, <- Hsp. }
  intros u2 s2 (Hh2 & HI2 & Hlen2 & _). apply wp_ret. splits; auto. congruence.
Qed.

End Forest.

End FirstWalk.

(** ** The numbering of the nodes

    [hierarchy] and [treeRoot] hand out the same identifiers, each one
    once. *)

Section Numbering.

Definition below (T : Tree (nat * nat)) : list nat := flat_map ids (kids T).

Lemma ids_below T : ids T = id_of T :: below T.
Proof. destruct T as [[id r] ks]. now rewrite ids_cons. Qed.

Definition numbered_spec (T : Tree (nat * nat)) : Prop :=
  forall L L', numbered L T L' ->
    L <= L' /\ Forall (fun j => L <= j < L') (below T) /\ NoDup (below T).

Lemma numbered_list (ks : list (Tree (nat * nat))) :
  Forall numbered_spec ks ->
  forall M L', threaded numbered M ks L' ->
    NoDup (map id_of ks) -> Forall (fun j => j < M) (map id_of ks) ->
    M <= L'
    /\ Forall (fun j => j ∈ map id_of ks \/ M <= j < L') (flat_map ids ks)
    /\ NoDup (flat_map ids ks).
Proof.
  induction 1 as [|k ks Hk Hks IH]; intros M L' Hth Hnd Hlt.
  - inversion Hth; subst. splits; [lia|constructor|constructor].
  - inversion Hth as [|? L1 ? ? ? Hn Hth']; subst.
    cbn [map] in Hnd, Hlt. apply NoDup_cons in Hnd as [Hk_notin Hnd].
    apply Forall_cons in Hlt as [Hk_lt Hlt].
    destruct (Hk M L1 Hn) as (HML1 & Hrange_k & Hnd_k).
    destruct (IH L1 L' Hth' Hnd) as (HL1L' & Hrange & Hnd_ks).
    { eapply Forall_impl; [exact Hlt|]. simpl. intros. lia. }
    rewrite Forall_forall in Hrange_k, Hrange, Hlt.
    splits.
    + lia.
    + cbn [flat_map map]. rewrite ids_below. constructor; [left; apply list_elem_of_here|].
      apply Forall_app. split; apply Forall_forall; intros x Hx.
      * right. specialize (Hrange_k x Hx). lia.
      * destruct (Hrange x Hx) as [Hin|Hin]; [left; now apply list_elem_of_further|right; lia].
    + cbn [flat_map]. rewrite ids_below. apply NoDup_cons. split.
      * intros Hin. apply elem_of_app in Hin as [Hin|Hin].
        -- specialize (Hrange_k _ Hin). lia.
        -- destruct (Hrange _ Hin) as [Hin'|Hin']; [contradiction|lia].
      * apply NoDup_app. splits; [exact Hnd_k| |exact Hnd_ks].
        intros x Hx Hx'. specialize (Hrange_k x Hx).
        destruct (Hrange x Hx') as [Hin|Hin]; [|lia].
        specialize (Hlt x Hin). lia.
Qed.

Lemma numbered_ok T : numbered_spec T.
Proof.
  induction T as [[id r] ks IH] using Tree_ind'. intros L L' Hn.
  inversion Hn as [|? ? ? ? Hne Hids Hth]; subst.
  - splits; [lia|constructor|constructor].
  - destruct (numbered_list ks IH (L + length ks) L' Hth) as (Hle & Hrange & Hnd).
    { rewrite Hids. apply NoDup_child_ids. }
    { rewrite Hids. apply Forall_forall. intros x Hx. apply child_ids_range in Hx. lia. }
    unfold below. cbn [kids]. splits; [lia| |exact Hnd].
    eapply Forall_impl; [exact Hrange|]. simpl. intros x [Hx|Hx]; [|lia].
    rewrite Hids in Hx. apply child_ids_range in Hx. lia.
Qed.

Lemma numbered_NoDup L T L' : numbered L T L' -> id_of T < L -> NoDup (ids T).
Proof.
  intros Hn Hlt. destruct (numbered_ok T L L' Hn) as (_ & Hrange & Hnd).
  rewrite ids_below. apply NoDup_cons. split; [|exact Hnd].
  intros Hin. rewrite Forall_forall in Hrange. specialize (Hrange _ Hin). lia.
Qed.

Lemma length_ids T : length (ids T) = tsize T.
Proof.
  induction T as [[id r] ks IH] using Tree_ind'. rewrite ids_cons. simpl. f_equal.
  induction IH as [|k ks Hk _ IHks]; [reflexivity|].
  simpl. now rewrite length_app, Hk, IHks.
Qed.

End Numbering.

(** ** [treeRoot] mirrors the hierarchy *)

Section TreeRoot.

(** A tree node as [treeRoot] leaves it. *)
Definition fresh_node (id : nat) (parent : option nat) (cs : option (list nat)) (i : nat)
  : TreeNode :=
  mkTreeNode (Some id) parent cs None id 0%float 0%float 0%float 0%float None i.

(** [ttree tn parent i T]: the tree nodes of [T], as [treeRoot] leaves
    them, under the [i]-th place of [parent]. *)
Inductive ttree (tn : list TreeNode) : option nat -> nat -> Tree (nat * nat) -> Prop :=
| ttree_intro parent i id r ks :
    tn !! id = Some (fresh_node id parent
                       (match ks with [] => None | _ => Some (map id_of ks) end) i) ->
    (forall j k, ks !! j = Some k -> ttree tn (Some id) j k) ->
    ttree tn parent i (Node (id, r) ks).

Lemma ttree_frame tn tn' parent i T :
  (forall j, j ∈ ids T -> tn' !! j = tn !! j) ->
  ttree tn parent i T -> ttree tn' parent i T.
Proof.
  revert parent i. induction T as [[id r] ks IH] using Tree_ind'.
  intros parent i Hfr HT. inversion HT as [? ? ? ? ? Hn Hks]; subst.
  constructor.
  - rewrite Hfr; [exact Hn|]. rewrite ids_cons. apply list_elem_of_here.
  - intros j k Hk. rewrite Forall_forall in IH.
    assert (Hin : k ∈ ks) by (now apply list_elem_of_lookup_2 in Hk).
    apply IH; [exact Hin| |now apply Hks].
    intros x Hx. apply Hfr. rewrite ids_cons. apply list_elem_of_further.
    now apply (ids_in_flat_map _ k).
Qed.

Lemma new_tchildren_length base node cs : length (new_tchildren base node cs) = length cs.
Proof. unfold new_tchildren. now rewrite length_imap, length_rev. Qed.

Lemma new_tchildren_lookup (tn : list TreeNode) node cs j c :
  cs !! j = Some c ->
  (tn ++ new_tchildren (length tn) node cs) !! (length tn + (length cs - 1 - j))
  = Some (set_t_parent node
            (newTreeNode (length tn + (length cs - 1 - j)) (Some c) j)).
Proof.
  intros Hc. pose proof (lookup_lt_Some _ _ _ Hc) as Hj.
  rewrite lookup_app_r by lia.
  replace (length tn + (length cs - 1 - j) - length tn) with (length cs - 1 - j) by lia.
  unfold new_tchildren. rewrite list_lookup_imap, rev_reverse, reverse_lookup by lia.
  replace (length cs - S (length cs - 1 - j)) with j by lia.
  rewrite Hc. cbn [fmap option_fmap option_map]. do 3 f_equal. lia.
Qed.

Lemma treeRoot_loop_leaf fuel node rest s n hid hnd :
  tnodes s !! node = Some n -> t_node n = Some hid ->
  hnodes s !! hid = Some hnd -> n_children hnd = None ->
  treeRoot_loop (S fuel) (node :: rest) s = treeRoot_loop fuel rest s.
Proof.
  intros Hn Ht Hh Hc. cbn [treeRoot_loop]. unfold bind, getT, getH.
  rewrite (deref_Some _ _ _ Hn). cbn [lift]. rewrite Ht. cbn [nonnull ret].
  rewrite (deref_Some _ _ _ Hh). cbn [lift]. now rewrite Hc.
Qed.

Lemma treeRoot_loop_node fuel node rest s n hid hnd cs :
  tnodes s !! node = Some n -> t_node n = Some hid ->
  hnodes s !! hid = Some hnd -> n_children hnd = Some cs ->
  treeRoot_loop (S fuel) (node :: rest) s
  = treeRoot_loop fuel (child_ids (length (tnodes s)) (length cs) ++ rest)
      (mkLState (<[node := set_t_children (child_ids (length (tnodes s)) (length cs)) n]>
                   (tnodes s)
                 ++ new_tchildren (length (tnodes s)) node cs)
                (hnodes s)).
Proof.
  intros Hn Ht Hh Hc. cbn [treeRoot_loop]. unfold bind, getT, getH.
  rewrite (deref_Some _ _ _ Hn). cbn [lift]. rewrite Ht. cbn [nonnull ret].
  rewrite (deref_Some _ _ _ Hh). cbn [lift]. rewrite Hc.
  unfold sizeT, modT, allocT, bind, getT. rewrite (deref_Some _ _ _ Hn). cbn [lift].
  cbn [tnodes hnodes]. reflexivity.
Qed.

(** What the loop of [treeRoot] does with the pending mirror of the
    root of [T]. *)
Definition troot_spec (T : Tree (nat * nat)) : Prop :=
  forall fuel rest s parent i hpar d L',
    htree (hnodes s) hpar d T ->
    numbered (length (tnodes s)) T L' ->
    tnodes s !! id_of T = Some (fresh_node (id_of T) parent None i) ->
    exists tn',
      treeRoot_loop (tsize T + fuel) (id_of T :: rest) s
      = treeRoot_loop fuel rest (mkLState tn' (hnodes s))
      /\ length tn' = L'
      /\ length (tnodes s) <= L'
      /\ (forall j, j < length (tnodes s) -> j <> id_of T -> tn' !! j = tnodes s !! j)
      /\ Forall (fun j => j = id_of T \/ length (tnodes s) <= j < L') (ids T)
      /\ ttree tn' parent i T.

Lemma troot_list (ks : list (Tree (nat * nat))) :
  Forall troot_spec ks ->
  forall fuel rest s parent j0 hpar d L',
    Forall (htree (hnodes s) hpar d) ks ->
    threaded numbered (length (tnodes s)) ks L' ->
    NoDup (map id_of ks) ->
    (forall j k, ks !! j = Some k ->
       tnodes s !! id_of k = Some (fresh_node (id_of k) parent None (j0 + j))) ->
    exists tn',
      treeRoot_loop (list_sum (map tsize ks) + fuel) (map id_of ks ++ rest) s
      = treeRoot_loop fuel rest (mkLState tn' (hnodes s))
      /\ length tn' = L'
      /\ length (tnodes s) <= L'
      /\ (forall j, j < length (tnodes s) -> j ∉ map id_of ks -> tn' !! j = tnodes s !! j)
      /\ Forall (fun j => j ∈ map id_of ks \/ length (tnodes s) <= j < L') (flat_map ids ks)
      /\ (forall j k, ks !! j = Some k -> ttree tn' parent (j0 + j) k).
Proof.
  induction 1 as [|k ks Hk Hks IH];
    intros fuel rest s parent j0 hpar d L' Hht Hth Hnd Hpend.
  - inversion Hth; subst. exists (tnodes s). cbn [map list_sum app flat_map].
    splits; auto.
    + now destruct s.
    + intros j k Hk. discriminate.
  - inversion Hth as [|? L1 ? ? ? Hn Hth']; subst.
    apply Forall_cons in Hht as [Hhk Hht].
    cbn [map] in Hnd. apply NoDup_cons in Hnd as [Hk_notin Hnd].
    pose proof (Hpend 0 k eq_refl) as Hk0. rewrite Nat.add_0_r in Hk0.
    destruct (Hk (list_sum (map tsize ks) + fuel) (map id_of ks ++ rest) s parent j0
                 hpar d L1 Hhk Hn Hk0)
      as (tn1 & Hrun1 & Hlen1 & Hle1 & Hfr1 & Hrange1 & HT1).
    assert (Hpend' : forall j k', ks !! j = Some k' ->
                                  id_of k' < length (tnodes s) /\ id_of k' <> id_of k).
    { intros j k' Hj. split.
      - pose proof (Hpend (S j) k' Hj) as H'. now apply lookup_lt_Some in H'.
      - intros E. apply Hk_notin. rewrite <- E, map_fmap.
        apply list_elem_of_fmap. exists k'. split; [reflexivity|].
        now apply list_elem_of_lookup_2 in Hj. }
    destruct (IH fuel rest (mkLState tn1 (hnodes s)) parent (S j0) hpar d L')
      as (tn' & Hrun & Hlen & Hle & Hfr & Hrange & HTs).
    { exact Hht. }
    { cbn [tnodes]. now rewrite Hlen1. }
    { exact Hnd. }
    { intros j k' Hj. cbn [tnodes]. destruct (Hpend' j k' Hj) as [Hlt Hne].
      rewrite Hfr1 by assumption. rewrite (Hpend (S j) k' Hj). do 2 f_equal. lia. }
    cbn [tnodes hnodes] in *.
    assert (Hroots : forall x, x ∈ map id_of ks -> x < length (tnodes s) /\ x <> id_of k).
    { intros x Hx. rewrite map_fmap in Hx. apply list_elem_of_fmap in Hx as (k' & -> & Hin).
      apply list_elem_of_lookup in Hin as [j Hj]. now apply (Hpend' j). }
    assert (Hk_lt : id_of k < length (tnodes s)) by (now apply lookup_lt_Some in Hk0).
    exists tn'. splits.
    + cbn [map app]. unfold list_sum. cbn [fold_right]. fold (list_sum (map tsize ks)).
      rewrite <- Nat.add_assoc, Hrun1. exact Hrun.
    + exact Hlen.
    + lia.
    + intros j Hj Hnin. apply not_elem_of_cons in Hnin as [Hne Hnin].
      rewrite Hfr; [now apply Hfr1|lia|exact Hnin].
    + cbn [flat_map]. apply Forall_app. split.
      * eapply Forall_impl; [exact Hrange1|]. simpl. intros x [->|Hx].
        -- left. apply list_elem_of_here.
        -- right. lia.
      * eapply Forall_impl; [exact Hrange|]. simpl. intros x [Hx|Hx].
        -- left. now apply list_elem_of_further.
        -- right. lia.
    + intros [|j] k' Hj.
      * injection Hj as <-. rewrite Nat.add_0_r.
        apply (ttree_frame tn1); [|exact HT1].
        intros x Hx. rewrite Forall_forall in Hrange1. specialize (Hrange1 x Hx).
        apply Hfr.
        -- destruct Hrange1 as [->|Hx']; lia.
        -- intros Hin. destruct (Hroots x Hin) as [Hlt Hne].
           destruct Hrange1 as [->|Hx']; [congruence|lia].
      * replace (j0 + S j) with (S j0 + j) by lia. now apply HTs.
Qed.

(** The loop of [treeRoot] mirrors every tree of the hierarchy. *)
Lemma troot_ok T : troot_spec T.
Proof.
  induction T as [[id r] ks IH] using Tree_ind'.
  intros fuel rest s parent i hpar d L' Hht Hn Hpend. cbn [id_of label fst] in *.
  inversion Hht as [? ? ? ? ? nd Hnd _ _ _ Hc Hks]; subst.
  inversion Hn as [|? ? ? ? Hne Hids Hth]; subst.
  - exists (tnodes s). splits; auto.
    + change (tsize (Node (id, r) []) + fuel) with (S fuel).
      rewrite (treeRoot_loop_leaf _ id rest s _ id nd Hpend eq_refl Hnd Hc).
      now destruct s.
    + rewrite ids_cons. cbn [flat_map fst]. constructor; [now left|constructor].
    + constructor; [exact Hpend|]. intros j k Hk. discriminate.
  - assert (Hc' : n_children nd = Some (map id_of ks)) by (now destruct ks).
    set (L := length (tnodes s)) in *.
    set (n0 := fresh_node id parent None i) in *.
    assert (Hlenc : length (map id_of ks) = length ks) by apply length_map.
    pose proof (treeRoot_loop_node (list_sum (map tsize ks) + fuel) id rest s n0 id nd
                  (map id_of ks) Hpend eq_refl Hnd Hc') as Hstep.
    fold L in Hstep. rewrite Hlenc, <- Hids in Hstep.
    set (tn2 := <[id := set_t_children (map id_of ks) n0]> (tnodes s)
                ++ new_tchildren L id (map id_of ks)) in *.
    assert (Hid : id < L) by (now apply lookup_lt_Some in Hpend).
    assert (Hlen2 : length tn2 = L + length ks).
    { unfold tn2. now rewrite length_app, length_insert, new_tchildren_length, Hlenc. }
    destruct (troot_list ks IH fuel rest (mkLState tn2 (hnodes s)) (Some id) 0
                (Some id) (S d) L')
      as (tn' & Hrun & Hlen & Hle & Hfr & Hrange & HTs).
    { exact Hks. }
    { cbn [tnodes]. now rewrite Hlen2. }
    { rewrite Hids. apply NoDup_child_ids. }
    { intros j k Hk. cbn [tnodes]. pose proof (lookup_lt_Some _ _ _ Hk) as Hj.
      assert (E : id_of k = L + (length ks - 1 - j)).
      { assert (Hm : map id_of ks !! j = Some (id_of k)).
        { now rewrite map_fmap, list_lookup_fmap, Hk. }
        rewrite Hids, child_ids_lookup in Hm by assumption. now injection Hm as <-. }
      assert (Hm : map id_of ks !! j = Some (id_of k)).
      { now rewrite map_fmap, list_lookup_fmap, Hk. }
      pose proof (new_tchildren_lookup (<[id := set_t_children (map id_of ks) n0]> (tnodes s))
                    id (map id_of ks) j (id_of k) Hm) as Hlk.
      rewrite length_insert, Hlenc in Hlk. fold L in Hlk. fold tn2 in Hlk.
      rewrite <- E in Hlk. exact Hlk. }
    cbn [tnodes hnodes] in *.
    assert (Hnotin : id ∉ map id_of ks).
    { rewrite Hids. intros Hin. apply child_ids_range in Hin. lia. }
    exists tn'. splits.
    + replace (tsize (Node (id, r) ks) + fuel) with (S (list_sum (map tsize ks) + fuel))
        by (simpl; lia).
      rewrite Hstep. exact Hrun.
    + exact Hlen.
    + lia.
    + intros j Hj Hj'. rewrite Hfr; [| lia |].
      * unfold tn2. rewrite lookup_app_l by (rewrite length_insert; exact Hj).
        now rewrite list_lookup_insert_ne by congruence.
      * rewrite Hids. intros Hin. apply child_ids_range in Hin. lia.
    + rewrite ids_cons. cbn [fst]. constructor; [now left|].
      eapply Forall_impl; [exact Hrange|]. simpl. intros x [Hx|Hx]; right.
      * rewrite Hids in Hx. apply child_ids_range in Hx. lia.
      * lia.
    + constructor; [|exact HTs].
      rewrite Hfr; [|lia|exact Hnotin].
      unfold tn2. rewrite lookup_app_l by (rewrite length_insert; exact Hid).
      rewrite list_lookup_insert_eq by exact Hid. now destruct ks.
Qed.

(** [treeRoot] returns the mirror of the hierarchy, and the parent it
    gives to the mirror of the root. *)
Lemma wp_treeRoot fuel arena T :
  htree arena None 0 T -> id_of T = 0 -> numbered 1 T (tsize T) -> tsize T < fuel ->
  wp (treeRoot fuel 0)
     (fun t s' => t = 0 /\ hnodes s' = arena
                  /\ length (tnodes s') = S (tsize T)
                  /\ ttree (tnodes s') (Some (tsize T)) 0 T
                  /\ tnodes s' !! tsize T
                     = Some (set_t_children [0] (newTreeNode (tsize T) None 0)))
     (mkLState [] arena).
Proof.
  intros Hht Hid Hn Hfuel. unfold treeRoot.
  apply wp_bind, wp_sizeT. cbn [tnodes length].
  apply wp_bind, wp_allocT. cbn [tnodes hnodes app].
  set (s1 := mkLState [newTreeNode 0 (Some 0) 0] arena).
  destruct (troot_ok T (fuel - tsize T) [] s1 None 0 None 0 (tsize T))
    as (tn' & Hrun & Hlen & _ & _ & _ & HT).
  { exact Hht. }
  { exact Hn. }
  { rewrite Hid. reflexivity. }
  rewrite Hid in Hrun. replace (tsize T + (fuel - tsize T)) with fuel in Hrun by lia.
  cbn [hnodes s1] in Hrun.
  apply wp_bind. exists tt, (mkLState tn' arena). split.
  { rewrite Hrun. destruct (fuel - tsize T) eqn:E; [lia|reflexivity]. }
  apply wp_bind, wp_sizeT. cbn [tnodes]. rewrite Hlen.
  apply wp_bind, wp_allocT. cbn [tnodes hnodes].
  destruct T as [[id r] ks]. cbn [id_of label fst] in Hid. subst id.
  inversion HT as [? ? ? ? ? Hroot Hks]; subst.
  set (N := tsize (Node (0, r) ks)) in *.
  set (cs := match ks with [] => None | _ => Some (map id_of ks) end) in *.
  set (dummy := set_t_children [0] (newTreeNode N None 0)).
  assert (HN : 0 < N) by apply tsize_pos.
  apply wp_bind, wp_modT. exists (fresh_node 0 None cs 0). split.
  { cbn [tnodes]. apply lookup_app_l_Some. exact Hroot. }
  cbn [tnodes hnodes]. apply wp_ret.
  destruct (numbered_ok _ _ _ Hn) as (_ & Hrange & _). rewrite Forall_forall in Hrange.
  cbn [tnodes hnodes]. splits.
  - reflexivity.
  - reflexivity.
  - rewrite length_insert, length_app, Hlen. cbn [length]. lia.
  - constructor.
    + rewrite list_lookup_insert_eq by (rewrite length_app; lia). reflexivity.
    + intros j k Hk. apply (ttree_frame tn'); [|now apply Hks].
      intros x Hx.
      assert (Hx' : 1 <= x < N).
      { apply Hrange. unfold below. cbn [kids].
        apply (ids_in_flat_map _ k); [now apply list_elem_of_lookup_2 in Hk|exact Hx]. }
      rewrite list_lookup_insert_ne by lia. apply lookup_app_l. lia.
  - rewrite list_lookup_insert_ne by lia.
    rewrite lookup_app_r by lia. now rewrite Hlen, Nat.sub_diag.
Qed.

End TreeRoot.

(** ** The traversals of the layout *)

Section Traversals.

Lemma list_sum_rev (l : list nat) : list_sum (rev l) = list_sum l.
Proof.
  induction l as [|a l IH]; [reflexivity|].
  cbn [rev]. rewrite list_sum_app, IH. simpl. lia.
Qed.

Lemma ttree_root tn parent i T :
  ttree tn parent i T ->
  tn !! id_of T
  = Some (fresh_node (id_of T) parent
            (match kids T with [] => None | _ => Some (map id_of (kids T)) end) i)
  /\ forall j k, kids T !! j = Some k -> ttree tn (Some (id_of T)) j k.
Proof. intros H. inversion H; subst. now split. Qed.

Definition tsub (tn : list TreeNode) (T : Tree (nat * nat)) : Prop :=
  exists parent i, ttree tn parent i T.

Lemma tsub_kids tn T : tsub tn T -> Forall (tsub tn) (kids T).
Proof.
  intros (parent & i & HT). destruct (ttree_root _ _ _ _ HT) as [_ Hks].
  apply Forall_forall. intros k Hk. apply list_elem_of_lookup in Hk as [j Hj].
  exists (Some (id_of T)), j. now apply Hks.
Qed.

(** The first loop of [eachAfter] stacks a forest in postorder. *)
Lemma eachAfter_loop_forest s fuel : forall Ts rest next,
  list_sum (map tsize Ts) <= fuel ->
  Forall (tsub (tnodes s)) Ts ->
  eachAfter_loop fuel (map id_of Ts ++ rest) next s
  = eachAfter_loop (fuel - list_sum (map tsize Ts)) rest
                   (flat_map post (rev Ts) ++ next) s.
Proof.
  induction fuel as [|fuel IH]; intros Ts rest next Hfuel HTs.
  - destruct Ts as [|T Ts]; [reflexivity|].
    simpl in Hfuel. pose proof (tsize_pos T). lia.
  - destruct Ts as [|T Ts]; [reflexivity|].
    apply Forall_cons in HTs as [HT HTs].
    pose proof (tsub_kids _ _ HT) as Hkids.
    destruct HT as (parent & i & HT). destruct (ttree_root _ _ _ _ HT) as [Hroot _].
    cbn [map app eachAfter_loop]. unfold bind at 1. unfold getT.
    rewrite (deref_Some _ _ _ Hroot). cbn [lift].
    assert (Hcs : rev (default [] (t_children
              (fresh_node (id_of T) parent
                 (match kids T with [] => None | _ => Some (map id_of (kids T)) end) i)))
            = map id_of (rev (kids T))).
    { rewrite map_rev. cbn [t_children fresh_node]. now destruct (kids T). }
    rewrite Hcs, app_assoc, <- map_app.
    cbn [map list_sum] in Hfuel. unfold list_sum in Hfuel. cbn [fold_right] in Hfuel.
    fold (list_sum (map tsize Ts)) in Hfuel. rewrite tsize_kids in Hfuel.
    rewrite IH.
    + f_equal.
      * rewrite map_app, list_sum_app, map_rev, list_sum_rev.
        cbn [map]. unfold list_sum at 3. cbn [fold_right]. fold (list_sum (map tsize Ts)).
        rewrite (tsize_kids T). lia.
      * rewrite rev_app_distr, rev_involutive. cbn [rev].
        rewrite !flat_map_app. cbn [flat_map]. rewrite app_nil_r, (post_eq T).
        now rewrite <- !app_assoc.
    + rewrite map_app, list_sum_app, map_rev, list_sum_rev. lia.
    + apply Forall_app. split; [|exact HTs].
      apply Forall_forall. intros k Hk. rewrite Forall_forall in Hkids.
      apply Hkids. apply list_elem_of_In. apply in_rev. now apply list_elem_of_In.
Qed.

Lemma wp_eachAfter_loop fuel T s Q :
  tsize T < fuel -> tsub (tnodes s) T -> Q (post T) s ->
  wp (eachAfter_loop fuel [id_of T] []) Q s.
Proof.
  intros Hfuel HT HQ. exists (post T), s. split; [|exact HQ].
  pose proof (eachAfter_loop_forest s fuel [T] [] []) as H.
  cbn [map app rev flat_map] in H. rewrite !app_nil_r in H. rewrite H.
  - simpl. rewrite Nat.add_0_r. destruct (fuel - tsize T) eqn:E; [lia|reflexivity].
  - simpl. lia.
  - now constructor.
Qed.

(** [eachBefore] visits a forest, whatever the callback does so long as it
    keeps [J], under which the children read are those of the forest. *)
Lemma wp_eachBefore {S} (kidsf : nat -> M (option (list nat)))
    (callback : S -> nat -> M S)
    (shape : Tree (nat * nat) -> Prop) (J : S -> LState -> Prop) :
  (forall T, shape T -> Forall shape (kids T)) ->
  (forall acc T s, J acc s -> shape T ->
     wp (callback acc (id_of T)) J s) ->
  (forall acc T s, J acc s -> shape T ->
     wp (kidsf (id_of T))
        (fun r s' => s' = s /\ default [] r = map id_of (kids T)) s) ->
  forall fuel Ts acc s,
    list_sum (map tsize Ts) < fuel -> Forall shape Ts -> J acc s ->
    wp (eachBefore fuel kidsf callback (map id_of Ts) acc) J s.
Proof.
  intros Hshape Hcb Hkids. induction fuel as [|fuel IH]; intros Ts acc s Hfuel HTs HJ; [lia|].
  destruct Ts as [|T Ts]; [now apply wp_ret|].
  apply Forall_cons in HTs as [HT HTs].
  cbn [map eachBefore]. apply wp_bind. eapply wp_mono; [now apply Hcb|].
  intros acc' s1 HJ1. apply wp_bind. eapply wp_mono; [now apply (Hkids acc')|].
  intros r s2 [-> Hr]. rewrite Hr, <- map_app. apply IH.
  - rewrite map_app, list_sum_app. simpl in Hfuel. rewrite tsize_kids in Hfuel. lia.
  - apply Forall_app. split; [now apply Hshape|exact HTs].
  - exact HJ1.
Qed.

End Traversals.

(** ** The layout returns

    [d3.tree] changes [x] and [y] and nothing else of the hierarchy: what
    stays is its skeleton. *)

Section Skeleton.

Definition hskel (n : HNode)
  : nat * nat * option nat * option (list nat) * option bool * option Z :=
  (n_data n, n_depth n, n_parent n, n_children n, n_dragging n, n_dragStart n).

Definition same_skel (a b : list HNode) : Prop := map hskel b = map hskel a.

Lemma same_skel_refl a : same_skel a a.
Proof. reflexivity. Qed.

Lemma same_skel_lookup a b j n :
  same_skel a b -> a !! j = Some n ->
  exists n', b !! j = Some n' /\ hskel n' = hskel n.
Proof.
  intros H Hn.
  assert (E : map hskel b !! j = Some (hskel n)).
  { rewrite H, map_fmap, list_lookup_fmap, Hn. reflexivity. }
  rewrite map_fmap, list_lookup_fmap in E.
  destruct (b !! j) as [n'|]; [|discriminate].
  exists n'. split; [reflexivity|]. cbn in E. congruence.
Qed.

Lemma same_skel_insert a b v n f :
  same_skel a b -> b !! v = Some n -> hskel (f n) = hskel n ->
  same_skel a (<[v := f n]> b).
Proof.
  intros H Hn Hf. unfold same_skel. rewrite <- H, !map_fmap, list_fmap_insert, Hf.
  apply list_insert_id. now rewrite list_lookup_fmap, Hn.
Qed.

Lemma htree_skel a b parent depth T :
  same_skel a b -> htree a parent depth T -> htree b parent depth T.
Proof.
  intros Hs. revert parent depth. induction T as [[id r] ks IH] using Tree_ind'.
  intros parent depth HT. inversion HT as [? ? ? ? ? nd Hnd Hr Hp Hd Hc Hks]; subst.
  destruct (same_skel_lookup _ _ _ _ Hs Hnd) as (n' & Hn' & E).
  injection E as E1 E2 E3 E4 _ _.
  econstructor; [exact Hn'|exact E1|exact E3|exact E2|now rewrite E4|].
  rewrite Forall_forall in IH, Hks. apply Forall_forall. intros k Hk.
  apply IH; [exact Hk|]. now apply Hks.
Qed.

Lemma htree_valid a parent depth T :
  htree a parent depth T -> forall u, u ∈ ids T -> is_Some (a !! u).
Proof.
  revert parent depth. induction T as [[id r] ks IH] using Tree_ind'.
  intros parent depth HT u Hu. inversion HT as [? ? ? ? ? nd Hnd _ _ _ _ Hks]; subst.
  rewrite ids_cons in Hu. cbn [fst] in Hu.
  apply elem_of_cons in Hu as [->|Hu]; [now exists nd|].
  apply list_elem_of_In, in_flat_map in Hu as (k & Hk & Hu).
  apply list_elem_of_In in Hk, Hu. rewrite Forall_forall in IH, Hks.
  apply (IH k Hk (Some id) (S depth)); [now apply Hks|exact Hu].
Qed.

(** Every node of a subtree is the root of a subtree. *)
Lemma hsub_ids a T u : hsub a T -> u ∈ ids T -> exists T', hsub a T' /\ id_of T' = u.
Proof.
  revert u. induction T as [[id r] ks IH] using Tree_ind'. intros u HT Hu.
  rewrite ids_cons in Hu. cbn [fst] in Hu. apply elem_of_cons in Hu as [->|Hu].
  - now exists (Node (id, r) ks).
  - apply list_elem_of_In, in_flat_map in Hu as (k & Hk & Hu).
    apply list_elem_of_In in Hk, Hu. pose proof (hsub_kids _ _ HT) as Hks.
    rewrite Forall_forall in IH, Hks. apply (IH k Hk); [|exact Hu].
    now apply Hks.
Qed.

(** A list of [N] distinct numbers below [N] holds them all. *)
Lemma NoDup_cover (l : list nat) N j :
  NoDup l -> Forall (fun x => x < N) l -> length l = N -> j < N -> j ∈ l.
Proof.
  intros Hnd Hlt Hlen Hj.
  assert (Hsub : l ⊆+ seq 0 N).
  { apply NoDup_submseteq; [exact Hnd|]. intros x Hx.
    rewrite Forall_forall in Hlt. apply elem_of_seq. specialize (Hlt x Hx). lia. }
  apply submseteq_length_Permutation in Hsub; [|rewrite length_seq; lia].
  rewrite Hsub. apply elem_of_seq. lia.
Qed.

Lemma NoDup_bounded (l k : list nat) :
  NoDup l -> Forall (fun x => x ∈ k) l -> length l <= length k.
Proof.
  intros Hnd Hin. apply submseteq_length, NoDup_submseteq; [exact Hnd|].
  now rewrite Forall_forall in Hin.
Qed.

End Skeleton.

Section LayoutTotal.

Variable arena : list HNode.
Variable T : Tree (nat * nat).
Hypothesis T_tree : htree arena None 0 T.
Hypothesis T_root : id_of T = 0.
Hypothesis T_numbered : numbered 1 T (tsize T).
Variable fuel : nat.
Hypothesis enough_fuel : tsize T < fuel.

Lemma T_NoDup : NoDup (ids T).
Proof. apply (numbered_NoDup 1 T (tsize T)); [exact T_numbered|]. rewrite T_root. lia. Qed.

Lemma T_bound : Forall (fun x => x < tsize T) (ids T).
Proof.
  destruct (numbered_ok T _ _ T_numbered) as (_ & Hrange & _).
  rewrite ids_below, T_root. constructor; [apply tsize_pos|].
  eapply Forall_impl; [exact Hrange|]. simpl. intros. lia.
Qed.

Lemma T_cover j : j < tsize T -> j ∈ ids T.
Proof.
  intros Hj. apply (NoDup_cover _ (tsize T));
    [apply T_NoDup|apply T_bound|apply length_ids|exact Hj].
Qed.

(** Every node of a mirrored tree is the root of a mirrored subtree. *)
Lemma ttree_sub tn parent i T' u :
  ttree tn parent i T' -> u ∈ ids T' ->
  exists parent' i' T'', ttree tn parent' i' T'' /\ id_of T'' = u
                         /\ forall x, x ∈ ids T'' -> x ∈ ids T'.
Proof.
  revert parent i u. induction T' as [[id r] ks IH] using Tree_ind'.
  intros parent i u HT Hu. rewrite ids_cons in Hu. cbn [fst] in Hu.
  apply elem_of_cons in Hu as [->|Hu].
  - exists parent, i, (Node (id, r) ks). now splits.
  - apply list_elem_of_In, in_flat_map in Hu as (k & Hk & Hu).
    apply list_elem_of_In in Hk, Hu. destruct (ttree_root _ _ _ _ HT) as [_ Hks].
    pose proof Hk as Hk'. apply list_elem_of_lookup in Hk' as [j Hj].
    rewrite Forall_forall in IH.
    destruct (IH k Hk (Some id) j u (Hks j k Hj) Hu) as (p' & i' & T'' & HT'' & Hid & Hsub).
    exists p', i', T''. splits; [exact HT''|exact Hid|].
    intros x Hx. rewrite ids_cons. apply list_elem_of_further.
    apply (ids_in_flat_map _ k); [exact Hk|now apply Hsub].
Qed.

Lemma ttree_stree tn p i T' :
  ttree tn (Some p) i T' -> stree (map static (map ptrs tn)) p i T'.
Proof.
  revert p i. induction T' as [[id r] ks IH] using Tree_ind'.
  intros p i HT. destruct (ttree_root _ _ _ _ HT) as [Hroot Hks].
  cbn [id_of kids label fst] in *.
  eapply stree_intro.
  - rewrite !map_fmap, !list_lookup_fmap, Hroot. reflexivity.
  - reflexivity.
  - reflexivity.
  - reflexivity.
  - reflexivity.
  - intros j k Hk. rewrite Forall_forall in IH.
    apply IH; [now apply list_elem_of_lookup_2 in Hk|now apply Hks].
Qed.

(** The state in which [treeRoot] leaves the tree nodes. *)
Definition mirrored (s : LState) : Prop :=
  hnodes s = arena
  /\ length (tnodes s) = S (tsize T)
  /\ ttree (tnodes s) (Some (tsize T)) 0 T
  /\ tnodes s !! tsize T = Some (set_t_children [0] (newTreeNode (tsize T) None 0)).

Lemma mirrored_node s u :
  mirrored s -> u ∈ ids T ->
  exists parent i T',
    tnodes s !! u
    = Some (fresh_node u parent
              (match kids T' with [] => None | _ => Some (map id_of (kids T')) end) i)
    /\ forall x, x ∈ ids T' -> x ∈ ids T.
Proof.
  intros (_ & _ & HT & _) Hu.
  destruct (ttree_sub _ _ _ _ _ HT Hu) as (p' & i' & T' & HT' & <- & Hsub).
  destruct (ttree_root _ _ _ _ HT') as [Hroot _].
  exists p', i', T'. now split.
Qed.

Definition real (u : nat) : Prop := u ∈ ids T.

Lemma real_arena u : real u -> is_Some (arena !! u).
Proof. apply (htree_valid _ _ _ _ T_tree). Qed.

Lemma kids_ids (T' : Tree (nat * nat)) : Forall (fun c => c ∈ ids T') (map id_of (kids T')).
Proof.
  apply Forall_forall. intros c Hc. rewrite map_fmap in Hc.
  apply list_elem_of_fmap in Hc as (k & -> & Hk).
  rewrite ids_below. apply list_elem_of_further.
  apply (ids_in_flat_map _ k); [exact Hk|apply id_of_in_ids].
Qed.

Lemma real_mirror s u :
  mirrored s -> real u ->
  exists st, map static (pstate s) !! u = Some st /\ s_node st = Some u
             /\ forall cs, s_children st = Some cs -> cs <> [] /\ Forall real cs.
Proof.
  intros Hs Hu. destruct (mirrored_node s u Hs Hu) as (p' & i' & T' & Hn & Hsub).
  eexists. split.
  { unfold pstate. rewrite !map_fmap, !list_lookup_fmap, Hn. reflexivity. }
  split; [reflexivity|]. cbn [static ptrs fresh_node s_children q_children t_children].
  intros cs Hcs.
  assert (E : cs = map id_of (kids T') /\ kids T' <> []).
  { destruct (kids T'); [discriminate|]. injection Hcs as <-. now split. }
  destruct E as [-> Hne]. split.
  { intros E. apply Hne. now destruct (kids T'). }
  eapply Forall_impl; [apply kids_ids|]. simpl. intros c Hc. now apply Hsub.
Qed.

Lemma mirrored_Inv s : mirrored s -> Inv real (map static (pstate s)) (pstate s).
Proof.
  intros Hs. split; [reflexivity|]. intros v q Hq.
  destruct (pstate_lookup_inv _ _ _ Hq) as (n & Hn & <-).
  assert (Hv : v < S (tsize T)).
  { destruct Hs as (_ & Hlen & _). rewrite <- Hlen. now apply lookup_lt_Some in Hn. }
  assert (Hn' : t_a n = v /\ t_A n = None /\ t_t n = None).
  { destruct (decide (v = tsize T)) as [->|Hne].
    - destruct Hs as (_ & _ & _ & Hd). rewrite Hd in Hn. injection Hn as <-. now splits.
    - destruct (mirrored_node s v Hs) as (p' & i' & T' & Hn' & _); [apply T_cover; lia|].
      rewrite Hn' in Hn. injection Hn as <-. now splits. }
  destruct Hn' as (Ha & HA & Ht). cbn [ptrs q_a q_A q_t]. rewrite Ha, HA, Ht.
  splits; try discriminate. apply lookup_lt_is_Some.
  unfold pstate. rewrite length_map. destruct Hs as (_ & -> & _). exact Hv.
Qed.

Lemma mirrored_fresh s x : mirrored s -> x ∈ ids T -> fresh (pstate s) x.
Proof.
  intros Hs Hx. destruct (mirrored_node s x Hs Hx) as (p' & i' & T' & Hn & _).
  eexists. split; [apply pstate_lookup; exact Hn|reflexivity].
Qed.

(** The first walk returns, and keeps what [treeRoot] has set. *)
Lemma wp_first_pass s :
  mirrored s ->
  wp (eachAfter fuel (firstWalk fuel) 0)
     (fun _ s' => hnodes s' = arena
                  /\ map static (pstate s') = map static (pstate s)) s.
Proof.
  intros Hs. pose proof Hs as (Hh & Hlen & HT & Hd).
  unfold eachAfter. apply wp_bind. rewrite <- T_root.
  apply wp_eachAfter_loop; [exact enough_fuel|now exists (Some (tsize T)), 0|].
  eapply wp_mono.
  { apply (wp_firstWalk_all arena real (map static (pstate s)) real_arena
             (fun u => real_mirror s u Hs) fuel) with (p := tsize T).
    - intros l Hnd Hl. pose proof (NoDup_bounded l (ids T) Hnd Hl) as Hle.
      rewrite length_ids in Hle. lia.
    - now apply ttree_stree.
    - eexists. split.
      + unfold pstate. rewrite !map_fmap, !list_lookup_fmap, Hd. reflexivity.
      + rewrite T_root. reflexivity.
    - apply T_NoDup.
    - now apply Forall_forall.
    - exact Hh.
    - now apply mirrored_Inv.
    - intros x Hx. now apply mirrored_fresh. }
  intros u s' (Hh' & [HS _] & _). now split.
Qed.

Lemma static_lookup (P : list Ptrs) v st :
  map static P !! v = Some st -> exists q, P !! v = Some q /\ static q = st.
Proof.
  rewrite map_fmap, list_lookup_fmap. destruct (P !! v) as [q|]; [|discriminate].
  intros [= <-]. now exists q.
Qed.

Lemma skel_valid s u :
  same_skel arena (hnodes s) -> is_Some (arena !! u) -> is_Some (hnodes s !! u).
Proof.
  intros Hs [n Hn]. destruct (same_skel_lookup _ _ _ _ Hs Hn) as (n' & Hn' & _).
  now exists n'.
Qed.

(** An update of [x] or [y] keeps the skeleton. *)
Lemma wp_modH_skel v f s :
  same_skel arena (hnodes s) -> is_Some (arena !! v) ->
  (forall n, hskel (f n) = hskel n) ->
  wp (modH v f) (fun _ s' => same_skel arena (hnodes s') /\ tnodes s' = tnodes s) s.
Proof.
  intros Hs Hv Hf. destruct (skel_valid s v Hs Hv) as [n Hn].
  apply wp_modH. exists n. split; [exact Hn|]. cbn [hnodes tnodes].
  split; [|reflexivity]. now apply same_skel_insert.
Qed.

Section SecondWalk.

Variable S0 : list Static.

Definition walked (s : LState) : Prop :=
  same_skel arena (hnodes s) /\ map static (pstate s) = S0.

Definition mirror_of (T' : Tree (nat * nat)) : Prop :=
  (exists p i, stree S0 p i T' /\ is_Some (S0 !! p))
  /\ forall u, u ∈ ids T' -> u ∈ ids T.

Lemma mirror_of_kids T' : mirror_of T' -> Forall mirror_of (kids T').
Proof.
  intros [(p & i & HT' & _) Hsub].
  destruct (stree_root _ _ _ _ HT') as (st & Hst & _ & _ & _ & Hks).
  apply Forall_forall. intros k Hk. split.
  - apply list_elem_of_lookup in Hk as [j Hj].
    exists (id_of T'), j. split; [now apply Hks|now exists st].
  - intros u Hu. apply Hsub. rewrite ids_below. apply list_elem_of_further.
    now apply (ids_in_flat_map _ k).
Qed.

Lemma wp_secondWalk T' s :
  walked s -> mirror_of T' -> wp (secondWalk (id_of T')) (fun _ s' => walked s') s.
Proof.
  intros [Hsk HS] [(p & i & HT' & [stp Hstp]) Hsub].
  destruct T' as [[id r] ks]. inversion HT' as [? ? ? ? ? st Hst Hnode Hpar _ _ _]; subst.
  cbn [id_of label fst].
  rewrite <- HS in Hst, Hstp.
  destruct (static_lookup _ _ _ Hst) as (q & Hq & Eq).
  destruct (static_lookup _ _ _ Hstp) as (qp & Hqp & _).
  unfold secondWalk.
  apply wp_bind. apply (wp_getT_ptrs id q); [exact Hq|]. intros nv Hnv Hpv.
  assert (Hp' : t_parent nv = Some p).
  { change (t_parent nv) with (s_parent (static (ptrs nv))). now rewrite Hpv, Eq. }
  assert (Hn' : t_node nv = Some id).
  { change (t_node nv) with (s_node (static (ptrs nv))). now rewrite Hpv, Eq. }
  apply wp_bind. eapply wp_nonnull; [exact Hp'|].
  apply wp_bind. apply (wp_getT_ptrs p qp); [exact Hqp|]. intros np _ _.
  apply wp_bind. eapply wp_nonnull; [exact Hn'|].
  apply wp_bind. eapply wp_mono.
  { apply wp_modH_skel; [exact Hsk| |reflexivity].
    apply real_arena, Hsub. rewrite ids_cons. apply list_elem_of_here. }
  intros u s1 [Hsk1 Ht1].
  assert (HP1 : pstate s1 = pstate s) by (unfold pstate; now rewrite Ht1).
  eapply wp_mono.
  { apply wp_modT_num; [rewrite HP1; now exists q|reflexivity]. }
  intros u2 s2 [Hh2 HP2]. split.
  - now rewrite Hh2.
  - now rewrite HP2, HP1.
Qed.

Lemma wp_childrenT T' s :
  walked s -> mirror_of T' ->
  wp (childrenT (id_of T'))
     (fun r s' => s' = s /\ default [] r = map id_of (kids T')) s.
Proof.
  intros [Hsk HS] [(p & i & HT' & _) _].
  destruct (stree_root _ _ _ _ HT') as (st & Hst & _ & _ & Hc & _).
  rewrite <- HS in Hst. destruct (static_lookup _ _ _ Hst) as (q & Hq & Eq).
  unfold childrenT. apply wp_bind. apply (wp_getT_ptrs _ q); [exact Hq|].
  intros n _ Hpn. apply wp_ret. split; [reflexivity|].
  change (t_children n) with (s_children (static (ptrs n))). rewrite Hpn, Eq, Hc.
  now destruct (kids T').
Qed.

Lemma wp_second_pass s :
  walked s -> mirror_of T ->
  wp (eachBefore fuel childrenT (fun _ v => secondWalk v) [0] tt)
     (fun _ s' => walked s') s.
Proof.
  intros Hs HT. rewrite <- T_root. change [id_of T] with (map id_of [T]).
  apply (wp_eachBefore childrenT (fun _ v => secondWalk v) mirror_of (fun _ => walked)).
  - apply mirror_of_kids.
  - intros _ T' s1. apply wp_secondWalk.
  - intros _ T' s1. apply wp_childrenT.
  - simpl. lia.
  - now constructor.
  - exact Hs.
Qed.

End SecondWalk.

Definition skel_ok (s : LState) : Prop := same_skel arena (hnodes s).

Lemma hsub_valid T' : hsub arena T' -> is_Some (arena !! id_of T').
Proof.
  intros (parent & depth & HT'). destruct (htree_root _ _ _ _ HT') as (nd & Hnd & _).
  now exists nd.
Qed.

Lemma wp_childrenH T' s :
  skel_ok s -> hsub arena T' ->
  wp (childrenH (id_of T'))
     (fun r s' => s' = s /\ default [] r = map id_of (kids T')) s.
Proof.
  intros Hs (parent & depth & HT').
  destruct (htree_root _ _ _ _ HT') as (nd & Hnd & _ & _ & _ & Hc & _).
  destruct (same_skel_lookup _ _ _ _ Hs Hnd) as (n' & Hn' & E).
  unfold childrenH. apply wp_bind, wp_getH. exists n'. split; [exact Hn'|].
  apply wp_ret. split; [reflexivity|].
  assert (E' : n_children n' = n_children nd) by (injection E; auto).
  rewrite E', Hc. now destruct (kids T').
Qed.

(** The extent is made of nodes of the hierarchy. *)
Definition extent_ok (acc : nat * nat * nat) (s : LState) : Prop :=
  let '(l, r, b) := acc in
  skel_ok s /\ is_Some (arena !! l) /\ is_Some (arena !! r) /\ is_Some (arena !! b).

Lemma wp_extent acc T' s :
  extent_ok acc s -> hsub arena T' -> wp (extent acc (id_of T')) extent_ok s.
Proof.
  destruct acc as [[l r] b]. intros (Hs & Hl & Hr & Hb) HT'.
  pose proof (hsub_valid T' HT') as Hv.
  destruct (skel_valid s _ Hs Hv) as [n Hn].
  destruct (skel_valid s _ Hs Hl) as [nl Hnl].
  destruct (skel_valid s _ Hs Hr) as [nr Hnr].
  destruct (skel_valid s _ Hs Hb) as [nb Hnb].
  unfold extent.
  apply wp_bind, wp_getH. exists n. split; [exact Hn|].
  apply wp_bind, wp_getH. exists nl. split; [exact Hnl|].
  apply wp_bind, wp_getH. exists nr. split; [exact Hnr|].
  apply wp_bind, wp_getH. exists nb. split; [exact Hnb|].
  apply wp_ret. unfold extent_ok. splits; [exact Hs| | |].
  - now destruct (PrimFloat.ltb _ _).
  - now destruct (PrimFloat.ltb _ _).
  - now destruct (Nat.ltb _ _).
Qed.

Lemma T_hsub : hsub arena T.
Proof. now exists None, 0. Qed.

Lemma wp_extent_pass s :
  skel_ok s ->
  wp (eachBefore fuel childrenH extent [0] (0, 0, 0)) extent_ok s.
Proof.
  intros Hs. rewrite <- T_root at 1. change [id_of T] with (map id_of [T]).
  apply (wp_eachBefore childrenH extent (hsub arena) extent_ok).
  - apply hsub_kids.
  - intros acc T' s1. apply wp_extent.
  - intros [[l r] b] T' s1 (Hs1 & _). now apply wp_childrenH.
  - simpl. lia.
  - constructor; [apply T_hsub|constructor].
  - pose proof (hsub_valid T T_hsub) as Hv. rewrite T_root in Hv.
    unfold extent_ok. now splits.
Qed.

Lemma wp_scale_pass (tx kx ky : float) s :
  skel_ok s ->
  wp (eachBefore fuel childrenH
        (fun _ node =>
           modH node (fun n => set_n_x ((n_x n + tx) * kx)%float n) ;;;
           modH node (fun n => set_n_y (float_of_nat (n_depth n) * ky)%float n))
        [0] tt)
     (fun _ s' => skel_ok s') s.
Proof.
  intros Hs. rewrite <- T_root. change [id_of T] with (map id_of [T]).
  apply (wp_eachBefore childrenH _ (hsub arena) (fun _ => skel_ok)).
  - apply hsub_kids.
  - intros _ T' s1 Hs1 HT'. pose proof (hsub_valid T' HT') as Hv.
    apply wp_bind. eapply wp_mono; [now apply wp_modH_skel|].
    intros u s2 [Hs2 _]. eapply wp_mono; [now apply wp_modH_skel|].
    intros u' s3 [Hs3 _]. exact Hs3.
  - intros _ T' s1. apply wp_childrenH.
  - simpl. lia.
  - constructor; [apply T_hsub|constructor].
  - exact Hs.
Qed.

(** [tree(root)] returns, with the skeleton of the hierarchy as it was. *)
Lemma wp_tree_layout dx dy :
  wp (tree_layout fuel dx dy 0) (fun _ s' => skel_ok s') (mkLState [] arena).
Proof.
  unfold tree_layout.
  apply wp_bind. eapply wp_mono.
  { apply (wp_treeRoot fuel arena T); [exact T_tree|exact T_root|exact T_numbered
                                       |exact enough_fuel]. }
  intros t s1 (-> & Hh1 & Hlen1 & HT1 & Hd1).
  assert (Hm : mirrored s1) by (now splits).
  apply wp_bind. eapply wp_mono; [now apply wp_first_pass|].
  intros u s2 (Hh2 & HS2).
  set (S0 := map static (pstate s1)) in *.
  assert (HST : stree S0 (tsize T) 0 T) by (now apply ttree_stree).
  assert (Hdummy : is_Some (S0 !! tsize T)).
  { unfold S0, pstate. rewrite !map_fmap, !list_lookup_fmap, Hd1. now eexists. }
  destruct (stree_root _ _ _ _ HST) as (st & Hst & Hpar & _).
  rewrite T_root, <- HS2 in Hst. destruct (static_lookup _ _ _ Hst) as (q & Hq & Eq).
  apply wp_bind. apply (wp_getT_ptrs 0 q); [exact Hq|]. intros nt _ Hpt.
  assert (Hp' : t_parent nt = Some (tsize T)).
  { change (t_parent nt) with (s_parent (static (ptrs nt))). now rewrite Hpt, Eq. }
  apply wp_bind. eapply wp_nonnull; [exact Hp'|].
  apply wp_bind. eapply wp_mono.
  { apply wp_modT_num; [|reflexivity].
    destruct Hdummy as [std Hstd]. rewrite <- HS2 in Hstd.
    destruct (static_lookup _ _ _ Hstd) as (qd & Hqd & _). now exists qd. }
  intros u3 s3 [Hh3 HP3].
  assert (Hw3 : walked S0 s3).
  { split; [|now rewrite HP3]. unfold same_skel. now rewrite Hh3, Hh2. }
  apply wp_bind. eapply wp_mono.
  { apply (wp_second_pass S0); [exact Hw3|]. split; [|auto].
    exists (tsize T), 0. now split. }
  intros u4 s4 [Hs4 _].
  apply wp_bind. eapply wp_mono; [now apply wp_extent_pass|].
  intros [[l r] b] s5 (Hs5 & Hl & Hr & Hb).
  destruct (skel_valid s5 _ Hs5 Hl) as [nl Hnl].
  destruct (skel_valid s5 _ Hs5 Hr) as [nr Hnr].
  destruct (skel_valid s5 _ Hs5 Hb) as [nb Hnb].
  apply wp_bind, wp_getH. exists nl. split; [exact Hnl|].
  apply wp_bind, wp_getH. exists nr. split; [exact Hnr|].
  apply wp_bind, wp_getH. exists nb. split; [exact Hnb|].
  apply wp_bind.
  apply (wp_mono _ (fun _ s' => s' = s5)).
  { destruct (decide (l = r)); [now apply wp_ret|].
    apply wp_bind. eapply wp_mono.
    - apply wp_defaultSeparation; [now exists nl|now exists nr].
    - intros sep s6 ->. now apply wp_ret. }
  intros sep s6 ->. now apply wp_scale_pass.
Qed.

Lemma tree_returns dx dy :
  exists arena', tree fuel dx dy arena = Ok arena' /\ same_skel arena arena'.
Proof.
  destruct (wp_tree_layout dx dy) as (u & s' & Hrun & Hs).
  exists (hnodes s'). split; [|exact Hs].
  unfold tree, root. now rewrite Hrun.
Qed.

End LayoutTotal.

(** ** The drawing of a tree *)

Section Rendering.

Lemma omap_spec {A B} (g : A -> outcome B) (Q : B -> Prop) (l : list A) :
  Forall (fun a => exists b, g a = Ok b /\ Q b) l ->
  exists l', omap g l = Ok l' /\ Forall Q l' /\ length l' = length l.
Proof.
  induction 1 as [|a l (b & Hb & HQ) _ (l' & Hl' & HQ' & Hlen)].
  - exists []. now splits.
  - exists (b :: l'). cbn [omap]. rewrite Hb. cbn [obind]. rewrite Hl'. cbn [obind].
    splits; [reflexivity|now constructor|simpl; now rewrite Hlen].
Qed.

Lemma select_lines_lines (ls : list LineEl) :
  Forall (fun l => l_class l = "link") ls -> select_lines (map ALine ls) = ls.
Proof.
  induction 1 as [|l ls Hl _ IH]; [reflexivity|].
  unfold select_lines in *. cbn [map flat_map]. rewrite IH.
  destruct (decide (l_class l = "link")); [reflexivity|contradiction].
Qed.

Lemma select_lines_nodes (ns : list NodeEl) : select_lines (map ANode ns) = [].
Proof. induction ns as [|n ns IH]; [reflexivity|exact IH]. Qed.

Lemma select_nodes_nodes (ns : list NodeEl) :
  Forall (fun n => g_class n = "node") ns -> select_nodes (map ANode ns) = ns.
Proof.
  induction 1 as [|n ns Hn _ IH]; [reflexivity|].
  unfold select_nodes in *. cbn [map flat_map]. rewrite IH.
  destruct (decide (g_class n = "node")); [reflexivity|contradiction].
Qed.

Lemma select_nodes_lines (ls : list LineEl) : select_nodes (map ALine ls) = [].
Proof. induction ls as [|l ls IH]; [reflexivity|exact IH]. Qed.

Lemma filter_all {A} (P : A -> Prop) `{forall x, Decision (P x)} (l : list A) :
  Forall P l -> filter P l = l.
Proof.
  induction 1 as [|a l Ha _ IH]; [reflexivity|].
  rewrite filter_cons_True by exact Ha. now rewrite IH.
Qed.

Variable h : heap.

(** A node of the hierarchy of a tree that unfolds: its data is an object
    of the heap and, unless it is the root, its parent is a node. *)
Lemma htree_node arena parent depth T u :
  unfolds h (tmap snd T) -> htree arena parent depth T -> u ∈ ids T ->
  exists nd, arena !! u = Some nd /\ is_Some (h !! n_data nd)
             /\ (u <> id_of T ->
                 exists p, n_parent nd = Some p /\ is_Some (arena !! p)).
Proof.
  revert parent depth u. induction T as [[id r] ks IH] using Tree_ind'.
  intros parent depth u HR HT Hu.
  inversion HR as [? c ? Hc _ HRs]; subst.
  inversion HT as [? ? ? ? ? nd Hnd Hdata _ _ _ Hks]; subst.
  rewrite ids_cons in Hu. cbn [fst id_of label] in *.
  apply elem_of_cons in Hu as [->|Hu].
  - exists nd. splits; [exact Hnd|now exists c|congruence].
  - apply list_elem_of_In, in_flat_map in Hu as (k & Hk & Hu).
    apply list_elem_of_In in Hk, Hu.
    rewrite Forall_forall in IH. rewrite Forall_forall in Hks.
    rewrite Forall_forall in HRs.
    assert (HRk : unfolds h (tmap snd k)).
    { apply HRs. rewrite map_fmap. apply list_elem_of_fmap. now exists k. }
    destruct (IH k Hk (Some id) (S depth) u HRk (Hks k Hk) Hu)
      as (ndu & Hndu & Hdu & Hpu).
    exists ndu. splits; [exact Hndu|exact Hdu|]. intros _.
    destruct (decide (u = id_of k)) as [->|Hne]; [|now apply Hpu].
    destruct (htree_root _ _ _ _ (Hks k Hk)) as (nk & Hnk & Hp & _).
    rewrite Hnk in Hndu. injection Hndu as <-.
    exists id. split; [exact Hp|now exists nd].
Qed.

(** [createTree] draws every tree that unfolds: one [g.node] for each of
    its nodes, one [line.link] for each node but the root. *)
Lemma render_total R fuel :
  unfolds h R -> tsize R < fuel ->
  exists arena kids,
    render fuel h (Some (label R)) = Ok (arena, kids)
    /\ length (select_nodes kids) = tsize R
    /\ length (select_lines kids) = tsize R - 1.
Proof.
  intros HR Hfuel.
  destruct (hierarchy_total h R fuel HR Hfuel)
    as (arena0 & T & Hh & HTR & Hroot & HT0 & _ & _ & Hnum).
  assert (Hsz : tsize T = tsize R) by (rewrite <- HTR; symmetry; apply tsize_tmap).
  rewrite <- Hsz in Hnum, Hfuel.
  destruct (tree_returns arena0 T HT0 Hroot Hnum fuel Hfuel (width - 100) (height - 100))
    as (arena & Htree & Hskel).
  pose proof (htree_skel _ _ _ _ _ Hskel HT0) as HT.
  destruct (iterate_forest arena fuel [T]) as (ns & Hns & Hperm).
  { simpl. lia. }
  { constructor; [now exists None, 0|constructor]. }
  cbn [map flat_map] in Hns, Hperm. rewrite app_nil_r in Hperm. rewrite Hroot in Hns.
  assert (Hin : forall u, u ∈ ns -> u ∈ ids T).
  { intros u Hu. now rewrite <- Hperm. }
  assert (HRT : unfolds h (tmap snd T)) by (now rewrite HTR).
  (* the links *)
  destruct (omap_spec (link_of arena)
              (fun l => is_Some (arena !! source l) /\ is_Some (arena !! target l))
              (filter (fun n => n <> root) ns)) as (ls & Hls & Hls_ok & Hls_len).
  { apply Forall_forall. intros u Hu. apply list_elem_of_filter in Hu as [Hne Hu].
    destruct (htree_node arena None 0 T u HRT HT (Hin u Hu)) as (nd & Hnd & _ & Hp).
    destruct Hp as (p & Hp & Hpv); [now rewrite Hroot|].
    exists (mkLink p u). unfold link_of. rewrite (deref_Some _ _ _ Hnd). cbn [obind].
    rewrite Hp. splits; [reflexivity|exact Hpv|now exists nd]. }
  destruct (omap_spec (draw_link arena) (fun l => l_class l = "link") ls)
    as (lines & Hlines & Hlines_ok & Hlines_len).
  { eapply Forall_impl; [exact Hls_ok|]. intros l [[s Hs] [t Ht]].
    eexists. unfold draw_link. rewrite (deref_Some _ _ _ Hs). cbn [obind].
    rewrite (deref_Some _ _ _ Ht). cbn [obind]. now split. }
  (* the nodes *)
  destruct (omap_spec (draw_node arena)
              (fun g => g_class g = "node" /\ g_datum g ∈ ids T) ns)
    as (node0 & Hnode0 & Hnode0_ok & Hnode0_len).
  { apply Forall_forall. intros u Hu.
    destruct (htree_node arena None 0 T u HRT HT (Hin u Hu)) as (nd & Hnd & _).
    eexists. unfold draw_node. rewrite (deref_Some _ _ _ Hnd). cbn [obind].
    splits; [reflexivity|reflexivity|]. now apply Hin. }
  destruct (omap_spec (append_text h arena) (fun g => g_class g = "node")
              (map append_circle node0)) as (node2 & Hnode2 & Hnode2_ok & Hnode2_len).
  { apply Forall_forall. intros g Hg. rewrite map_fmap in Hg.
    apply list_elem_of_fmap in Hg as (g0 & -> & Hg0).
    rewrite Forall_forall in Hnode0_ok. destruct (Hnode0_ok g0 Hg0) as [Hc Hd].
    destruct (htree_node arena None 0 T _ HRT HT Hd) as (nd & Hnd & [c Hcow] & _).
    eexists. unfold append_text. cbn [append_circle append_kid g_datum].
    rewrite (deref_Some _ _ _ Hnd). cbn [obind].
    rewrite (deref_Some _ _ _ Hcow). cbn [obind]. split; [reflexivity|exact Hc]. }
  exists arena, (map ALine lines ++ map ANode node2). splits.
  - unfold render. rewrite Hh. cbn [obind]. rewrite Htree. cbn [obind].
    unfold links, descendants. rewrite Hns. cbn [obind].
    rewrite Hls. cbn [obind]. unfold enter. cbn [select_lines flat_map length app].
    rewrite drop_0, Hlines. cbn [obind]. rewrite select_nodes_lines. cbn [length].
    rewrite drop_0, Hnode0. cbn [obind]. rewrite Hnode2. reflexivity.
  - rewrite select_nodes_app, select_nodes_lines, select_nodes_nodes by exact Hnode2_ok.
    cbn [app]. rewrite Hnode2_len, length_map, Hnode0_len, Hperm, length_ids. exact Hsz.
  - rewrite select_lines_app, select_lines_nodes, select_lines_lines by exact Hlines_ok.
    rewrite app_nil_r, Hlines_len, Hls_len, Hperm, <- Hsz.
    rewrite ids_below, filter_cons_False by (rewrite Hroot; intros E; now apply E).
    rewrite filter_all.
    + rewrite <- (length_ids T), ids_below. simpl. lia.
    + pose proof (numbered_NoDup 1 T _ Hnum) as Hnd.
      rewrite ids_below in Hnd. apply NoDup_cons in Hnd as [Hnd _]; [|rewrite Hroot; unfold root; lia].
      apply Forall_forall. intros u Hu ->. apply Hnd. now rewrite Hroot.
Qed.

End Rendering.

Section Edges.

(** C7: for every valid tree, that is for every heap [w_heap w] and root
    whose objects unfold into a finite tree [R], [createTree] returns
    (given fuel beyond the size of the tree) and has drawn one [g.node] for
    each node of the tree and one [line.link] fewer: the number of rendered
    edges is the number of nodes minus one. *)
Theorem C7_edges_are_nodes_minus_one (w : World) (R : Tree nat) (fuel : nat) :
  unfolds (w_heap w) R -> tsize R < fuel ->
  exists w',
    createTree fuel (Some (label R)) w = (Ok tt, w')
    /\ length (drawn_nodes w') = tsize R
    /\ length (drawn_lines w') = length (drawn_nodes w') - 1.
Proof.
  intros HR Hfuel.
  destruct (render_total (w_heap w) R fuel HR Hfuel) as (arena & kids & Hrun & Hn & Hl).
  eexists. unfold createTree. rewrite Hrun. split; [reflexivity|].
  unfold drawn_nodes, drawn_lines. cbn [container set_nodes set_container flat_map g_children].
  rewrite !app_nil_r. split; [exact Hn|]. now rewrite Hn, Hl.
Qed.

(** The tree of the component, as [started] holds it, is valid. *)
Lemma C7_witness :
  exists w',
    createTree 100 (Some 6) started = (Ok tt, w')
    /\ length (drawn_nodes w') = 6
    /\ length (drawn_lines w') = length (drawn_nodes w') - 1.
Proof.
  apply (C7_edges_are_nodes_minus_one started data_tree 100).
  - unfold data_tree.
    repeat (eapply unfolds_intro; [vm_compute; reflexivity|vm_compute; auto|];
            repeat constructor).
  - vm_compute. lia.
Defined.

End Edges.

(** * More of the component

    What [createTree] draws for a valid tree, in full; what the handlers do
    over a whole session. *)

(** ** The nodes that [eachBefore] visits *)

Section Visits.

(** [eachBefore] calls back on the nodes of a forest in preorder: [J]
    follows the list of the nodes visited so far. *)
Lemma wp_eachBefore_visits {S} (kidsf : nat -> M (option (list nat)))
    (callback : S -> nat -> M S)
    (shape : Tree (nat * nat) -> Prop) (J : S -> list nat -> LState -> Prop) :
  (forall T, shape T -> Forall shape (kids T)) ->
  (forall acc V T s, J acc V s -> shape T ->
     wp (callback acc (id_of T)) (fun acc' s' => J acc' (V ++ [id_of T]) s') s) ->
  (forall acc V T s, J acc V s -> shape T ->
     wp (kidsf (id_of T))
        (fun r s' => s' = s /\ default [] r = map id_of (kids T)) s) ->
  forall fuel Ts acc V s,
    list_sum (map tsize Ts) < fuel -> Forall shape Ts -> J acc V s ->
    wp (eachBefore fuel kidsf callback (map id_of Ts) acc)
       (fun acc' s' => J acc' (V ++ flat_map ids Ts) s') s.
Proof.
  intros Hshape Hcb Hkids. induction fuel as [|fuel IH]; intros Ts acc V s Hfuel HTs HJ; [lia|].
  destruct Ts as [|T Ts].
  { apply wp_ret. cbn [flat_map]. now rewrite app_nil_r. }
  apply Forall_cons in HTs as [HT HTs].
  cbn [map eachBefore]. apply wp_bind.
  eapply wp_mono; [apply (Hcb acc V); assumption|].
  intros acc' s1 HJ1. apply wp_bind.
  eapply wp_mono; [apply (Hkids acc' (V ++ [id_of T])); assumption|].
  intros r s2 [-> Hr]. rewrite Hr, <- map_app.
  eapply wp_mono.
  { apply (IH (kids T ++ Ts) acc' (V ++ [id_of T])).
    - rewrite map_app, list_sum_app. simpl in Hfuel. rewrite tsize_kids in Hfuel. lia.
    - apply Forall_app. split; [now apply Hshape|exact HTs].
    - exact HJ1. }
  intros acc'' s' HJ'. cbn [flat_map].
  rewrite ids_kids, flat_map_app in *. rewrite <- app_assoc in HJ'. exact HJ'.
Qed.

End Visits.

(** ** Where the layout puts the generations *)

Section Depths.

Variable arena : list HNode.
Variable T : Tree (nat * nat).
Hypothesis T_tree : htree arena None 0 T.
Hypothesis T_root : id_of T = 0.
Hypothesis T_numbered : numbered 1 T (tsize T).
Variable fuel : nat.
Hypothesis enough_fuel : tsize T < fuel.

(** [b] is as deep as any node of [V]. *)
Definition deepest (V : list nat) (b : nat) : Prop :=
  forall u nu nb, u ∈ V -> arena !! u = Some nu -> arena !! b = Some nb ->
                  n_depth nu <= n_depth nb.

Definition extent_inv (acc : nat * nat * nat) (V : list nat) (s : LState) : Prop :=
  extent_ok arena acc s /\ deepest V (snd acc).

Lemma skel_depth s u nu n :
  skel_ok arena s -> arena !! u = Some nu -> hnodes s !! u = Some n ->
  n_depth n = n_depth nu.
Proof.
  intros Hs Hu Hn. destruct (same_skel_lookup _ _ _ _ Hs Hu) as (n' & Hn' & E).
  rewrite Hn in Hn'. injection Hn' as <-. now injection E.
Qed.

Lemma wp_extent_deepest acc V T' s :
  extent_inv acc V s -> hsub arena T' ->
  wp (extent acc (id_of T')) (fun acc' s' => extent_inv acc' (V ++ [id_of T']) s') s.
Proof.
  destruct acc as [[l r] b]. intros [(Hs & Hl & Hr & Hb) Hdeep] HT'.
  pose proof (hsub_valid _ T' HT') as Hv. cbn [snd] in Hdeep.
  destruct Hv as [an Han]. destruct Hb as [ab Hab].
  destruct (skel_valid _ s _ Hs (ex_intro _ an Han)) as [n Hn].
  destruct (skel_valid _ s _ Hs Hl) as [nl Hnl].
  destruct (skel_valid _ s _ Hs Hr) as [nr Hnr].
  destruct (skel_valid _ s _ Hs (ex_intro _ ab Hab)) as [nb Hnb].
  pose proof (skel_depth s _ _ _ Hs Han Hn) as Dn.
  pose proof (skel_depth s _ _ _ Hs Hab Hnb) as Db.
  unfold extent.
  apply wp_bind, wp_getH. exists n. split; [exact Hn|].
  apply wp_bind, wp_getH. exists nl. split; [exact Hnl|].
  apply wp_bind, wp_getH. exists nr. split; [exact Hnr|].
  apply wp_bind, wp_getH. exists nb. split; [exact Hnb|].
  apply wp_ret. split.
  - unfold extent_ok. splits; [exact Hs| | |].
    + destruct (PrimFloat.ltb _ _); [now exists an|exact Hl].
    + destruct (PrimFloat.ltb _ _); [now exists an|exact Hr].
    + destruct (Nat.ltb _ _); [now exists an|now exists ab].
  - cbn [snd]. intros u nu nb' Hu Hnu Hnb'.
    destruct (Nat.ltb_spec (n_depth nb) (n_depth n)) as [Hlt|Hge].
    + rewrite Han in Hnb'. injection Hnb' as <-.
      apply elem_of_app in Hu as [Hu|Hu].
      * pose proof (Hdeep u nu ab Hu Hnu Hab). lia.
      * apply list_elem_of_singleton in Hu as ->. rewrite Han in Hnu.
        injection Hnu as <-. lia.
    + rewrite Hab in Hnb'. injection Hnb' as <-.
      apply elem_of_app in Hu as [Hu|Hu].
      * now apply (Hdeep u nu ab).
      * apply list_elem_of_singleton in Hu as ->. rewrite Han in Hnu.
        injection Hnu as <-. lia.
Qed.

Lemma wp_extent_pass_deepest s :
  skel_ok arena s ->
  wp (eachBefore fuel childrenH extent [0] (0, 0, 0))
     (fun acc s' => extent_inv acc (ids T) s') s.
Proof.
  intros Hs. rewrite <- T_root at 1. change [id_of T] with (map id_of [T]).
  eapply wp_mono.
  { apply (wp_eachBefore_visits childrenH extent (hsub arena) extent_inv)
      with (V := []).
    - apply hsub_kids.
    - intros acc V T' s1. apply wp_extent_deepest.
    - intros [[l r] b] V T' s1 [(Hs1 & _) _]. now apply wp_childrenH.
    - simpl. lia.
    - constructor; [now apply T_hsub|constructor].
    - pose proof (hsub_valid _ T (T_hsub _ _ T_tree)) as Hv. rewrite T_root in Hv.
      split; [unfold extent_ok; now splits|]. intros u nu nb Hu. inversion Hu. }
  intros acc s' H. cbn [app flat_map] in H. now rewrite app_nil_r in H.
Qed.

(** The nodes of [V] are at their depth times [ky]. *)
Definition scaled (ky : float) (V : list nat) (s : LState) : Prop :=
  skel_ok arena s
  /\ forall u, u ∈ V ->
       exists n, hnodes s !! u = Some n
                 /\ n_y n = (float_of_nat (n_depth n) * ky)%float.

Lemma wp_scale_node (tx kx ky : float) V T' s :
  scaled ky V s -> hsub arena T' ->
  wp (modH (id_of T') (fun n => set_n_x ((n_x n + tx) * kx)%float n) ;;;
      modH (id_of T') (fun n => set_n_y (float_of_nat (n_depth n) * ky)%float n))
     (fun _ s' => scaled ky (V ++ [id_of T']) s') s.
Proof.
  intros [Hs HV] HT'. pose proof (hsub_valid _ T' HT') as Hv.
  destruct (skel_valid _ s _ Hs Hv) as [n Hn]. set (v := id_of T') in *.
  pose proof (lookup_lt_Some _ _ _ Hn) as Hlt.
  apply wp_bind, wp_modH. exists n. split; [exact Hn|].
  apply wp_modH. cbn [tnodes hnodes]. eexists. split.
  { now apply list_lookup_insert_eq. }
  cbn [tnodes hnodes]. rewrite list_insert_insert_eq. split.
  - unfold skel_ok. cbn [hnodes]. now apply (same_skel_insert arena (hnodes s) v n
      (fun n => set_n_y (float_of_nat (n_depth (set_n_x ((n_x n + tx) * kx)%float n)) * ky)%float
                  (set_n_x ((n_x n + tx) * kx)%float n))).
  - cbn [hnodes]. intros u Hu. destruct (decide (u = v)) as [->|Hne].
    + eexists. split; [now apply list_lookup_insert_eq|reflexivity].
    + rewrite list_lookup_insert_ne by congruence. apply HV.
      apply elem_of_app in Hu as [Hu|Hu]; [exact Hu|].
      apply list_elem_of_singleton in Hu. contradiction.
Qed.

Lemma wp_scale_pass_depths (tx kx ky : float) s :
  skel_ok arena s ->
  wp (eachBefore fuel childrenH
        (fun _ node =>
           modH node (fun n => set_n_x ((n_x n + tx) * kx)%float n) ;;;
           modH node (fun n => set_n_y (float_of_nat (n_depth n) * ky)%float n))
        [0] tt)
     (fun _ s' => scaled ky (ids T) s') s.
Proof.
  intros Hs. rewrite <- T_root. change [id_of T] with (map id_of [T]).
  eapply wp_mono.
  { apply (wp_eachBefore_visits childrenH _ (hsub arena) (fun _ => scaled ky))
      with (V := []).
    - apply hsub_kids.
    - intros _ V T' s1. apply wp_scale_node.
    - intros _ V T' s1 [Hs1 _]. now apply wp_childrenH.
    - simpl. lia.
    - constructor; [now apply T_hsub|constructor].
    - split; [exact Hs|]. intros u Hu. inversion Hu. }
  intros u s' H. cbn [app flat_map] in H. now rewrite app_nil_r in H.
Qed.

(** The step between two generations: [dy / (bottom.depth || 1)]. *)
Definition step (dy : float) (depth : nat) : float :=
  (dy / match depth with
        | O => 1
        | S d => float_of_nat (S d)
        end)%float.

(** [tree(root)] returns with every node at its depth times the step,
    the step being that of the deepest node. *)
Lemma wp_tree_layout_depths dx dy :
  wp (tree_layout fuel dx dy 0)
     (fun _ s' => exists b nb, arena !! b = Some nb /\ deepest (ids T) b
                               /\ scaled (step dy (n_depth nb)) (ids T) s')
     (mkLState [] arena).
Proof.
  unfold tree_layout.
  apply wp_bind. eapply wp_mono.
  { apply (wp_treeRoot fuel arena T); [exact T_tree|exact T_root|exact T_numbered
                                       |exact enough_fuel]. }
  intros t s1 (-> & Hh1 & Hlen1 & HT1 & Hd1).
  assert (Hm : mirrored arena T s1) by (unfold mirrored; now splits).
  apply wp_bind. eapply wp_mono.
  { now apply (wp_first_pass arena T T_tree T_root T_numbered fuel enough_fuel). }
  intros u s2 (Hh2 & HS2).
  set (S0 := map static (pstate s1)) in *.
  assert (HST : stree S0 (tsize T) 0 T) by (now apply ttree_stree).
  assert (Hdummy : is_Some (S0 !! tsize T)).
  { unfold S0, pstate. rewrite !map_fmap, !list_lookup_fmap, Hd1. now eexists. }
  destruct (stree_root _ _ _ _ HST) as (st & Hst & Hpar & _).
  rewrite T_root, <- HS2 in Hst. destruct (static_lookup _ _ _ Hst) as (q & Hq & Eq).
  apply wp_bind. apply (wp_getT_ptrs 0 q); [exact Hq|]. intros nt _ Hpt.
  assert (Hp' : t_parent nt = Some (tsize T)).
  { change (t_parent nt) with (s_parent (static (ptrs nt))). now rewrite Hpt, Eq. }
  apply wp_bind. eapply wp_nonnull; [exact Hp'|].
  apply wp_bind. eapply wp_mono.
  { apply wp_modT_num; [|reflexivity].
    destruct Hdummy as [std Hstd]. rewrite <- HS2 in Hstd.
    destruct (static_lookup _ _ _ Hstd) as (qd & Hqd & _). now exists qd. }
  intros u3 s3 [Hh3 HP3].
  assert (Hw3 : walked arena S0 s3).
  { split; [|now rewrite HP3]. unfold same_skel. now rewrite Hh3, Hh2. }
  apply wp_bind. eapply wp_mono.
  { apply (wp_second_pass arena T T_tree T_root fuel enough_fuel S0); [exact Hw3|].
    split; [|auto]. exists (tsize T), 0. now split. }
  intros u4 s4 [Hs4 _].
  apply wp_bind. eapply wp_mono; [now apply wp_extent_pass_deepest|].
  intros [[l r] b] s5 [(Hs5 & Hl & Hr & Hb) Hdeep]. cbn [snd] in Hdeep.
  destruct Hb as [ab Hab].
  destruct (skel_valid _ s5 _ Hs5 Hl) as [nl Hnl].
  destruct (skel_valid _ s5 _ Hs5 Hr) as [nr Hnr].
  destruct (skel_valid _ s5 _ Hs5 (ex_intro _ ab Hab)) as [nb Hnb].
  pose proof (skel_depth s5 _ _ _ Hs5 Hab Hnb) as Db.
  apply wp_bind, wp_getH. exists nl. split; [exact Hnl|].
  apply wp_bind, wp_getH. exists nr. split; [exact Hnr|].
  apply wp_bind, wp_getH. exists nb. split; [exact Hnb|].
  apply wp_bind.
  apply (wp_mono _ (fun _ s' => s' = s5)).
  { destruct (decide (l = r)); [now apply wp_ret|].
    apply wp_bind. eapply wp_mono.
    - apply wp_defaultSeparation; [now exists nl|now exists nr].
    - intros sep s6 ->. now apply wp_ret. }
  intros sep s6 ->. rewrite Db. fold (step dy (n_depth ab)). cbv zeta.
  eapply wp_mono; [apply wp_scale_pass_depths; exact Hs5|].
  intros u7 s7 H7. exists b, ab. split; [exact Hab|]. split; [exact Hdeep|exact H7].
Qed.

Lemma tree_depths dx dy :
  length arena = tsize T ->
  exists arena' b nb,
    tree fuel dx dy arena = Ok arena' /\ same_skel arena arena'
    /\ arena !! b = Some nb
    /\ (forall u nu, arena !! u = Some nu -> n_depth nu <= n_depth nb)
    /\ forall u n, arena' !! u = Some n ->
                   n_y n = (float_of_nat (n_depth n) * step dy (n_depth nb))%float.
Proof.
  intros Hlen.
  destruct (wp_tree_layout_depths dx dy) as (u & s' & Hrun & b & nb & Hb & Hdeep & Hs & Hy).
  pose proof (T_cover T T_root T_numbered fuel enough_fuel) as Hcover.
  exists (hnodes s'), b, nb. splits.
  - unfold tree, root. now rewrite Hrun.
  - exact Hs.
  - exact Hb.
  - intros v nv Hv. apply (Hdeep v nv nb); [|exact Hv|exact Hb].
    apply Hcover. apply lookup_lt_Some in Hv. lia.
  - intros v n Hn. destruct (Hy v) as (n' & Hn' & Hyn).
    + apply Hcover. apply lookup_lt_Some in Hn.
      assert (length (hnodes s') = length arena).
      { rewrite <- (length_map hskel), Hs. apply length_map. }
      lia.
    + rewrite Hn in Hn'. injection Hn' as <-. exact Hyn.
Qed.

End Depths.

(** ** What is drawn for a valid tree *)

Section Drawing.

Variable h : heap.

(** The line drawn for the node [c]: from its parent to it, where the
    layout has put them. *)
Definition the_line (arena : list HNode) (c : nid) : option LineEl :=
  match arena !! c with
  | Some nc =>
      match n_parent nc with
      | Some p =>
          match arena !! p with
          | Some np =>
              Some (mkLine "link" (n_x np) (n_y np) (n_x nc) (n_y nc) "#999" 2
                           (mkLink p c))
          | None => None
          end
      | None => None
      end
  | None => None
  end.

(** The [g.node] drawn for the node [d]: the circle and the name of its
    cow, where the layout has put it. *)
Definition the_node (arena : list HNode) (d : nid) : option NodeEl :=
  match arena !! d with
  | Some n =>
      match h !! n_data n with
      | Some c =>
          Some (mkNodeEl "node" (n_x n, n_y n) d
                         [Circle 20 "#89CFF0"; TextEl 5 "middle" (name c) "12px"])
      | None => None
      end
  | None => None
  end.

(** A node that no handler has touched. *)
Definition unflagged (n : HNode) : Prop :=
  n_dragging n = None /\ n_dragStart n = None.

Lemma omap_Forall2 {A B} (g : A -> outcome B) (Q : A -> B -> Prop) (l : list A) :
  Forall (fun a => exists b, g a = Ok b /\ Q a b) l ->
  exists l', omap g l = Ok l' /\ Forall2 Q l l'.
Proof.
  induction 1 as [|a l (b & Hb & HQ) _ (l' & Hl' & HQ')].
  - exists []. split; [reflexivity|constructor].
  - exists (b :: l'). cbn [omap]. rewrite Hb. cbn [obind]. rewrite Hl'. cbn [obind].
    split; [reflexivity|now constructor].
Qed.

Lemma hierarchy_loop_unflagged fuel : forall stack arena arena',
  Forall unflagged arena ->
  hierarchy_loop fuel h stack arena = Ok arena' ->
  Forall unflagged arena'.
Proof.
  induction fuel as [|fuel IH]; intros stack arena arena' Hall Hrun; [discriminate|].
  destruct stack as [|node rest]; cbn [hierarchy_loop] in Hrun.
  { now injection Hrun as <-. }
  unfold deref in Hrun. destruct (arena !! node) as [nd|] eqn:Hnd; [|discriminate].
  cbn [obind] in Hrun. unfold objectChildren, deref in Hrun.
  destruct (h !! n_data nd) as [c|]; [|discriminate]. cbn [obind] in Hrun.
  destruct (children c) as [[|c0 cs]|]; try (now apply (IH _ _ _ Hall Hrun)).
  eapply IH; [|exact Hrun].
  apply Forall_app. split.
  - apply Forall_insert; [exact Hall|].
    rewrite Forall_forall in Hall. apply (Hall nd). now apply list_elem_of_lookup_2 in Hnd.
  - unfold new_children. apply Forall_forall. intros n Hn.
    rewrite map_fmap in Hn. apply list_elem_of_fmap in Hn as (d & -> & _). now split.
Qed.

(** The drawing of a valid tree, in full: the hierarchy [arena] that is
    bound to it, the nodes [ns] in the order of their iteration, a line
    for each node but the root and a [g.node] for each node. *)
Lemma render_valid R fuel :
  unfolds h R -> tsize R < fuel ->
  exists arena T ns lines els,
    render fuel h (Some (label R)) = Ok (arena, map ALine lines ++ map ANode els)
    /\ tmap snd T = R /\ id_of T = root /\ htree arena None 0 T
    /\ numbered 1 T (tsize T) /\ length arena = tsize R
    /\ ns ≡ₚ ids T
    /\ iterate fuel arena [root] = Ok ns
    /\ Forall2 (fun u l => the_line arena u = Some l) (filter (fun n => n <> root) ns) lines
    /\ Forall2 (fun u g => the_node arena u = Some g) ns els
    /\ Forall unflagged arena
    /\ exists b nb,
         arena !! b = Some nb
         /\ (forall u nu, arena !! u = Some nu -> n_depth nu <= n_depth nb)
         /\ forall u n, arena !! u = Some n ->
              n_y n = (float_of_nat (n_depth n) * step (height - 100) (n_depth nb))%float.
Proof.
  intros HR Hfuel.
  destruct (hierarchy_total h R fuel HR Hfuel)
    as (arena0 & T & Hh & HTR & Hroot & HT0 & Hlen0 & _ & Hnum).
  assert (Hsz : tsize T = tsize R) by (rewrite <- HTR; symmetry; apply tsize_tmap).
  rewrite <- Hsz in Hnum, Hfuel, Hlen0.
  destruct (tree_depths arena0 T HT0 Hroot Hnum fuel Hfuel (width - 100) (height - 100) Hlen0)
    as (arena & b & nb0 & Htree & Hskel & Hb0 & Hdeep0 & Hy).
  pose proof (htree_skel _ _ _ _ _ Hskel HT0) as HT.
  assert (Hlen : length arena = length arena0).
  { rewrite <- (length_map hskel), Hskel. apply length_map. }
  destruct (iterate_forest arena fuel [T]) as (ns & Hns & Hperm).
  { simpl. lia. }
  { constructor; [now exists None, 0|constructor]. }
  cbn [map flat_map] in Hns, Hperm. rewrite app_nil_r in Hperm. rewrite Hroot in Hns.
  assert (Hin : forall u, u ∈ ns -> u ∈ ids T).
  { intros u Hu. now rewrite <- Hperm. }
  assert (HRT : unfolds h (tmap snd T)) by (now rewrite HTR).
  destruct (omap_Forall2 (link_of arena)
              (fun u l => target l = u
                          /\ exists p nc np, arena !! u = Some nc /\ n_parent nc = Some p
                                             /\ arena !! p = Some np /\ source l = p)
              (filter (fun n => n <> root) ns)) as (ls & Hls & Hls_ok).
  { apply Forall_forall. intros u Hu. apply list_elem_of_filter in Hu as [Hne Hu].
    destruct (htree_node h arena None 0 T u HRT HT (Hin u Hu)) as (nd & Hnd & _ & Hp).
    destruct Hp as (p & Hp & [np Hnp]); [now rewrite Hroot|].
    exists (mkLink p u). unfold link_of. rewrite (deref_Some _ _ _ Hnd). cbn [obind].
    rewrite Hp. splits; [reflexivity|reflexivity|]. now exists p, nd, np. }
  destruct (omap_Forall2 (draw_link arena)
              (fun l e => the_line arena (target l) = Some e) ls)
    as (lines & Hlines & Hlines_ok).
  { apply Forall_forall. intros l Hl.
    apply list_elem_of_lookup in Hl as [i Hi].
    destruct (Forall2_lookup_r _ _ _ i l Hls_ok Hi)
      as (u & _ & Ht & p & nc & np & Hnc & Hp & Hnp & Hs).
    eexists. unfold draw_link. rewrite Hs, Ht, (deref_Some _ _ _ Hnp). cbn [obind].
    rewrite (deref_Some _ _ _ Hnc). cbn [obind]. split; [reflexivity|].
    unfold the_line. rewrite Hnc, Hp, Hnp. destruct l as [sl tl].
    cbn [source target] in *. now subst. }
  destruct (omap_Forall2 (draw_node arena)
              (fun u g => exists n, arena !! u = Some n
                                    /\ g = mkNodeEl "node" (n_x n, n_y n) u []) ns)
    as (node0 & Hnode0 & Hnode0_ok).
  { apply Forall_forall. intros u Hu.
    destruct (htree_node h arena None 0 T u HRT HT (Hin u Hu)) as (nd & Hnd & _).
    eexists. unfold draw_node. rewrite (deref_Some _ _ _ Hnd). cbn [obind].
    split; [reflexivity|]. now exists nd. }
  destruct (omap_Forall2 (append_text h arena)
              (fun g e => the_node arena (g_datum g) = Some e)
              (map append_circle node0)) as (els & Hels & Hels_ok).
  { apply Forall_forall. intros g Hg. rewrite map_fmap in Hg.
    apply list_elem_of_fmap in Hg as (g0 & -> & Hg0).
    apply list_elem_of_lookup in Hg0 as [i Hi].
    destruct (Forall2_lookup_r _ _ _ i g0 Hnode0_ok Hi) as (u & Hu & n & Hn & ->).
    destruct (htree_node h arena None 0 T u HRT HT) as (nd & Hnd & [c Hcow] & _).
    { apply Hin. now apply list_elem_of_lookup_2 in Hu. }
    rewrite Hn in Hnd. injection Hnd as <-.
    eexists. unfold append_text. cbn [append_circle append_kid g_datum].
    rewrite (deref_Some _ _ _ Hn). cbn [obind].
    rewrite (deref_Some _ _ _ Hcow). cbn [obind]. split; [reflexivity|].
    unfold the_node. rewrite Hn, Hcow. reflexivity. }
  exists arena, T, ns, lines, els. splits.
  - unfold render. rewrite Hh. cbn [obind]. rewrite Htree. cbn [obind].
    unfold links, descendants. rewrite Hns. cbn [obind].
    rewrite Hls. cbn [obind]. unfold enter. cbn [select_lines flat_map length app].
    rewrite drop_0, Hlines. cbn [obind]. rewrite select_nodes_lines. cbn [length].
    rewrite drop_0, Hnode0. cbn [obind]. rewrite Hels. reflexivity.
  - exact HTR.
  - exact Hroot.
  - exact HT.
  - exact Hnum.
  - now rewrite Hlen, Hlen0.
  - exact Hperm.
  - exact Hns.
  - apply Forall2_same_length_lookup. split.
    + rewrite <- (Forall2_length _ _ _ Hlines_ok). apply (Forall2_length _ _ _ Hls_ok).
    + intros i u e Hu He.
      destruct (Forall2_lookup_r _ _ _ i e Hlines_ok He) as (l & Hl & Hle).
      destruct (Forall2_lookup_r _ _ _ i l Hls_ok Hl) as (u' & Hu' & Ht & _).
      rewrite Hu in Hu'. injection Hu' as <-. now rewrite <- Ht.
  - apply Forall2_same_length_lookup. split.
    + rewrite <- (Forall2_length _ _ _ Hels_ok), length_map.
      apply (Forall2_length _ _ _ Hnode0_ok).
    + intros i u e Hu He.
      destruct (Forall2_lookup_r _ _ _ i e Hels_ok He) as (g & Hg & Hge).
      rewrite map_fmap, list_lookup_fmap in Hg.
      destruct (node0 !! i) as [g0|] eqn:Hg0; [|discriminate]. injection Hg as <-.
      destruct (Forall2_lookup_r _ _ _ i g0 Hnode0_ok Hg0) as (u' & Hu' & n & Hn & ->).
      rewrite Hu in Hu'. injection Hu' as <-. exact Hge.
  - assert (H0 : Forall unflagged arena0).
    { unfold hierarchy in Hh. eapply hierarchy_loop_unflagged; [|exact Hh].
      constructor; [now split|constructor]. }
    apply Forall_forall. intros n Hn. apply list_elem_of_lookup in Hn as [i Hi].
    assert (Hi0 : is_Some (arena0 !! i)).
    { apply lookup_lt_is_Some. rewrite <- Hlen. now apply lookup_lt_Some in Hi. }
    destruct Hi0 as [n0 Hn0].
    destruct (same_skel_lookup _ _ _ _ Hskel Hn0) as (n' & Hn' & E).
    rewrite Hi in Hn'. injection Hn' as <-.
    rewrite Forall_forall in H0. destruct (H0 n0) as [F1 F2];
      [now apply list_elem_of_lookup_2 in Hn0|].
    injection E as _ _ _ _ E5 E6. split; congruence.
  - destruct (same_skel_lookup _ _ _ _ Hskel Hb0) as (nb & Hnb & Eb).
    assert (Db : n_depth nb = n_depth nb0) by (now injection Eb).
    exists b, nb. splits; [exact Hnb| |].
    + intros u nu Hu. rewrite Db.
      assert (Hu0 : is_Some (arena0 !! u)).
      { apply lookup_lt_is_Some. rewrite <- Hlen. now apply lookup_lt_Some in Hu. }
      destruct Hu0 as [nu0 Hnu0].
      destruct (same_skel_lookup _ _ _ _ Hskel Hnu0) as (n' & Hn' & E).
      rewrite Hu in Hn'. injection Hn' as <-.
      assert (n_depth nu = n_depth nu0) as -> by (now injection E).
      now apply (Hdeep0 u).
    + intros u n Hu. rewrite Db. now apply (Hy u).
Qed.

Lemma the_line_class arena u l : the_line arena u = Some l -> l_class l = "link".
Proof.
  unfold the_line. destruct (arena !! u) as [nc|]; [|discriminate].
  destruct (n_parent nc) as [p|]; [|discriminate].
  destruct (arena !! p); [|discriminate]. now intros [= <-].
Qed.

Lemma the_node_class arena u g :
  the_node arena u = Some g -> g_class g = "node" /\ g_datum g = u.
Proof.
  unfold the_node. destruct (arena !! u) as [n|]; [|discriminate].
  destruct (h !! n_data n); [|discriminate]. now intros [= <-].
Qed.

(** The identifiers of a numbered tree are the first numbers. *)
Lemma ids_seq T :
  id_of T = 0 -> numbered 1 T (tsize T) -> ids T ≡ₚ seq 0 (tsize T).
Proof.
  intros Hroot Hnum.
  pose proof (numbered_NoDup 1 T _ Hnum) as Hnd. rewrite Hroot in Hnd.
  specialize (Hnd (Nat.lt_0_1)).
  destruct (numbered_ok T _ _ Hnum) as (_ & Hrange & _).
  apply submseteq_length_Permutation.
  - apply NoDup_submseteq; [exact Hnd|]. intros x Hx. apply elem_of_seq.
    rewrite ids_below, Hroot in Hx. apply elem_of_cons in Hx as [->|Hx].
    + pose proof (tsize_pos T). lia.
    + rewrite Forall_forall in Hrange. specialize (Hrange x Hx). lia.
  - now rewrite length_seq, length_ids.
Qed.

Lemma below_seq T :
  id_of T = 0 -> numbered 1 T (tsize T) -> below T ≡ₚ seq 1 (tsize T - 1).
Proof.
  intros Hroot Hnum. pose proof (ids_seq T Hroot Hnum) as H.
  rewrite ids_below, Hroot in H.
  pose proof (tsize_pos T) as Hpos.
  replace (tsize T) with (S (tsize T - 1)) in H at 1 by lia.
  cbn [seq] in H. now apply Permutation_cons_inv in H.
Qed.

(** The nodes that get a line. *)
Lemma filter_nonroot T ns :
  id_of T = 0 -> numbered 1 T (tsize T) -> ns ≡ₚ ids T ->
  filter (fun n => n <> root) ns ≡ₚ below T.
Proof.
  intros Hroot Hnum Hperm. rewrite Hperm, ids_below, Hroot.
  rewrite filter_cons_False by (intros E; now apply E).
  rewrite filter_all; [reflexivity|].
  apply Forall_forall. intros u Hu ->.
  pose proof (numbered_NoDup 1 T _ Hnum) as Hnd. rewrite Hroot in Hnd.
  specialize (Hnd (Nat.lt_0_1)). rewrite ids_below, Hroot in Hnd.
  now apply NoDup_cons in Hnd as [Hnd _].
Qed.

(** The page after [createTree] has drawn a valid tree. *)
Lemma createTree_valid (w : World) R fuel :
  w_heap w = h -> unfolds h R -> tsize R < fuel ->
  exists arena T ns lines els,
    createTree fuel (Some (label R)) w
    = (Ok tt, set_nodes arena
                (set_container [mkSvg width height (50, 50)%float
                                      (map ALine lines ++ map ANode els)] w))
    /\ drawn_lines (snd (createTree fuel (Some (label R)) w)) = lines
    /\ drawn_nodes (snd (createTree fuel (Some (label R)) w)) = els
    /\ tmap snd T = R /\ id_of T = root /\ htree arena None 0 T
    /\ numbered 1 T (tsize T) /\ length arena = tsize R
    /\ ns ≡ₚ ids T
    /\ iterate fuel arena [root] = Ok ns
    /\ Forall2 (fun u l => the_line arena u = Some l) (filter (fun n => n <> root) ns) lines
    /\ Forall2 (fun u g => the_node arena u = Some g) ns els
    /\ Forall unflagged arena
    /\ exists b nb,
         arena !! b = Some nb
         /\ (forall u nu, arena !! u = Some nu -> n_depth nu <= n_depth nb)
         /\ forall u n, arena !! u = Some n ->
              n_y n = (float_of_nat (n_depth n) * step (height - 100) (n_depth nb))%float.
Proof.
  intros Hw HR Hfuel.
  destruct (render_valid R fuel HR Hfuel)
    as (arena & T & ns & lines & els & Hrun & HTR & Hroot & HT & Hnum & Hlen & Hperm & Hiter
        & Hlines & Hels & Hflags & Hy).
  assert (Hrun' : createTree fuel (Some (label R)) w
                  = (Ok tt, set_nodes arena
                              (set_container [mkSvg width height (50, 50)%float
                                                    (map ALine lines ++ map ANode els)] w))).
  { unfold createTree. now rewrite Hw, Hrun. }
  assert (Hlc : Forall (fun l => l_class l = "link") lines).
  { apply Forall_forall. intros l Hl. apply list_elem_of_lookup in Hl as [i Hi].
    destruct (Forall2_lookup_r _ _ _ i l Hlines Hi) as (u & _ & Hu).
    now apply (the_line_class arena u). }
  assert (Hnc : Forall (fun g => g_class g = "node") els).
  { apply Forall_forall. intros g Hg. apply list_elem_of_lookup in Hg as [i Hi].
    destruct (Forall2_lookup_r _ _ _ i g Hels Hi) as (u & _ & Hu).
    now apply (the_node_class arena u). }
  exists arena, T, ns, lines, els. rewrite Hrun'. splits; try assumption.
  - reflexivity.
  - unfold drawn_lines. cbn [snd container set_nodes set_container flat_map g_children].
    rewrite app_nil_r, select_lines_app, select_lines_nodes, select_lines_lines by exact Hlc.
    apply app_nil_r.
  - unfold drawn_nodes. cbn [snd container set_nodes set_container flat_map g_children].
    rewrite app_nil_r, select_nodes_app, select_nodes_lines, select_nodes_nodes by exact Hnc.
    reflexivity.
Qed.

End Drawing.

Section DrawnTree.

Lemma Forall2_map_r {A B} (P : A -> B -> Prop) (f : B -> A) l l' :
  (forall a b, P a b -> f b = a) -> Forall2 P l l' -> map f l' = l.
Proof.
  intros Hf. induction 1 as [|a b l l' Hab _ IH]; [reflexivity|].
  cbn [map]. now rewrite (Hf a b Hab), IH.
Qed.

Lemma the_line_target arena u l : the_line arena u = Some l -> target (l_datum l) = u.
Proof.
  unfold the_line. destruct (arena !! u) as [nc|]; [|discriminate].
  destruct (n_parent nc) as [p|]; [|discriminate].
  destruct (arena !! p); [|discriminate]. now intros [= <-].
Qed.

(** X1: [createTree] leaves one [svg] of 800 by 600 in the container,
    whatever the container held; its [g], translated by (50,50), holds the
    lines first and the nodes after them, so that every node is painted
    over every line. *)
Theorem X1_lines_under_nodes (w : World) (R : Tree nat) (fuel : nat) :
  unfolds (w_heap w) R -> tsize R < fuel ->
  exists w',
    createTree fuel (Some (label R)) w = (Ok tt, w')
    /\ container w'
       = [mkSvg 800 600 (50, 50)%float
                (map ALine (drawn_lines w') ++ map ANode (drawn_nodes w'))].
Proof.
  intros HR Hfuel.
  destruct (createTree_valid (w_heap w) w R fuel eq_refl HR Hfuel)
    as (arena & T & ns & lines & els & Hrun & Hl & Hn & _).
  rewrite Hrun in Hl, Hn. cbn [snd] in Hl, Hn.
  eexists. split; [exact Hrun|]. rewrite Hl, Hn. reflexivity.
Qed.

(** X2: for a valid tree there is one [g.node] for each node of the
    hierarchy bound to the drawing; it is placed where the layout has put
    its node and holds a circle of radius 20 and then the name of the cow
    of its node, as a text. *)
Theorem X2_one_element_per_node (w : World) (R : Tree nat) (fuel : nat) :
  unfolds (w_heap w) R -> tsize R < fuel ->
  exists w',
    createTree fuel (Some (label R)) w = (Ok tt, w')
    /\ length (nodes w') = tsize R
    /\ map g_datum (drawn_nodes w') ≡ₚ seq 0 (tsize R)
    /\ Forall (fun g =>
                 exists n c,
                   nodes w' !! g_datum g = Some n
                   /\ w_heap w !! n_data n = Some c
                   /\ g = mkNodeEl "node" (n_x n, n_y n) (g_datum g)
                                   [Circle 20 "#89CFF0";
                                    TextEl 5 "middle" (name c) "12px"])
              (drawn_nodes w').
Proof.
  intros HR Hfuel.
  destruct (createTree_valid (w_heap w) w R fuel eq_refl HR Hfuel)
    as (arena & T & ns & lines & els & Hrun & Hl & Hn & HTR & Hroot & HT & Hnum & Hlen
        & Hperm & Hiter & Hlines & Hels & _).
  rewrite Hrun in Hl, Hn. cbn [snd] in Hl, Hn.
  assert (Hsz : tsize T = tsize R) by (rewrite <- HTR; symmetry; apply tsize_tmap).
  eexists. split; [exact Hrun|]. rewrite Hn. cbn [nodes set_nodes]. splits.
  - exact Hlen.
  - assert (Hd : map g_datum els = ns).
    { eapply Forall2_map_r; [|exact Hels].
      intros u g Hg. now apply the_node_class in Hg. }
    rewrite Hd, Hperm, <- Hsz. now apply ids_seq.
  - apply Forall_forall. intros g Hg. apply list_elem_of_lookup in Hg as [i Hi].
    destruct (Forall2_lookup_r _ _ _ i g Hels Hi) as (u & _ & Hu).
    unfold the_node in Hu. destruct (arena !! u) as [n|] eqn:En; [|discriminate].
    destruct (w_heap w !! n_data n) as [c|] eqn:Ec; [|discriminate].
    injection Hu as <-. cbn [g_datum]. now exists n, c.
Qed.

(** X3: for a valid tree there is one [line.link] for each node but the
    root; it joins the parent of the node to the node, from where the
    layout has put the one to where it has put the other, in [#999] and
    2 wide. *)
Theorem X3_one_line_per_child (w : World) (R : Tree nat) (fuel : nat) :
  unfolds (w_heap w) R -> tsize R < fuel ->
  exists w',
    createTree fuel (Some (label R)) w = (Ok tt, w')
    /\ map (fun l => target (l_datum l)) (drawn_lines w') ≡ₚ seq 1 (tsize R - 1)
    /\ Forall (fun l =>
                 exists s t,
                   nodes w' !! source (l_datum l) = Some s
                   /\ nodes w' !! target (l_datum l) = Some t
                   /\ n_parent t = Some (source (l_datum l))
                   /\ l = mkLine "link" (n_x s) (n_y s) (n_x t) (n_y t) "#999" 2
                                 (l_datum l))
              (drawn_lines w').
Proof.
  intros HR Hfuel.
  destruct (createTree_valid (w_heap w) w R fuel eq_refl HR Hfuel)
    as (arena & T & ns & lines & els & Hrun & Hl & Hn & HTR & Hroot & HT & Hnum & Hlen
        & Hperm & Hiter & Hlines & Hels & _).
  rewrite Hrun in Hl, Hn. cbn [snd] in Hl, Hn.
  assert (Hsz : tsize T = tsize R) by (rewrite <- HTR; symmetry; apply tsize_tmap).
  eexists. split; [exact Hrun|]. rewrite Hl. cbn [nodes set_nodes]. split.
  - assert (Hd : map (fun l => target (l_datum l)) lines
                 = filter (fun n => n <> root) ns).
    { eapply Forall2_map_r; [|exact Hlines].
      intros u l Hu. now apply the_line_target in Hu. }
    rewrite Hd, (filter_nonroot T ns Hroot Hnum Hperm), <- Hsz. now apply below_seq.
  - apply Forall_forall. intros l Hin. apply list_elem_of_lookup in Hin as [i Hi].
    destruct (Forall2_lookup_r _ _ _ i l Hlines Hi) as (u & _ & Hu).
    unfold the_line in Hu. destruct (arena !! u) as [nc|] eqn:Ec; [|discriminate].
    destruct (n_parent nc) as [p|] eqn:Ep; [|discriminate].
    destruct (arena !! p) as [np|] eqn:Enp; [|discriminate].
    injection Hu as <-. cbn [l_datum source target]. now exists np, nc.
Qed.

(** Every node of a hierarchy is the root of a hierarchy, and what
    unfolds above unfolds below. *)
Lemma htree_sub (h : heap) arena parent depth T u :
  htree arena parent depth T -> unfolds h (tmap snd T) -> u ∈ ids T ->
  exists parent' depth' T',
    htree arena parent' depth' T' /\ unfolds h (tmap snd T') /\ id_of T' = u.
Proof.
  revert parent depth u. induction T as [[id r] ks IH] using Tree_ind'.
  intros parent depth u HT HR Hu.
  rewrite ids_cons in Hu. cbn [fst] in Hu. apply elem_of_cons in Hu as [->|Hu].
  - now exists parent, depth, (Node (id, r) ks).
  - apply list_elem_of_In, in_flat_map in Hu as (k & Hk & Hu).
    apply list_elem_of_In in Hk, Hu.
    inversion HR as [? c ? Hc _ HRs]; subst.
    inversion HT as [? ? ? ? ? nd Hnd _ _ _ _ Hks]; subst.
    rewrite Forall_forall in IH. rewrite Forall_forall in Hks.
    rewrite Forall_forall in HRs.
    apply (IH k Hk (Some id) (S depth)); [now apply Hks| |exact Hu].
    apply HRs. rewrite map_fmap. apply list_elem_of_fmap. now exists k.
Qed.

(** X4: the hierarchy bound to the drawing mirrors the data: its root is
    the node of the root object, without a parent and at depth 0; the
    children of the node of an object are the nodes of the children of
    the object, in their order, each with that node as its parent and one
    deeper. *)
Theorem X4_hierarchy_mirrors_data (w : World) (R : Tree nat) (fuel : nat) :
  unfolds (w_heap w) R -> tsize R < fuel ->
  exists w',
    createTree fuel (Some (label R)) w = (Ok tt, w')
    /\ (exists n0, nodes w' !! root = Some n0 /\ n_data n0 = label R
                   /\ n_parent n0 = None /\ n_depth n0 = 0)
    /\ forall u n, nodes w' !! u = Some n ->
         exists c, w_heap w !! n_data n = Some c
                   /\ Forall2 (fun k r =>
                                 exists nk, nodes w' !! k = Some nk /\ n_data nk = r
                                            /\ n_parent nk = Some u
                                            /\ n_depth nk = S (n_depth n))
                              (default [] (n_children n)) (default [] (children c)).
Proof.
  intros HR Hfuel.
  destruct (createTree_valid (w_heap w) w R fuel eq_refl HR Hfuel)
    as (arena & T & ns & lines & els & Hrun & _ & _ & HTR & Hroot & HT & Hnum & Hlen & _).
  assert (Hsz : tsize T = tsize R) by (rewrite <- HTR; symmetry; apply tsize_tmap).
  assert (HRT : unfolds (w_heap w) (tmap snd T)) by (now rewrite HTR).
  eexists. split; [exact Hrun|]. cbn [nodes set_nodes]. split.
  - destruct (htree_root _ _ _ _ HT) as (n0 & Hn0 & Hp & Hd & Hdata & _).
    rewrite Hroot in Hn0. exists n0. splits; try assumption.
    rewrite Hdata, <- HTR. now destruct T.
  - intros u n Hn.
    assert (Hu : u ∈ ids T).
    { rewrite (ids_seq T Hroot Hnum). apply elem_of_seq.
      apply lookup_lt_Some in Hn. lia. }
    destruct (htree_sub _ _ _ _ _ _ HT HRT Hu) as (p' & d' & [[id r] ks] & HT' & HR' & Hid).
    cbn [id_of label fst] in Hid. subst id.
    inversion HT' as [? ? ? ? ? nd Hnd Hdata _ Hdepth Hc Hks]; subst.
    rewrite Hn in Hnd. injection Hnd as <-.
    inversion HR' as [? c ? Hcow Hcs HRs]; subst.
    exists c. split; [exact Hcow|].
    assert (E1 : default [] (n_children n) = map id_of ks).
    { rewrite Hc. now destruct ks. }
    assert (E2 : default [] (children c) = map (fun k => snd (label k)) ks).
    { destruct ks as [|k ks].
      - now destruct Hcs as [-> | ->].
      - rewrite Hcs. cbn [default]. rewrite map_map. apply map_ext.
        now intros [l ks']. }
    rewrite E1, E2. clear E1 E2 Hc Hcs HRs HR' HT'.
    induction Hks as [|k ks Hk _ IH]; [constructor|].
    cbn [map]. constructor; [|exact IH].
    destruct (htree_root _ _ _ _ Hk) as (nk & Hnk & Hp & Hd & Hdk & _).
    exists nk. now splits.
Qed.

(** X5: the generations are drawn on rows: every [g.node] is at the
    height of the depth of its node times one step, the step being the
    height of the layout, 500, divided by the depth of the deepest node
    (by 1 when the root is alone). *)
Theorem X5_generations_on_rows (w : World) (R : Tree nat) (fuel : nat) :
  unfolds (w_heap w) R -> tsize R < fuel ->
  exists w' deepest_node,
    createTree fuel (Some (label R)) w = (Ok tt, w')
    /\ deepest_node ∈ nodes w'
    /\ (forall n, n ∈ nodes w' -> n_depth n <= n_depth deepest_node)
    /\ Forall (fun g =>
                 exists n,
                   nodes w' !! g_datum g = Some n
                   /\ snd (transform g)
                      = (float_of_nat (n_depth n)
                         * step (height - 100) (n_depth deepest_node))%float)
              (drawn_nodes w').
Proof.
  intros HR Hfuel.
  destruct (createTree_valid (w_heap w) w R fuel eq_refl HR Hfuel)
    as (arena & T & ns & lines & els & Hrun & Hl & Hn & HTR & Hroot & HT & Hnum & Hlen
        & Hperm & Hiter & Hlines & Hels & _ & b & nb & Hb & Hdeep & Hy).
  rewrite Hrun in Hl, Hn. cbn [snd] in Hl, Hn.
  eexists. exists nb. split; [exact Hrun|]. rewrite Hn. cbn [nodes set_nodes]. splits.
  - now apply list_elem_of_lookup_2 in Hb.
  - intros n Hin. apply list_elem_of_lookup in Hin as [u Hu]. now apply (Hdeep u).
  - apply Forall_forall. intros g Hg. apply list_elem_of_lookup in Hg as [i Hi].
    destruct (Forall2_lookup_r _ _ _ i g Hels Hi) as (u & _ & Hu).
    unfold the_node in Hu. destruct (arena !! u) as [n|] eqn:En; [|discriminate].
    destruct (w_heap w !! n_data n) as [c|]; [|discriminate].
    injection Hu as <-. cbn [g_datum transform snd]. exists n. split; [exact En|].
    now apply (Hy u).
Qed.

(** X6: when a valid tree has just been drawn, the end of a drag that
    has not started (on any node, at any time) opens no dialog and leaves
    the drawing and the layout as they are: [d['dragStart']] is undefined
    and the comparison with 200 is false. *)
Theorem X6_release_without_press (w : World) (R : Tree nat) (fuel : nat)
    (d : nid) (t : Z) :
  unfolds (w_heap w) R -> tsize R < fuel ->
  exists w',
    createTree fuel (Some (label R)) w = (Ok tt, w')
    /\ dialogs (on_end t d w') = dialogs w
    /\ container (on_end t d w') = container w'
    /\ layout_of (on_end t d w') = layout_of w'.
Proof.
  intros HR Hfuel.
  destruct (createTree_valid (w_heap w) w R fuel eq_refl HR Hfuel)
    as (arena & T & ns & lines & els & Hrun & _ & _ & _ & _ & _ & _ & _ & _ & _ & _ & _
        & Hflags & _).
  eexists. split; [exact Hrun|]. splits.
  - unfold on_end. cbn [nodes set_nodes]. destruct (arena !! d) as [n|] eqn:En.
    + rewrite Forall_forall in Hflags.
      destruct (Hflags n) as [_ Hstart]; [now apply list_elem_of_lookup_2 in En|].
      unfold wasClick. rewrite Hstart. reflexivity.
    + reflexivity.
  - apply container_on_end.
  - apply layout_on_end.
Qed.

(** The texts of a [g.node]. *)
Definition texts (g : NodeEl) : list string :=
  flat_map (fun k => match k with
                     | TextEl _ _ s _ => [s]
                     | Circle _ _ => []
                     end) (g_kids g).

Lemma names_of_tree (h : heap) arena parent depth T :
  htree arena parent depth T -> unfolds h (tmap snd T) ->
  exists cs,
    Forall2 (fun r c => h !! r = Some c) (labels (tmap snd T)) cs
    /\ flat_map (fun u => match the_node h arena u with
                          | Some g => texts g
                          | None => []
                          end) (ids T)
       = map name cs.
Proof.
  revert parent depth. induction T as [[id r] ks IH] using Tree_ind'.
  intros parent depth HT HR.
  inversion HR as [? c ? Hc _ HRs]; subst.
  inversion HT as [? ? ? ? ? nd Hnd Hdata _ _ _ Hks]; subst.
  assert (Hkids : exists css,
            Forall2 (fun r c => h !! r = Some c)
                    (flat_map labels (map (tmap snd) ks)) css
            /\ flat_map (fun u => match the_node h arena u with
                                  | Some g => texts g
                                  | None => []
                                  end) (flat_map ids ks)
               = map name css).
  { clear Hnd Hc HR HT. induction ks as [|k ks IHks].
    - exists []. split; [constructor|reflexivity].
    - apply Forall_cons in IH as [IHk IH]. apply Forall_cons in Hks as [Hk Hks].
      cbn [map] in HRs. apply Forall_cons in HRs as [HRk HRs].
      destruct (IHk _ _ Hk HRk) as (cs1 & F1 & E1).
      destruct (IHks IH HRs Hks) as (cs2 & F2 & E2).
      exists (cs1 ++ cs2). cbn [map flat_map]. split.
      + now apply Forall2_app.
      + now rewrite flat_map_app, E1, E2, map_app. }
  destruct Hkids as (css & F & E).
  exists (c :: css). split.
  - cbn [tmap labels snd]. constructor; [exact Hc|exact F].
  - rewrite ids_cons. cbn [fst flat_map]. rewrite E.
    unfold the_node. rewrite Hnd, Hc. reflexivity.
Qed.

(** X7: the names on the page are the names of the tree: the texts of
    the [g.node] elements are, up to their order, the names of the
    objects of the tree, one for each occurrence of an object. *)
Theorem X7_names_on_the_page (w : World) (R : Tree nat) (fuel : nat) :
  unfolds (w_heap w) R -> tsize R < fuel ->
  exists w' cs,
    createTree fuel (Some (label R)) w = (Ok tt, w')
    /\ Forall2 (fun r c => w_heap w !! r = Some c) (labels R) cs
    /\ flat_map texts (drawn_nodes w') ≡ₚ map name cs.
Proof.
  intros HR Hfuel.
  destruct (createTree_valid (w_heap w) w R fuel eq_refl HR Hfuel)
    as (arena & T & ns & lines & els & Hrun & Hl & Hn & HTR & Hroot & HT & Hnum & Hlen
        & Hperm & Hiter & Hlines & Hels & _).
  rewrite Hrun in Hl, Hn. cbn [snd] in Hl, Hn.
  assert (HRT : unfolds (w_heap w) (tmap snd T)) by (now rewrite HTR).
  destruct (names_of_tree _ _ _ _ _ HT HRT) as (cs & F & E).
  rewrite HTR in F.
  eexists. exists cs. split; [exact Hrun|]. split; [exact F|].
  rewrite Hn, <- E, <- Hperm.
  clear -Hels. induction Hels as [|u g ns els Hg _ IH]; [reflexivity|].
  cbn [flat_map]. now rewrite Hg, IH.
Qed.

(** X14: the lines are attached to the nodes: every line starts where
    the [g.node] of its source is drawn and ends where the [g.node] of
    its target is drawn. *)
Theorem X14_lines_are_attached (w : World) (R : Tree nat) (fuel : nat) :
  unfolds (w_heap w) R -> tsize R < fuel ->
  exists w',
    createTree fuel (Some (label R)) w = (Ok tt, w')
    /\ Forall (fun l =>
                 exists gs gt,
                   gs ∈ drawn_nodes w' /\ gt ∈ drawn_nodes w'
                   /\ g_datum gs = source (l_datum l)
                   /\ g_datum gt = target (l_datum l)
                   /\ transform gs = (x1 l, y1 l)
                   /\ transform gt = (x2 l, y2 l))
              (drawn_lines w').
Proof.
  intros HR Hfuel.
  destruct (createTree_valid (w_heap w) w R fuel eq_refl HR Hfuel)
    as (arena & T & ns & lines & els & Hrun & Hl & Hn & HTR & Hroot & HT & Hnum & Hlen
        & Hperm & Hiter & Hlines & Hels & _).
  rewrite Hrun in Hl, Hn. cbn [snd] in Hl, Hn.
  assert (Hsz : tsize T = tsize R) by (rewrite <- HTR; symmetry; apply tsize_tmap).
  assert (Hel : forall u n, arena !! u = Some n ->
                  exists g, g ∈ els /\ g_datum g = u /\ transform g = (n_x n, n_y n)).
  { intros u n Hu.
    assert (Hin : u ∈ ns).
    { rewrite Hperm, (ids_seq T Hroot Hnum). apply elem_of_seq.
      apply lookup_lt_Some in Hu. lia. }
    apply list_elem_of_lookup in Hin as [i Hi].
    destruct (Forall2_lookup_l _ _ _ i u Hels Hi) as (g & Hg & Hgu).
    exists g. split; [now apply list_elem_of_lookup_2 in Hg|].
    unfold the_node in Hgu. rewrite Hu in Hgu.
    destruct (w_heap w !! n_data n); [|discriminate]. now injection Hgu as <-. }
  eexists. split; [exact Hrun|]. rewrite Hl, Hn.
  apply Forall_forall. intros l Hin. apply list_elem_of_lookup in Hin as [i Hi].
  destruct (Forall2_lookup_r _ _ _ i l Hlines Hi) as (u & _ & Hu).
  unfold the_line in Hu. destruct (arena !! u) as [nc|] eqn:Ec; [|discriminate].
  destruct (n_parent nc) as [p|] eqn:Ep; [|discriminate].
  destruct (arena !! p) as [np|] eqn:Enp; [|discriminate].
  injection Hu as <-. cbn [l_datum source target x1 y1 x2 y2].
  destruct (Hel p np Enp) as (gs & Hgs & Hds & Hts).
  destruct (Hel u nc Ec) as (gt & Hgt & Hdt & Htt).
  exists gs, gt. now splits.
Qed.

(** The depth of a node, 0 for what is no node. *)
Definition depth_of (arena : list HNode) (u : nid) : nat :=
  match arena !! u with
  | Some n => n_depth n
  | None => 0
  end.

(** The iteration of a forest of one depth lists it first and then what
    is deeper, level after level. *)
Lemma iterate_levels arena fuel : forall Ts d l,
  Forall (fun T => exists parent, htree arena parent d T) Ts ->
  iterate fuel arena (map id_of Ts) = Ok l ->
  (exists later, l = map id_of Ts ++ later)
  /\ Forall (fun u => d <= depth_of arena u) l
  /\ forall i j u v, i <= j -> l !! i = Some u -> l !! j = Some v ->
                     depth_of arena u <= depth_of arena v.
Proof.
  induction fuel as [|fuel IH]; intros Ts d l HTs Hrun; [discriminate|].
  destruct Ts as [|T Ts].
  { injection Hrun as <-. splits; [now exists []|constructor|]. intros i j u v _ Hu. inversion Hu. }
  assert (Hsub : Forall (hsub arena) (T :: Ts)).
  { eapply Forall_impl; [exact HTs|]. intros T' [par HT']. now exists par, d. }
  assert (Hhere : Forall (fun u => depth_of arena u = d) (map id_of (T :: Ts))).
  { apply Forall_map. eapply Forall_impl; [exact HTs|]. intros T' [par HT'].
    destruct (htree_root _ _ _ _ HT') as (nd & Hnd & _ & Hd & _).
    unfold depth_of. now rewrite Hnd. }
  assert (Hkids : Forall (fun T' => exists parent, htree arena parent (S d) T')
                         (flat_map kids (T :: Ts))).
  { apply Forall_forall. intros k Hk.
    apply list_elem_of_In, in_flat_map in Hk as (T' & HT' & Hk).
    apply list_elem_of_In in HT', Hk. rewrite Forall_forall in HTs.
    destruct (HTs T' HT') as [par HT''].
    destruct (htree_root _ _ _ _ HT'') as (nd & _ & _ & _ & _ & _ & Hks).
    rewrite Forall_forall in Hks. exists (Some (id_of T')). now apply Hks. }
  remember (T :: Ts) as Ts0 eqn:ETs.
  assert (Hne : map id_of Ts0 <> []) by (now rewrite ETs).
  cbn [iterate] in Hrun. destruct (map id_of Ts0) as [|x xs] eqn:Ex; [contradiction|].
  rewrite <- Ex in *. clear Ex x xs.
  rewrite (omap_node_children arena Ts0 Hsub) in Hrun. cbn [obind] in Hrun.
  rewrite concat_kids in Hrun.
  destruct (iterate fuel arena (map id_of (flat_map kids Ts0))) as [later| |] eqn:El;
    try discriminate.
  cbn [obind] in Hrun. injection Hrun as <-.
  destruct (IH _ _ _ Hkids El) as (_ & Hdeep & Hsorted).
  splits.
  - now exists later.
  - apply Forall_app. split.
    + eapply Forall_impl; [exact Hhere|]. simpl. intros. lia.
    + eapply Forall_impl; [exact Hdeep|]. simpl. intros. lia.
  - intros i j u v Hij Hu Hv.
    rewrite Forall_forall in Hhere. rewrite Forall_forall in Hdeep.
    destruct (decide (j < length (map id_of Ts0))) as [Hj|Hj].
    + rewrite lookup_app_l in Hu by lia. rewrite lookup_app_l in Hv by lia.
      assert (Eu : depth_of arena u = d).
      { apply Hhere. eapply list_elem_of_lookup_2. exact Hu. }
      assert (Ev : depth_of arena v = d).
      { apply Hhere. eapply list_elem_of_lookup_2. exact Hv. }
      lia.
    + rewrite lookup_app_r in Hv by lia.
      assert (Hv' : S d <= depth_of arena v).
      { apply Hdeep. eapply list_elem_of_lookup_2. exact Hv. }
      destruct (decide (i < length (map id_of Ts0))) as [Hi|Hi].
      * rewrite lookup_app_l in Hu by lia.
        assert (Eu : depth_of arena u = d).
        { apply Hhere. eapply list_elem_of_lookup_2. exact Hu. }
        lia.
      * rewrite lookup_app_r in Hu by lia.
        apply (Hsorted (i - length (map id_of Ts0)) (j - length (map id_of Ts0)));
          [lia|exact Hu|exact Hv].
Qed.

(** X15: the [g.node] elements come in the order of the iteration of the
    hierarchy, breadth first: the element of the root is the first of
    them, and along the document the depth of the nodes never
    decreases. *)
Theorem X15_nodes_level_by_level (w : World) (R : Tree nat) (fuel : nat) :
  unfolds (w_heap w) R -> tsize R < fuel ->
  exists w',
    createTree fuel (Some (label R)) w = (Ok tt, w')
    /\ g_datum <$> head (drawn_nodes w') = Some root
    /\ forall i j gi gj, i <= j ->
         drawn_nodes w' !! i = Some gi -> drawn_nodes w' !! j = Some gj ->
         depth_of (nodes w') (g_datum gi) <= depth_of (nodes w') (g_datum gj).
Proof.
  intros HR Hfuel.
  destruct (createTree_valid (w_heap w) w R fuel eq_refl HR Hfuel)
    as (arena & T & ns & lines & els & Hrun & Hl & Hn & HTR & Hroot & HT & Hnum & Hlen
        & Hperm & Hiter & Hlines & Hels & _).
  rewrite Hrun in Hl, Hn. cbn [snd] in Hl, Hn.
  destruct (iterate_levels arena fuel [T] 0 ns) as ([later Hns] & _ & Hsorted).
  { constructor; [now exists None|constructor]. }
  { cbn [map]. now rewrite Hroot. }
  cbn [map app] in Hns. rewrite Hroot in Hns.
  assert (Hdat : map g_datum els = ns).
  { eapply Forall2_map_r; [|exact Hels].
    intros u g Hg. now apply the_node_class in Hg. }
  eexists. split; [exact Hrun|]. rewrite Hn. cbn [nodes set_nodes]. split.
  - destruct els as [|g els']; [now rewrite Hns in Hdat|].
    cbn [map] in Hdat. rewrite Hns in Hdat. injection Hdat as Hg _.
    cbn [head fmap option_fmap option_map]. now rewrite Hg.
  - intros i j gi gj Hij Hi Hj. apply (Hsorted i j); [exact Hij| |].
    + now rewrite <- Hdat, map_fmap, list_lookup_fmap, Hi.
    + now rewrite <- Hdat, map_fmap, list_lookup_fmap, Hj.
Qed.

End DrawnTree.

(** ** Sessions

    A session is a sequence of gestures, one after the other, each over
    some node: the pointer goes down (with some button, or as a touch;
    with or without ctrl), moves, and goes up. *)

Record Gesture := mkGesture {
  ges_press : Press;
  ges_node : nid;
  ges_down : Z;
  ges_at : Point;
  ges_moves : list Point;
  ges_up : Z
}.

Definition run (g : Gesture) (w : World) : World :=
  gesture (ges_press g) (ges_node g) (ges_down g) (ges_at g) (ges_moves g) (ges_up g) w.

Definition session (gs : list Gesture) (w : World) : World :=
  fold_left (fun w g => run g w) gs w.

(** The call of [dialog.open] that a gesture makes, if it makes one: its
    press was accepted by the filter, and less than 200 ms went by. *)
Definition click_of (ns : list HNode) (g : Gesture) : list DialogOpen :=
  match ns !! ges_node g with
  | Some n =>
      if defaultFilter (ges_press g) && (ges_up g - ges_down g <? 200)%Z
      then [mkDialogOpen "CowDialogComponent" (n_data n)]
      else []
  | None => []
  end.

(** A node but for the properties that the handlers add, and a [g.node]
    but for where it is. *)
Definition hcore (n : HNode)
  : nat * nat * option nat * option (list nat) * float * float :=
  (n_data n, n_depth n, n_parent n, n_children n, n_x n, n_y n).

Definition el_core (g : NodeEl) : string * nid * list NodeKid :=
  (g_class g, g_datum g, g_kids g).

Section Sessions.

Lemma map_alter_same {A B} (f : A -> B) (g : A -> A) (d : nat) (l : list A) :
  (forall a, f (g a) = f a) -> map f (alter g d l) = map f l.
Proof.
  intros H. revert d. induction l as [|a l IH]; intros [|d]; simpl; try reflexivity.
  - now rewrite H.
  - f_equal. apply IH.
Qed.

Lemma frame_on_start t0 d w :
  localStorage (on_start t0 d w) = localStorage w
  /\ console (on_start t0 d w) = console w
  /\ map hcore (nodes (on_start t0 d w)) = map hcore (nodes w).
Proof.
  unfold on_start. cbn [localStorage console nodes set_nodes set_container].
  splits; try reflexivity. now rewrite !map_alter_same.
Qed.

Lemma frame_moves (f : Point -> float * float) d moves w :
  let w' := fold_left (fun w p => on_drag (f p) d w) moves w in
  localStorage w' = localStorage w /\ console w' = console w.
Proof.
  revert w. induction moves as [|p moves IH]; intros w; simpl; [easy|].
  destruct (IH (on_drag (f p) d w)) as [-> ->]. easy.
Qed.

Lemma frame_on_end t1 d w :
  localStorage (on_end t1 d w) = localStorage w
  /\ console (on_end t1 d w) = console w
  /\ map hcore (nodes (on_end t1 d w)) = map hcore (nodes w).
Proof.
  unfold on_end. destruct (nodes w !! d); [|easy].
  destruct (wasClick t1 _); cbn [localStorage console nodes set_nodes set_dialogs];
    (splits; try reflexivity; now rewrite map_alter_same).
Qed.

(** What no gesture touches. *)
Lemma frame_gesture e d t0 p0 moves t1 w :
  let w' := gesture e d t0 p0 moves t1 w in
  w_heap w' = w_heap w /\ localStorage w' = localStorage w
  /\ console w' = console w /\ map hcore (nodes w') = map hcore (nodes w).
Proof.
  unfold gesture. destruct (defaultFilter e); [|easy].
  unfold handled. destruct (nodes w !! d) as [n|] eqn:E; [|easy]. cbv zeta.
  destruct (frame_on_end t1 d (pressed d t0 p0 moves n w)) as (-> & -> & ->).
  rewrite heap_on_end, heap_pressed. unfold pressed.
  destruct (frame_moves (event_xy (drag_offset n p0)) d moves (on_start t0 d w))
    as [-> ->].
  destruct (moves_frame (event_xy (drag_offset n p0)) d moves (on_start t0 d w))
    as (-> & _ & _).
  destruct (frame_on_start t0 d w) as (-> & -> & ->). easy.
Qed.

Lemma dialogs_run g w : dialogs (run g w) = dialogs w ++ click_of (nodes w) g.
Proof.
  unfold run, click_of, gesture. destruct (defaultFilter (ges_press g)).
  - destruct (nodes w !! ges_node g) as [n|] eqn:E.
    + rewrite (dialogs_handled _ _ _ _ _ n w E). cbn [andb].
      destruct (_ <? _)%Z; [reflexivity|now rewrite app_nil_r].
    + unfold handled. rewrite E. now rewrite app_nil_r.
  - cbn [andb]. destruct (nodes w !! ges_node g); now rewrite app_nil_r.
Qed.

Lemma click_of_core ns ns' g : map hcore ns = map hcore ns' -> click_of ns g = click_of ns' g.
Proof.
  intros H. unfold click_of.
  assert (E : hcore <$> ns !! ges_node g = hcore <$> ns' !! ges_node g).
  { rewrite <- !list_lookup_fmap, <- !map_fmap. now rewrite H. }
  destruct (ns !! ges_node g) as [n|], (ns' !! ges_node g) as [n'|];
    try discriminate; [|reflexivity].
  injection E as E _ _ _ _ _. now rewrite E.
Qed.










Lemma heap_session gs w : w_heap (session gs w) = w_heap w.
Proof.
  revert w. induction gs as [|g gs IH]; intros w; [reflexivity|].
  cbn [session fold_left]. fold (session gs (run g w)). rewrite IH.
  apply (frame_gesture (ges_press g) (ges_node g) (ges_down g) (ges_at g) (ges_moves g)
              (ges_up g) w).
Qed.

(** X9: drawing again after a session forgets every move: [createTree]
    ends as it would have ended and leaves the container and the
    hierarchy that it would have left without the session; the dialogs
    opened during the session stay. *)
Theorem X9_drawing_again_forgets_moves (fuel : nat) (data : option ref)
    (gs : list Gesture) (w : World) :
  fst (createTree fuel data (session gs w)) = fst (createTree fuel data w)
  /\ container (snd (createTree fuel data (session gs w)))
     = container (snd (createTree fuel data w))
  /\ nodes (snd (createTree fuel data (session gs w)))
     = nodes (snd (createTree fuel data w))
  /\ dialogs (snd (createTree fuel data (session gs w))) = dialogs (session gs w).
Proof.
  destruct (createTree_drawing fuel data (session gs w) w (heap_session gs w))
    as (H1 & H2 & H3).
  destruct (createTree_frame fuel data (session gs w)) as (_ & H4 & _).
  now splits.
Qed.

End Sessions.

(** ** A press on a drawn tree *)

Section PressedNode.

Lemma filter_this_lines d b (ls : list LineEl) :
  filter (fun k => is_this d k = b) (map ALine ls) = if b then [] else map ALine ls.
Proof.
  induction ls as [|l ls IH]; [now destruct b|].
  cbn [map]. rewrite filter_cons, IH. cbn [is_this].
  destruct b; [destruct (decide (false = true)); [discriminate|reflexivity]|].
  destruct (decide (false = false)); [reflexivity|contradiction].
Qed.

Lemma filter_this_nodes d (es : list NodeEl) :
  filter (fun k => is_this d k = true) (map ANode es)
  = map ANode (filter (fun g => g_datum g = d) es)
  /\ filter (fun k => is_this d k = false) (map ANode es)
     = map ANode (filter (fun g => g_datum g <> d) es).
Proof.
  induction es as [|g es [IH1 IH2]]; [now split|].
  cbn [map]. rewrite !filter_cons, IH1, IH2. cbn [is_this].
  destruct (decide (g_datum g = d)) as [E|E].
  - rewrite (bool_decide_eq_true_2 _ E).
    destruct (decide (true = true)); [|contradiction].
    destruct (decide (true = false)); [discriminate|].
    destruct (decide (g_datum g <> d)); [contradiction|]. now split.
  - rewrite (bool_decide_eq_false_2 _ E).
    destruct (decide (false = true)); [discriminate|].
    destruct (decide (false = false)); [|contradiction].
    destruct (decide (g_datum g <> d)); [|contradiction]. now split.
Qed.

(** Raising the element of [d] in a [g] of lines and nodes. *)
Lemma raise_drawn d a b c (ls : list LineEl) (es : list NodeEl) :
  raise d (mkSvg a b c (map ALine ls ++ map ANode es))
  = mkSvg a b c (map ALine ls
                 ++ map ANode (filter (fun g => g_datum g <> d) es
                               ++ filter (fun g => g_datum g = d) es)).
Proof.
  unfold raise. cbn [svg_width svg_height g_transform g_children]. f_equal.
  destruct (filter_this_nodes d es) as [E1 E2].
  rewrite !filter_app, !filter_this_lines, E1, E2, map_app.
  cbn [app]. now rewrite <- app_assoc.
Qed.

Definition moved (d : nid) (xy : float * float) (g : NodeEl) : NodeEl :=
  if bool_decide (g_datum g = d)
  then mkNodeEl (g_class g) xy (g_datum g) (g_kids g)
  else g.

Lemma set_transform_drawn d xy a b c (ls : list LineEl) (es : list NodeEl) :
  set_transform d xy (mkSvg a b c (map ALine ls ++ map ANode es))
  = mkSvg a b c (map ALine ls ++ map ANode (map (moved d xy) es)).
Proof.
  unfold set_transform. cbn [svg_width svg_height g_transform g_children]. f_equal.
  rewrite map_app, !map_map. f_equal. apply map_ext. intros g. unfold moved.
  now destruct (bool_decide (g_datum g = d)).
Qed.

Lemma el_core_moved d xy es : map el_core (map (moved d xy) es) = map el_core es.
Proof.
  rewrite map_map. apply map_ext. intros g. unfold moved.
  now destruct (bool_decide (g_datum g = d)).
Qed.

Lemma moves_drawn (f : Point -> float * float) d a b c (ls : list LineEl) moves :
  forall (es : list NodeEl) w,
    container w = [mkSvg a b c (map ALine ls ++ map ANode es)] ->
    exists es',
      container (fold_left (fun w p => on_drag (f p) d w) moves w)
      = [mkSvg a b c (map ALine ls ++ map ANode es')]
      /\ map el_core es' = map el_core es.
Proof.
  induction moves as [|p moves IH]; intros es w Hw.
  - now exists es.
  - cbn [fold_left].
    destruct (IH (map (moved d (f p)) es) (on_drag (f p) d w)) as (es' & H1 & H2).
    { unfold on_drag. cbn [container set_container]. rewrite Hw. cbn [map].
      now rewrite set_transform_drawn. }
    exists es'. split; [exact H1|]. now rewrite H2, el_core_moved.
Qed.

(** The one element of a node. *)
Lemma filter_none {A} (f : A -> nat) (l : list A) d :
  d ∉ map f l -> filter (fun b => f b = d) l = [].
Proof.
  induction l as [|b l IH]; intros Hd; [reflexivity|].
  cbn [map] in Hd. apply not_elem_of_cons in Hd as [Hne Hd].
  rewrite filter_cons. destruct (decide (f b = d)); [congruence|now apply IH].
Qed.

Lemma filter_unique {A} (f : A -> nat) (l : list A) d :
  NoDup (map f l) -> d ∈ map f l ->
  exists a, filter (fun b => f b = d) l = [a] /\ f a = d.
Proof.
  induction l as [|b l IH]; intros Hnd Hin; [inversion Hin|].
  cbn [map] in Hnd, Hin. apply NoDup_cons in Hnd as [Hb Hnd].
  rewrite filter_cons. destruct (decide (f b = d)) as [E|E].
  - exists b. split; [|exact E]. f_equal. apply filter_none. now rewrite <- E.
  - apply elem_of_cons in Hin as [->|Hin]; [contradiction|]. now apply IH.
Qed.

(** X10: a press on a node of a drawn tree that the filter of d3-drag
    accepts brings its [g.node] to the front, and there it stays for the
    rest of the gesture: the [g] still holds the lines first, unchanged,
    and then the nodes, of which the element of the pressed node is the
    last, painted over all others. *)
Theorem X10_pressed_node_comes_to_front (w : World) (R : Tree nat) (fuel : nat)
    (e : Press) (d : nid) (t0 : Z) (p0 : Point) (moves : list Point) (t1 : Z) :
  unfolds (w_heap w) R -> tsize R < fuel -> d < tsize R ->
  defaultFilter e = true ->
  exists w' svg g,
    createTree fuel (Some (label R)) w = (Ok tt, w')
    /\ container (gesture e d t0 p0 moves t1 w') = [svg]
    /\ g_children svg
       = map ALine (drawn_lines w')
         ++ map ANode (drawn_nodes (gesture e d t0 p0 moves t1 w'))
    /\ last (drawn_nodes (gesture e d t0 p0 moves t1 w')) = Some g
    /\ g_datum g = d.
Proof.
  intros HR Hfuel Hd He.
  destruct (createTree_valid (w_heap w) w R fuel eq_refl HR Hfuel)
    as (arena & T & ns & lines & els & Hrun & Hl & Hn & HTR & Hroot & HT & Hnum & Hlen
        & Hperm & Hiter & Hlines & Hels & _).
  rewrite Hrun in Hl, Hn. cbn [snd] in Hl, Hn.
  set (w' := set_nodes arena
               (set_container [mkSvg width height (50, 50)%float
                                     (map ALine lines ++ map ANode els)] w)) in *.
  assert (Hsz : tsize T = tsize R) by (rewrite <- HTR; symmetry; apply tsize_tmap).
  destruct (lookup_lt_is_Some_2 arena d) as [n En]; [lia|].
  assert (Hdat : map g_datum els = ns).
  { eapply Forall2_map_r; [|exact Hels].
    intros u g Hg. now apply the_node_class in Hg. }
  assert (Hcls : Forall (fun g => g_class g = "node") els).
  { apply Forall_forall. intros g Hg. apply list_elem_of_lookup in Hg as [i Hi].
    destruct (Forall2_lookup_r _ _ _ i g Hels Hi) as (u & _ & Hu).
    now apply the_node_class in Hu. }
  destruct (filter_unique g_datum els d) as (g0 & Hg0 & Hg0d).
  { rewrite Hdat, Hperm. apply (numbered_NoDup 1 T _ Hnum). rewrite Hroot. unfold root. lia. }
  { rewrite Hdat, Hperm, (ids_seq T Hroot Hnum). apply elem_of_seq. lia. }
  set (es0 := filter (fun g => g_datum g <> d) els ++ [g0]).
  assert (Hc0 : container (on_start t0 d w')
                = [mkSvg width height (50, 50)%float (map ALine lines ++ map ANode es0)]).
  { unfold on_start, w'. cbn [container set_nodes set_container map].
    now rewrite raise_drawn, Hg0. }
  destruct (moves_drawn (event_xy (drag_offset n p0)) d _ _ _ lines moves es0
              (on_start t0 d w') Hc0) as (es' & Hc' & Hcore).
  assert (Hcont : container (handled d t0 p0 moves t1 w')
                  = [mkSvg width height (50, 50)%float (map ALine lines ++ map ANode es')]).
  { unfold handled. replace (nodes w' !! d) with (Some n) by (symmetry; exact En).
    rewrite container_on_end. exact Hc'. }
  assert (Hcls0 : Forall (fun g => g_class g = "node") es0).
  { apply Forall_app. split.
    - apply Forall_forall. intros g Hg. apply list_elem_of_filter in Hg as [_ Hg].
      rewrite Forall_forall in Hcls. now apply Hcls.
    - constructor; [|constructor]. rewrite Forall_forall in Hcls. apply Hcls.
      assert (Hin : g0 ∈ filter (fun g => g_datum g = d) els)
        by (rewrite Hg0; apply list_elem_of_here).
      now apply list_elem_of_filter in Hin as [_ ?]. }
  assert (Hcls' : Forall (fun g => g_class g = "node") es').
  { assert (H : Forall (fun c => fst (fst c) = "node") (map el_core es')).
    { rewrite Hcore. apply Forall_map. exact Hcls0. }
    now apply Forall_map in H. }
  assert (Hdn : drawn_nodes (handled d t0 p0 moves t1 w') = es').
  { unfold drawn_nodes. rewrite Hcont. cbn [flat_map g_children].
    rewrite app_nil_r, select_nodes_app, select_nodes_lines, select_nodes_nodes
      by exact Hcls'. reflexivity. }
  assert (Hlast : exists g, last es' = Some g /\ g_datum g = d).
  { assert (H : el_core <$> last es' = Some (el_core g0)).
    { rewrite <- fmap_last, <- map_fmap, Hcore, map_fmap, fmap_last.
      unfold es0. now rewrite last_snoc. }
    destruct (last es') as [g|]; [|discriminate]. exists g. split; [reflexivity|].
    injection H as _ H _. now rewrite H. }
  destruct Hlast as (g & Hlast & Hgd).
  exists w', (mkSvg width height (50, 50)%float (map ALine lines ++ map ANode es')), g.
  rewrite (gesture_accepted e d t0 p0 moves t1 w' He), Hdn, Hl. now splits.
Qed.

End PressedNode.

(** ** The dialogs of a session *)

Section Dialogs.

Lemma dialogs_session gs w :
  dialogs (session gs w) = dialogs w ++ flat_map (click_of (nodes w)) gs.
Proof.
  revert w. induction gs as [|g gs IH]; intros w.
  { cbn. now rewrite app_nil_r. }
  cbn [session fold_left flat_map]. fold (session gs (run g w)).
  rewrite IH, dialogs_run, <- app_assoc. do 2 f_equal.
  apply flat_map_ext. intros g'. apply click_of_core.
  apply (frame_gesture (ges_press g) (ges_node g) (ges_down g) (ges_at g) (ges_moves g)
              (ges_up g) w).
Qed.

(** The data of a node is an object of the tree. *)
Lemma htree_data arena parent depth T u n :
  htree arena parent depth T -> u ∈ ids T -> arena !! u = Some n ->
  n_data n ∈ labels (tmap snd T).
Proof.
  revert parent depth. induction T as [[id r] ks IH] using Tree_ind'.
  intros parent depth HT Hu Hn.
  inversion HT as [? ? ? ? ? nd Hnd Hdata _ _ _ Hks]; subst.
  rewrite ids_cons in Hu. cbn [fst] in Hu. cbn [tmap labels snd].
  apply elem_of_cons in Hu as [->|Hu].
  - rewrite Hn in Hnd. injection Hnd as ->. apply list_elem_of_here.
  - apply list_elem_of_further.
    apply list_elem_of_In, in_flat_map in Hu as (k & Hk & Hu).
    apply list_elem_of_In in Hk, Hu.
    rewrite Forall_forall in IH. rewrite Forall_forall in Hks.
    apply list_elem_of_In, in_flat_map. exists (tmap snd k). split.
    + apply in_map. now apply list_elem_of_In.
    + apply list_elem_of_In. apply (IH k Hk (Some id) (S depth)); auto.
Qed.

(** X11: every dialog opened in a session on a drawn tree is opened on a
    cow of the tree, and it shows the name of that cow as its title, its
    age, an undefined breed, whatever the cow, and its notes. *)
Theorem X11_dialogs_show_cows_of_the_tree (w : World) (R : Tree nat) (fuel : nat)
    (gs : list Gesture) :
  unfolds (w_heap w) R -> tsize R < fuel ->
  exists w' opened,
    createTree fuel (Some (label R)) w = (Ok tt, w')
    /\ dialogs (session gs w') = dialogs w ++ opened
    /\ Forall (fun o =>
                 exists c,
                   dialog_data o ∈ labels R
                   /\ w_heap w !! dialog_data o = Some c
                   /\ dialog_view (w_heap (session gs w')) o
                      = Ok [("mat-dialog-title", VStr (name c));
                            ("Age:", of_option VNum (age c));
                            ("Breed:", VUndefined);
                            ("Notes:", of_option VStr (notes c))])
              opened.
Proof.
  intros HR Hfuel.
  destruct (createTree_valid (w_heap w) w R fuel eq_refl HR Hfuel)
    as (arena & T & ns & lines & els & Hrun & _ & _ & HTR & Hroot & HT & Hnum & Hlen & _).
  assert (Hsz : tsize T = tsize R) by (rewrite <- HTR; symmetry; apply tsize_tmap).
  assert (HRT : unfolds (w_heap w) (tmap snd T)) by (now rewrite HTR).
  eexists. exists (flat_map (click_of arena) gs). split; [exact Hrun|].
  split; [now rewrite dialogs_session|].
  rewrite heap_session. cbn [w_heap set_nodes set_container].
  apply Forall_forall. intros o Ho.
  apply list_elem_of_In, in_flat_map in Ho as (g & _ & Ho). apply list_elem_of_In in Ho.
  unfold click_of in Ho. destruct (arena !! ges_node g) as [n|] eqn:En; [|inversion Ho].
  destruct (defaultFilter _ && _); [|inversion Ho].
  apply list_elem_of_singleton in Ho as ->. cbn [dialog_data].
  assert (Hu : ges_node g ∈ ids T).
  { rewrite (ids_seq T Hroot Hnum). apply elem_of_seq.
    apply lookup_lt_Some in En. lia. }
  destruct (htree_node (w_heap w) arena None 0 T _ HRT HT Hu) as (nd & Hnd & [c Hc] & _).
  rewrite En in Hnd. injection Hnd as <-.
  exists c. splits.
  - rewrite <- HTR. now apply (htree_data arena None 0 T (ges_node g)).
  - exact Hc.
  - unfold dialog_view. cbn [dialog_data]. rewrite (deref_Some _ _ _ Hc). reflexivity.
Qed.

End Dialogs.

(** ** Literals *)

Section Literals.

Lemma CowLit_ind' (P : CowLit -> Prop) :
  (forall n a g s, P (lit n a g s None)) ->
  (forall n a g s ts, Forall P ts -> P (lit n a g s (Some ts))) ->
  forall t, P t.
Proof.
  intros H1 H2. fix IH 1. intros [n a g s [ts|]]; [|apply H1].
  apply H2. induction ts as [|t ts IHts]; constructor; [apply IH|exact IHts].
Qed.

Lemma unfolds_extend (h h' : heap) R :
  (forall i c, h !! i = Some c -> h' !! i = Some c) -> unfolds h R -> unfolds h' R.
Proof.
  intros Hext. induction R as [r ks IH] using Tree_ind'. intros HR.
  inversion HR as [? c ? Hc Hcs Hks]; subst.
  apply (unfolds_intro h' r c ks); [now apply Hext|exact Hcs|].
  rewrite Forall_forall in IH. rewrite Forall_forall in Hks.
  apply Forall_forall. intros k Hk. apply IH; [exact Hk|now apply Hks].
Qed.

(** Evaluating a literal appends its objects to the heap, its own last;
    they unfold into a tree of the shape of the literal. *)
Definition alloc_spec (t : CowLit) : Prop :=
  forall h, exists R ext,
    alloc t h = (h ++ ext, label R)
    /\ unfolds (h ++ ext) R
    /\ tsize R = lit_size t.

Lemma alloc_list_spec ts :
  Forall alloc_spec ts ->
  forall h, exists Rs ext,
    alloc_list ts h = (h ++ ext, map label Rs)
    /\ Forall (unfolds (h ++ ext)) Rs
    /\ map tsize Rs = map lit_size ts.
Proof.
  induction 1 as [|t ts Ht _ IH]; intros h.
  - exists [], []. rewrite app_nil_r. now splits.
  - destruct (Ht h) as (R1 & e1 & Hrun1 & HR1 & Hs1).
    destruct (IH (h ++ e1)) as (Rs & e2 & Hrun2 & HRs & Hss).
    exists (R1 :: Rs), (e1 ++ e2). cbn [alloc_list]. rewrite Hrun1, Hrun2.
    rewrite <- app_assoc in *. splits.
    + reflexivity.
    + constructor; [|exact HRs].
      apply (unfolds_extend (h ++ e1)); [|exact HR1].
      intros i c Hi. rewrite app_assoc. now apply lookup_app_l_Some.
    + cbn [map]. now rewrite Hs1, Hss.
Qed.

Lemma alloc_ok t : alloc_spec t.
Proof.
  induction t as [n a g s|n a g s ts IH] using CowLit_ind'; intros h.
  - exists (Node (length h) []), [mkCow n a g s None]. splits.
    + reflexivity.
    + apply (unfolds_intro _ _ (mkCow n a g s None)); [|now left|constructor].
      now apply list_lookup_middle.
    + reflexivity.
  - destruct (alloc_list_spec ts IH h) as (Rs & ext & Hrun & HRs & Hss).
    exists (Node (length (h ++ ext)) Rs), (ext ++ [mkCow n a g s (Some (map label Rs))]).
    assert (E : alloc (lit n a g s (Some ts)) h
                = let '(h1, rs) := alloc_list ts h in
                  (h1 ++ [mkCow n a g s (Some rs)], length h1)) by reflexivity.
    rewrite E, Hrun, app_assoc. splits.
    + reflexivity.
    + apply (unfolds_intro _ _ (mkCow n a g s (Some (map label Rs)))).
      * now apply list_lookup_middle.
      * cbn [children]. destruct Rs; [now right|reflexivity].
      * eapply Forall_impl; [exact HRs|]. intros R' HR'.
        apply (unfolds_extend (h ++ ext)); [|exact HR'].
        intros i c Hi. now apply lookup_app_l_Some.
    + cbn [tsize lit_size]. now rewrite Hss.
Qed.

(** X12: evaluating a [Cow] literal, as the field [data] does, leaves the
    objects that were there and gives a valid tree, with one node for each
    object of the literal; [createTree] draws it, with as many [g.node]s
    as the literal has objects and one line fewer. *)
Theorem X12_literals_are_valid_trees (t : CowLit) (w : World) (fuel : nat) :
  lit_size t < fuel ->
  exists R w',
    unfolds (fst (alloc t (w_heap w))) R
    /\ label R = snd (alloc t (w_heap w))
    /\ tsize R = lit_size t
    /\ (forall i c, w_heap w !! i = Some c -> fst (alloc t (w_heap w)) !! i = Some c)
    /\ createTree fuel (Some (snd (alloc t (w_heap w))))
                  (set_heap (fst (alloc t (w_heap w))) w)
       = (Ok tt, w')
    /\ length (drawn_nodes w') = lit_size t
    /\ length (drawn_lines w') = lit_size t - 1.
Proof.
  intros Hfuel. destruct (alloc_ok t (w_heap w)) as (R & ext & Hrun & HR & Hsz).
  rewrite Hrun. cbn [fst snd]. rewrite <- Hsz in *.
  destruct (render_total (w_heap w ++ ext) R fuel HR Hfuel)
    as (arena & kids & Hrender & Hn & Hl).
  exists R. eexists. splits.
  - exact HR.
  - reflexivity.
  - reflexivity.
  - intros i c Hi. now apply lookup_app_l_Some.
  - unfold createTree. cbn [w_heap set_heap]. rewrite Hrender. reflexivity.
  - unfold drawn_nodes. cbn [container set_nodes set_container flat_map g_children].
    now rewrite app_nil_r.
  - unfold drawn_lines. cbn [container set_nodes set_container flat_map g_children].
    now rewrite app_nil_r.
Qed.

End Literals.

(** ** What the handlers read *)

Section Flags.

Lemma container_pressed d t0 p0 moves n w :
  container (pressed d t0 p0 moves n w)
  = fold_left (fun c p => map (set_transform d (event_xy (drag_offset n p0) p)) c)
              moves (map (raise d) (container w)).
Proof.
  unfold pressed.
  change (map (raise d) (container w)) with (container (on_start t0 d w)).
  generalize (on_start t0 d w). intros w0. revert w0.
  induction moves as [|p moves IH]; intros w0; [reflexivity|].
  cbn [fold_left]. now rewrite IH.
Qed.

Lemma hcore_lookup ns1 ns2 d :
  map hcore ns1 = map hcore ns2 -> hcore <$> ns1 !! d = hcore <$> ns2 !! d.
Proof. intros H. rewrite <- !list_lookup_fmap, <- !map_fmap. now rewrite H. Qed.

(** X13: the handlers never read [d['dragging']], nor a [d['dragStart']]
    left by an earlier gesture: on two pages that differ at most in these
    two properties of their nodes a gesture opens the same dialogs and
    leaves the same drawing. *)
Theorem X13_flags_are_never_read (e : Press) (d : nid) (t0 : Z) (p0 : Point)
    (moves : list Point) (t1 : Z) (w1 w2 : World) :
  map hcore (nodes w1) = map hcore (nodes w2) ->
  container w1 = container w2 ->
  dialogs w1 = dialogs w2 ->
  dialogs (gesture e d t0 p0 moves t1 w1) = dialogs (gesture e d t0 p0 moves t1 w2)
  /\ container (gesture e d t0 p0 moves t1 w1) = container (gesture e d t0 p0 moves t1 w2)
  /\ map hcore (nodes (gesture e d t0 p0 moves t1 w1))
     = map hcore (nodes (gesture e d t0 p0 moves t1 w2)).
Proof.
  intros Hn Hc Hd. pose proof (hcore_lookup _ _ d Hn) as Hl.
  destruct (frame_gesture e d t0 p0 moves t1 w1) as (_ & _ & _ & F1).
  destruct (frame_gesture e d t0 p0 moves t1 w2) as (_ & _ & _ & F2).
  split; [|split; [|now rewrite F1, F2]].
  - unfold gesture. destruct (defaultFilter e); [|exact Hd].
    destruct (nodes w1 !! d) as [n1|] eqn:E1, (nodes w2 !! d) as [n2|] eqn:E2;
      try discriminate.
    + rewrite (dialogs_handled d t0 p0 moves t1 n1 w1 E1),
              (dialogs_handled d t0 p0 moves t1 n2 w2 E2), Hd.
      injection Hl as Hdata _ _ _ _ _. now rewrite Hdata.
    + unfold handled. now rewrite E1, E2.
  - unfold gesture. destruct (defaultFilter e); [|exact Hc]. unfold handled.
    destruct (nodes w1 !! d) as [n1|] eqn:E1, (nodes w2 !! d) as [n2|] eqn:E2;
      try discriminate; [|exact Hc].
    rewrite !container_on_end, !container_pressed, Hc.
    injection Hl as _ _ _ _ Hx Hy. unfold drag_offset. now rewrite Hx, Hy.
Qed.

End Flags.

(** ** The tree of the component

    The properties above, on the page that the component has drawn:
    [data_tree] is the tree of [data] in the heap of [started]. *)

Section Examples.

Ltac data_tree_unfolds :=
  unfold data_tree;
  repeat (eapply unfolds_intro; [vm_compute; reflexivity|vm_compute; auto|];
          repeat constructor).

Lemma X1_witness :
  exists w',
    createTree 100 (Some (label data_tree)) started = (Ok tt, w')
    /\ container w'
       = [mkSvg 800 600 (50, 50)%float
                (map ALine (drawn_lines w') ++ map ANode (drawn_nodes w'))].
Proof.
  apply (X1_lines_under_nodes started data_tree 100).
  - data_tree_unfolds.
  - vm_compute. lia.
Defined.

Lemma X2_witness :
  exists w',
    createTree 100 (Some (label data_tree)) started = (Ok tt, w')
    /\ length (nodes w') = tsize data_tree
    /\ map g_datum (drawn_nodes w') ≡ₚ seq 0 (tsize data_tree)
    /\ Forall (fun g =>
                 exists n c,
                   nodes w' !! g_datum g = Some n
                   /\ w_heap started !! n_data n = Some c
                   /\ g = mkNodeEl "node" (n_x n, n_y n) (g_datum g)
                                   [Circle 20 "#89CFF0";
                                    TextEl 5 "middle" (name c) "12px"])
              (drawn_nodes w').
Proof.
  apply (X2_one_element_per_node started data_tree 100).
  - data_tree_unfolds.
  - vm_compute. lia.
Defined.

Lemma X3_witness :
  exists w',
    createTree 100 (Some (label data_tree)) started = (Ok tt, w')
    /\ map (fun l => target (l_datum l)) (drawn_lines w') ≡ₚ seq 1 (tsize data_tree - 1)
    /\ Forall (fun l =>
                 exists s t,
                   nodes w' !! source (l_datum l) = Some s
                   /\ nodes w' !! target (l_datum l) = Some t
                   /\ n_parent t = Some (source (l_datum l))
                   /\ l = mkLine "link" (n_x s) (n_y s) (n_x t) (n_y t) "#999" 2
                                 (l_datum l))
              (drawn_lines w').
Proof.
  apply (X3_one_line_per_child started data_tree 100).
  - data_tree_unfolds.
  - vm_compute. lia.
Defined.

Lemma X4_witness :
  exists w',
    createTree 100 (Some (label data_tree)) started = (Ok tt, w')
    /\ (exists n0, nodes w' !! root = Some n0 /\ n_data n0 = label data_tree
                   /\ n_parent n0 = None /\ n_depth n0 = 0)
    /\ forall u n, nodes w' !! u = Some n ->
         exists c, w_heap started !! n_data n = Some c
                   /\ Forall2 (fun k r =>
                                 exists nk, nodes w' !! k = Some nk /\ n_data nk = r
                                            /\ n_parent nk = Some u
                                            /\ n_depth nk = S (n_depth n))
                              (default [] (n_children n)) (default [] (children c)).
Proof.
  apply (X4_hierarchy_mirrors_data started data_tree 100).
  - data_tree_unfolds.
  - vm_compute. lia.
Defined.

Lemma X5_witness :
  exists w' deepest_node,
    createTree 100 (Some (label data_tree)) started = (Ok tt, w')
    /\ deepest_node ∈ nodes w'
    /\ (forall n, n ∈ nodes w' -> n_depth n <= n_depth deepest_node)
    /\ Forall (fun g =>
                 exists n,
                   nodes w' !! g_datum g = Some n
                   /\ snd (transform g)
                      = (float_of_nat (n_depth n)
                         * step (height - 100) (n_depth deepest_node))%float)
              (drawn_nodes w').
Proof.
  apply (X5_generations_on_rows started data_tree 100).
  - data_tree_unfolds.
  - vm_compute. lia.
Defined.

Lemma X6_witness :
  exists w',
    createTree 100 (Some (label data_tree)) started = (Ok tt, w')
    /\ dialogs (on_end 1000 bella w') = dialogs started
    /\ container (on_end 1000 bella w') = container w'
    /\ layout_of (on_end 1000 bella w') = layout_of w'.
Proof.
  apply (X6_release_without_press started data_tree 100 bella 1000).
  - data_tree_unfolds.
  - vm_compute. lia.
Defined.

Lemma X7_witness :
  exists w' cs,
    createTree 100 (Some (label data_tree)) started = (Ok tt, w')
    /\ Forall2 (fun r c => w_heap started !! r = Some c) (labels data_tree) cs
    /\ flat_map texts (drawn_nodes w') ≡ₚ map name cs.
Proof.
  apply (X7_names_on_the_page started data_tree 100).
  - data_tree_unfolds.
  - vm_compute. lia.
Defined.

(** A press of 100 ms on Bella with the main button, moved by 50 px. *)
Lemma X10_witness :
  exists w' svg g,
    createTree 100 (Some (label data_tree)) started = (Ok tt, w')
    /\ container (gesture main_button bella 1000 (mkPoint 120 250) [mkPoint 170 250]
                         1100 w') = [svg]
    /\ g_children svg
       = map ALine (drawn_lines w')
         ++ map ANode (drawn_nodes
                         (gesture main_button bella 1000 (mkPoint 120 250)
                                  [mkPoint 170 250] 1100 w'))
    /\ last (drawn_nodes (gesture main_button bella 1000 (mkPoint 120 250)
                                  [mkPoint 170 250] 1100 w'))
       = Some g
    /\ g_datum g = bella.
Proof.
  apply (X10_pressed_node_comes_to_front started data_tree 100 main_button bella 1000
           (mkPoint 120 250) [mkPoint 170 250] 1100).
  - data_tree_unfolds.
  - vm_compute. lia.
  - vm_compute. lia.
  - vm_compute. reflexivity.
Defined.

(** A click on Bella with the mouse, a long press on Lilly with a finger,
    a click on Daisy with the mouse, and a click on Bella with the
    secondary button. *)
Definition some_gestures : list Gesture :=
  [mkGesture main_button bella 1000 (mkPoint 120 250) [] 1100;
   mkGesture finger root 2000 (mkPoint 350 0) [mkPoint 360 10] 2500;
   mkGesture main_button 2 3000 (mkPoint 350 250) [] 3050;
   mkGesture secondary_button bella 4000 (mkPoint 120 250) [] 4050].

Lemma X11_witness :
  exists w' opened,
    createTree 100 (Some (label data_tree)) started = (Ok tt, w')
    /\ dialogs (session some_gestures w') = dialogs started ++ opened
    /\ Forall (fun o =>
                 exists c,
                   dialog_data o ∈ labels data_tree
                   /\ w_heap started !! dialog_data o = Some c
                   /\ dialog_view (w_heap (session some_gestures w')) o
                      = Ok [("mat-dialog-title", VStr (name c));
                            ("Age:", of_option VNum (age c));
                            ("Breed:", VUndefined);
                            ("Notes:", of_option VStr (notes c))])
              opened.
Proof.
  apply (X11_dialogs_show_cows_of_the_tree started data_tree 100 some_gestures).
  - data_tree_unfolds.
  - vm_compute. lia.
Defined.

Lemma X12_witness :
  exists R w',
    unfolds (fst (alloc data (w_heap empty_world))) R
    /\ label R = snd (alloc data (w_heap empty_world))
    /\ tsize R = lit_size data
    /\ (forall i c, w_heap empty_world !! i = Some c ->
                    fst (alloc data (w_heap empty_world)) !! i = Some c)
    /\ createTree 100 (Some (snd (alloc data (w_heap empty_world))))
                  (set_heap (fst (alloc data (w_heap empty_world))) empty_world)
       = (Ok tt, w')
    /\ length (drawn_nodes w') = lit_size data
    /\ length (drawn_lines w') = lit_size data - 1.
Proof.
  apply (X12_literals_are_valid_trees data empty_world 100).
  vm_compute. lia.
Defined.

(** The page of [started], and the same page with Bella left dragging
    by a press at time 5. *)
Definition left_dragging : World :=
  set_nodes (alter (set_n_dragStart 5) bella
               (alter (set_n_dragging true) bella (nodes started))) started.

Lemma X13_witness :
  dialogs (gesture main_button bella 1000 (mkPoint 120 250) [mkPoint 170 250] 1100 started)
  = dialogs (gesture main_button bella 1000 (mkPoint 120 250) [mkPoint 170 250] 1100
               left_dragging)
  /\ container (gesture main_button bella 1000 (mkPoint 120 250) [mkPoint 170 250] 1100
                  started)
     = container (gesture main_button bella 1000 (mkPoint 120 250) [mkPoint 170 250] 1100
                    left_dragging)
  /\ map hcore (nodes (gesture main_button bella 1000 (mkPoint 120 250) [mkPoint 170 250]
                         1100 started))
     = map hcore (nodes (gesture main_button bella 1000 (mkPoint 120 250) [mkPoint 170 250]
                           1100 left_dragging)).
Proof.
  apply (X13_flags_are_never_read main_button bella 1000 (mkPoint 120 250)
           [mkPoint 170 250] 1100 started left_dragging).
  - vm_compute. reflexivity.
  - vm_compute. reflexivity.
  - vm_compute. reflexivity.
Defined.

Lemma X14_witness :
  exists w',
    createTree 100 (Some (label data_tree)) started = (Ok tt, w')
    /\ Forall (fun l =>
                 exists gs gt,
                   gs ∈ drawn_nodes w' /\ gt ∈ drawn_nodes w'
                   /\ g_datum gs = source (l_datum l)
                   /\ g_datum gt = target (l_datum l)
                   /\ transform gs = (x1 l, y1 l)
                   /\ transform gt = (x2 l, y2 l))
              (drawn_lines w').
Proof.
  apply (X14_lines_are_attached started data_tree 100).
  - data_tree_unfolds.
  - vm_compute. lia.
Defined.

Lemma X15_witness :
  exists w',
    createTree 100 (Some (label data_tree)) started = (Ok tt, w')
    /\ g_datum <$> head (drawn_nodes w') = Some root
    /\ forall i j gi gj, i <= j ->
         drawn_nodes w' !! i = Some gi -> drawn_nodes w' !! j = Some gj ->
         depth_of (nodes w') (g_datum gi) <= depth_of (nodes w') (g_datum gj).
Proof.
  apply (X15_nodes_level_by_level started data_tree 100).
  - data_tree_unfolds.
  - vm_compute. lia.
Defined.

End Examples.
